(** * beautiful-mermaid: the animation scheduler, the easing translator
      and the text that reaches the SVG

    A shallow embedding of [src/animation.ts] (option resolution, the
    CSS-easing to SMIL translation, the delay cascade) and, from the SVG
    renderer, of [escapeXml] and of the functions that call it
    ([renderNodeLabel], [renderNodeShape] with its fourteen shapes,
    [renderEdgeLabel] with [edgeMidpoint], [renderGroupLabels]), with the
    properties the specification states about them.

    Conventions of the embedding.
    - A JavaScript [number] that carries a length or a time is an exact
      rational ([Q]), where the code computes in IEEE doubles; NaN and
      infinities are outside the model.  The statements keep the
      operations in the order in which the code performs them, and the
      bounds they state are those that follow from the order-preserving
      laws of these operations (a larger operand gives a result that is not
      smaller), which rounded arithmetic has too; no bound that is proved
      rests on an identity such as [a + b * (1 - c) = a + b - b * c], which
      holds of the rationals only.  A rank is a layer index and is an integer ([Z]).
    - A JavaScript [Map] is a [gmap]; the loops that fill it are written as
      recursive functions that thread the map.
    - A string is a [string] whose characters are code units below 256. *)

From Stdlib Require Import Ascii String QArith Qminmax Qround Lqa.
From stdpp Require Import gmap strings list fin_maps sorting.

#[local] Set Warnings "-clear-no-such-hyp".
Local Open Scope Q_scope.

(** ** [src/types.ts]: the positioned graph *)

Inductive NodeShape : Type :=
| Rectangle | Rounded | Diamond | Stadium | Circle
| Subroutine | Doublecircle | Hexagon
| Cylinder | Asymmetric | Trapezoid | TrapezoidAlt
| StateStart | StateEnd.

Module PositionedNode.
Record t : Type := mk
  { id : string; label : string; shape : NodeShape;
    x : Q; y : Q; width : Q; height : Q;
    inlineStyle : option (gmap string string);
    rank : option Z }.
End PositionedNode.

Module Point.
Record t : Type := mk { x : Q; y : Q }.
End Point.

Module PositionedEdge.
(** The scheduler reads the endpoints, the label renderer the label, the
    points and the label position; the line style, the arrow flags and the
    two ranks, which only the line renderer reads, are left out of the
    record. *)
Record t : Type := mk
  { source : string; target : string;
    label : option string;
    points : list Point.t;
    labelPosition : option Point.t }.
End PositionedEdge.

Module PositionedGroup.
#[local] Unset Elimination Schemes.
Inductive t : Type := mk
  { id : string; label : string;
    x : Q; y : Q; width : Q; height : Q;
    children : list t }.
#[local] Set Elimination Schemes.
End PositionedGroup.

Module PositionedGraph.
Record t : Type := mk
  { nodes : list PositionedNode.t;
    edges : list PositionedEdge.t;
    groups : list PositionedGroup.t }.
End PositionedGraph.

Inductive NodeAnimation : Type := NodeFade | NodeFadeUp | NodeScale | NodeNone.
Inductive EdgeAnimation : Type := EdgeDraw | EdgeFade | EdgeNone.

(** [AnimationOptions]: every field is optional. *)
Module AnimationOptions.
Record t : Type := mk
  { duration : option Q; stagger : option Q;
    groupDelay : option Q; nodeOverlap : option Q;
    nodeEasing : option string; edgeEasing : option string;
    nodeAnimation : option NodeAnimation;
    edgeAnimation : option EdgeAnimation;
    reducedMotion : option bool }.
End AnimationOptions.

(** [ResolvedAnimation = Required<AnimationOptions>] *)
Module ResolvedAnimation.
Record t : Type := mk
  { duration : Q; stagger : Q; groupDelay : Q; nodeOverlap : Q;
    nodeEasing : string; edgeEasing : string;
    nodeAnimation : NodeAnimation; edgeAnimation : EdgeAnimation;
    reducedMotion : bool }.
End ResolvedAnimation.

(** A stable sort, as [Array.prototype.sort] is: [leb a b] holds when the
    comparator does not put [b] strictly before [a]. *)
Section StableSort.
Context {A : Type} (leb : A -> A -> bool).

Fixpoint sort_insert (a : A) (l : list A) : list A :=
  match l with
  | [] => [a]
  | b :: l' => if leb a b then a :: b :: l' else b :: sort_insert a l'
  end.

Definition stable_sort (l : list A) : list A := foldr sort_insert [] l.
End StableSort.

Definition DEFAULTS : ResolvedAnimation.t :=
  {| ResolvedAnimation.duration := 650;
   ResolvedAnimation.stagger := 0;
   ResolvedAnimation.groupDelay := 110;
   ResolvedAnimation.nodeOverlap := 0.35;
   ResolvedAnimation.nodeEasing := "ease";
   ResolvedAnimation.edgeEasing := "ease-in-out";
   ResolvedAnimation.nodeAnimation := NodeFade;
   ResolvedAnimation.edgeAnimation := EdgeDraw;
   ResolvedAnimation.reducedMotion := true |}.

(** The argument of [resolveAnimation]:
  [boolean | AnimationOptions | undefined]. *)
Inductive Animate : Type :=
| AnimateUndefined
| AnimateBool (b : bool)
| AnimateOptions (o : AnimationOptions.t).

(** [{ ...DEFAULTS, ...animate }]: a field present in [animate] replaces
  the default, an absent one keeps it. *)
Definition spread (o : AnimationOptions.t) : ResolvedAnimation.t :=
  {| ResolvedAnimation.duration :=
     default (ResolvedAnimation.duration DEFAULTS) (AnimationOptions.duration o);
   ResolvedAnimation.stagger :=
     default (ResolvedAnimation.stagger DEFAULTS) (AnimationOptions.stagger o);
   ResolvedAnimation.groupDelay :=
     default (ResolvedAnimation.groupDelay DEFAULTS) (AnimationOptions.groupDelay o);
   ResolvedAnimation.nodeOverlap :=
     default (ResolvedAnimation.nodeOverlap DEFAULTS) (AnimationOptions.nodeOverlap o);
   ResolvedAnimation.nodeEasing :=
     default (ResolvedAnimation.nodeEasing DEFAULTS) (AnimationOptions.nodeEasing o);
   ResolvedAnimation.edgeEasing :=
     default (ResolvedAnimation.edgeEasing DEFAULTS) (AnimationOptions.edgeEasing o);
   ResolvedAnimation.nodeAnimation :=
     default (ResolvedAnimation.nodeAnimation DEFAULTS) (AnimationOptions.nodeAnimation o);
   ResolvedAnimation.edgeAnimation :=
     default (ResolvedAnimation.edgeAnimation DEFAULTS) (AnimationOptions.edgeAnimation o);
   ResolvedAnimation.reducedMotion :=
     default (ResolvedAnimation.reducedMotion DEFAULTS) (AnimationOptions.reducedMotion o) |}.

Definition resolveAnimation (animate : Animate) : option ResolvedAnimation.t :=
  match animate with
  | AnimateUndefined => None
  | AnimateBool false => None
  | AnimateBool true => Some DEFAULTS
  | AnimateOptions o => Some (spread o)
  end.

(** *** Delay computation *)

Module ElementDelays.
Record t : Type := mk
  { nodes : gmap string Q;
    edges : gmap nat Q;
    groups : gmap string Q }.
End ElementDelays.

Section Delays.
Variable graph : PositionedGraph.t.
Variable opts : ResolvedAnimation.t.

Let duration := ResolvedAnimation.duration opts.
Let stagger := ResolvedAnimation.stagger opts.

Definition withinRankStagger : Q := stagger * 0.5.

(** [incomingEdges]: the loop over [graph.edges] from index [i] on. *)
Fixpoint incomingLoop (i : nat) (es : list PositionedEdge.t)
    (m : gmap string (list nat)) : gmap string (list nat) :=
  match es with
  | [] => m
  | e :: es' =>
      let target := PositionedEdge.target e in
      incomingLoop (S i) es'
        (<[target := default [] (m !! target) ++ [i]]> m)
  end.

Definition incomingEdges : gmap string (list nat) :=
  incomingLoop 0 (PositionedGraph.edges graph) ∅.

(** [rankBuckets], before the buckets are sorted. *)
Definition nodeRank (node : PositionedNode.t) : Z :=
  default 0%Z (PositionedNode.rank node).

Fixpoint bucketLoop (ns : list PositionedNode.t)
    (m : gmap Z (list PositionedNode.t)) : gmap Z (list PositionedNode.t) :=
  match ns with
  | [] => m
  | node :: ns' =>
      let rank := nodeRank node in
      bucketLoop ns' (<[rank := default [] (m !! rank) ++ [node]]> m)
  end.

(** [bucket.sort((a, b) => a.x - b.x)] *)
Definition byX (a b : PositionedNode.t) : bool :=
  Qle_bool (PositionedNode.x a) (PositionedNode.x b).

Definition rankBuckets : gmap Z (list PositionedNode.t) :=
  stable_sort byX <$> bucketLoop (PositionedGraph.nodes graph) ∅.

(** [[...rankBuckets.keys()].sort((a, b) => a - b)]: the keys of a map
    are distinct, so the sorted list does not depend on the order in
    which they are enumerated. *)
Definition sortedRanks : list Z :=
  stable_sort Z.leb (elements (dom rankBuckets)).

(** The state of the cascade: the [nodes] and [edges] maps. *)
Definition Cascade : Type := (gmap string Q * gmap nat Q)%type.

(** The inner loop over an incoming-edge list:
    [latestEdgeEnd = Math.max(latestEdgeEnd, edgeDelay + duration)]. *)
Definition latestEdgeEnd (edgeDelays : gmap nat Q) (incoming : list nat) : Q :=
  foldl (fun latest edgeIdx =>
           let edgeDelay := default 0 (edgeDelays !! edgeIdx) in
           Qmax latest (edgeDelay + duration))
        0 incoming.

(** The loop that sets the delay of the edges leaving [nodeId]. *)
Fixpoint outgoingLoop (nodeId : string) (nodeDelay : Q) (ei : nat)
    (es : list PositionedEdge.t) (edgeDelays : gmap nat Q) : gmap nat Q :=
  match es with
  | [] => edgeDelays
  | e :: es' =>
      outgoingLoop nodeId nodeDelay (S ei) es'
        (if decide (PositionedEdge.source e = nodeId)
         then <[ei := nodeDelay + duration]> edgeDelays
         else edgeDelays)
  end.

(** The [if]/[else] of the loop body: the delay stored for the node at
  index [i] of the bucket of [rank], given the edge delays set so far. *)
Definition cascadeDelay (rank : Z) (i : nat) (node : PositionedNode.t)
    (edgeDelays : gmap nat Q) : Q :=
  let idx := inject_Z (Z.of_nat i) in
  match incomingEdges !! PositionedNode.id node with
  | None | Some [] =>
      (* Root node: use rank-based stagger *)
      inject_Z rank * stagger + idx * withinRankStagger
  | Some incoming =>
      let overlap := duration * ResolvedAnimation.nodeOverlap opts in
      latestEdgeEnd edgeDelays incoming - overlap + idx * withinRankStagger
  end.

(** The body of the loop over a bucket. *)
Definition processNode (rank : Z) (i : nat) (node : PositionedNode.t)
    (st : Cascade) : Cascade :=
  let '(nodeDelays, edgeDelays) := st in
  let nodeId := PositionedNode.id node in
  let nodeDelays' :=
    <[nodeId := cascadeDelay rank i node edgeDelays]> nodeDelays in
  (* [nodes.get(node.id)!] reads back the entry stored just above *)
  let nodeDelay := default 0 (nodeDelays' !! nodeId) in
  (nodeDelays',
   outgoingLoop nodeId nodeDelay 0 (PositionedGraph.edges graph) edgeDelays).

Fixpoint bucketPass (rank : Z) (i : nat) (bucket : list PositionedNode.t)
    (st : Cascade) : Cascade :=
  match bucket with
  | [] => st
  | node :: bucket' => bucketPass rank (S i) bucket' (processNode rank i node st)
  end.

Fixpoint rankPass (ranks : list Z) (st : Cascade) : Cascade :=
  match ranks with
  | [] => st
  | rank :: ranks' =>
      rankPass ranks' (bucketPass rank 0 (default [] (rankBuckets !! rank)) st)
  end.

Definition GROUP_REVEAL_PROGRESS : Q := 0.6.

(** The test of [collectGroupDelays]: the node's box lies inside the
    group's box. *)
Definition inside (node : PositionedNode.t) (group : PositionedGroup.t) : bool :=
  Qle_bool (PositionedGroup.x group) (PositionedNode.x node)
  && Qle_bool (PositionedNode.x node + PositionedNode.width node)
              (PositionedGroup.x group + PositionedGroup.width group)
  && Qle_bool (PositionedGroup.y group) (PositionedNode.y node)
  && Qle_bool (PositionedNode.y node + PositionedNode.height node)
              (PositionedGroup.y group + PositionedGroup.height group).

(** The loop over [allNodes] that finds [maxDelay]. *)
Definition maxDelayIn (allNodes : list PositionedNode.t)
    (nodeDelays : gmap string Q) (group : PositionedGroup.t) : Q :=
  foldl (fun maxDelay node =>
           match nodeDelays !! PositionedNode.id node with
           | None => maxDelay
           | Some nd =>
               if inside node group && negb (Qle_bool nd maxDelay)
               then nd else maxDelay
           end)
        0 allNodes.

Fixpoint collectGroupDelay (allNodes : list PositionedNode.t)
    (nodeDelays : gmap string Q) (group : PositionedGroup.t)
    (out : gmap string Q) : gmap string Q :=
  let out' :=
    (fix forest (gs : list PositionedGroup.t) (out : gmap string Q) :=
       match gs with
       | [] => out
       | g :: gs' => forest gs' (collectGroupDelay allNodes nodeDelays g out)
       end) (PositionedGroup.children group) out in
  <[PositionedGroup.id group :=
      maxDelayIn allNodes nodeDelays group
      + duration * GROUP_REVEAL_PROGRESS
      + ResolvedAnimation.groupDelay opts]> out'.

Fixpoint collectGroupDelays (groups : list PositionedGroup.t)
    (allNodes : list PositionedNode.t) (nodeDelays : gmap string Q)
    (out : gmap string Q) : gmap string Q :=
  match groups with
  | [] => out
  | g :: gs' =>
      collectGroupDelays gs' allNodes nodeDelays
        (collectGroupDelay allNodes nodeDelays g out)
  end.

Definition computeDelays : ElementDelays.t :=
  let '(nodeDelays, edgeDelays) := rankPass sortedRanks (∅, ∅) in
  {| ElementDelays.nodes := nodeDelays;
     ElementDelays.edges := edgeDelays;
     ElementDelays.groups :=
       collectGroupDelays (PositionedGraph.groups graph)
         (PositionedGraph.nodes graph) nodeDelays ∅ |}.
End Delays.


(** ** CSS easing to SMIL [keySplines] *)

Definition NAMED_EASINGS : list (string * string) :=
  [ ("ease", "0.25 0.1 0.25 1");
    ("ease-in", "0.42 0 1 1");
    ("ease-out", "0 0 0.58 1");
    ("ease-in-out", "0.42 0 0.58 1");
    ("linear", "0 0 1 1") ].

(** [NAMED_EASINGS] is a plain object literal, so a property read also
    finds the members it inherits from [Object.prototype]; each of them is
    a function or an object, hence truthy. *)
Definition objectPrototypeKeys : list string :=
  [ "constructor"; "__proto__"; "hasOwnProperty"; "isPrototypeOf";
    "propertyIsEnumerable"; "toLocaleString"; "toString"; "valueOf";
    "__defineGetter__"; "__defineSetter__";
    "__lookupGetter__"; "__lookupSetter__" ].

(** What [cssEasingToSmil] hands back: a [keySplines] string, or the
    inherited member found under [key]. *)
Inductive SmilValue : Type :=
| KeySplines (s : string)
| Inherited (key : string).

Fixpoint assoc (key : string) (table : list (string * string)) : option string :=
  match table with
  | [] => None
  | (k, v) :: table' => if decide (k = key) then Some v else assoc key table'
  end.

(** [\s] on code units below 256: tab, line feed, vertical tab, form feed,
    carriage return, space and no-break space. *)
Definition isSpace (c : ascii) : bool :=
  let n := nat_of_ascii c in
  ((9 <=? n)%nat && (n <=? 13)%nat) || (n =? 32)%nat || (n =? 160)%nat.

(** [[\d.]] *)
Definition isDigitOrDot (c : ascii) : bool :=
  let n := nat_of_ascii c in
  ((48 <=? n)%nat && (n <=? 57)%nat) || (n =? 46)%nat.

(** [\s*]: drops the leading white space. *)
Fixpoint skipSpaces (s : string) : string :=
  match s with
  | String c s' => if isSpace c then skipSpaces s' else s
  | EmptyString => s
  end.

(** The longest prefix made of digits and dots, and what follows it. *)
Fixpoint spanNumber (s : string) : string * string :=
  match s with
  | String c s' =>
      if isDigitOrDot c
      then let '(num, rest) := spanNumber s' in (String c num, rest)
      else (EmptyString, s)
  | EmptyString => (EmptyString, s)
  end.

(** [([\d.]+)]: a capture group of at least one character. *)
Definition captureNumber (s : string) : option (string * string) :=
  match spanNumber s with
  | (EmptyString, _) => None
  | (num, rest) => Some (num, rest)
  end.

(** A literal at the head of the input. *)
Fixpoint literal (lit s : string) : option string :=
  match lit, s with
  | EmptyString, _ => Some s
  | String a lit', String b s' =>
      if decide (a = b) then literal lit' s' else None
  | String _ _, EmptyString => None
  end.

(** The pattern
    [cubic-bezier\(\s*([\d.]+)\s*,\s*([\d.]+)\s*,\s*([\d.]+)\s*,\s*([\d.]+)\s*\)]
    tried at the head of the input.  Every starred or plussed class is
    followed by a character outside that class, so the longest run is the
    only run that can lead to a match and no backtracking is needed. *)
Definition matchCubicBezierHere (s : string)
    : option (string * string * string * string) :=
  s ← literal "cubic-bezier(" s;
  '(m1, s) ← captureNumber (skipSpaces s);
  s ← literal "," (skipSpaces s);
  '(m2, s) ← captureNumber (skipSpaces s);
  s ← literal "," (skipSpaces s);
  '(m3, s) ← captureNumber (skipSpaces s);
  s ← literal "," (skipSpaces s);
  '(m4, s) ← captureNumber (skipSpaces s);
  _ ← literal ")" (skipSpaces s);
  Some (m1, m2, m3, m4).

(** [easing.match(...)]: the leftmost position at which the pattern
    matches. *)
Fixpoint matchCubicBezier (s : string)
    : option (string * string * string * string) :=
  match matchCubicBezierHere s with
  | Some m => Some m
  | None =>
      match s with
      | String _ s' => matchCubicBezier s'
      | EmptyString => None
      end
  end.

Definition cssEasingToSmil (easing : string) : SmilValue :=
  match assoc easing NAMED_EASINGS with
  | Some named => KeySplines named
  | None =>
      if bool_decide (easing ∈ objectPrototypeKeys) then Inherited easing
      else
        match matchCubicBezier easing with
        | Some (m1, m2, m3, m4) =>
            KeySplines (m1 +:+ " " +:+ m2 +:+ " " +:+ m3 +:+ " " +:+ m4)
        | None => KeySplines "0 0 0.58 1"
        end
  end.

(** ** [escapeXml] of the SVG renderer *)

(** [text.replace(/c/g, entity)] for a single character [c]. *)
Fixpoint replaceAll (c : ascii) (entity : string) (text : string) : string :=
  match text with
  | EmptyString => EmptyString
  | String a text' =>
      if decide (a = c) then entity +:+ replaceAll c entity text'
      else String a (replaceAll c entity text')
  end.

Definition ampChar : ascii := "&"%char.
Definition ltChar : ascii := "<"%char.
Definition gtChar : ascii := ">"%char.
Definition quotChar : ascii := ascii_of_nat 34.
Definition aposChar : ascii := "'"%char.

Definition escapeXml (text : string) : string :=
  replaceAll aposChar "&#39;"
    (replaceAll quotChar "&quot;"
       (replaceAll gtChar "&gt;"
          (replaceAll ltChar "&lt;"
             (replaceAll ampChar "&amp;" text)))).

(** The entity that stands for one character. *)
Definition entityOf (a : ascii) : string :=
  if decide (a = ampChar) then "&amp;"
  else if decide (a = ltChar) then "&lt;"
  else if decide (a = gtChar) then "&gt;"
  else if decide (a = quotChar) then "&quot;"
  else if decide (a = aposChar) then "&#39;"
  else String a EmptyString.

Fixpoint escapeEach (text : string) : string :=
  match text with
  | EmptyString => EmptyString
  | String a text' => entityOf a +:+ escapeEach text'
  end.

Fixpoint chars (s : string) : list ascii :=
  match s with
  | EmptyString => []
  | String a s' => a :: chars s'
  end.

(** The characters that open or close markup or an attribute value. *)
Definition markup : list ascii := [ltChar; gtChar; quotChar; aposChar].

(** ** [renderNodeLabel] of the SVG renderer *)

(** A string made of one double quote. *)
Definition dq : string := String quotChar EmptyString.

Section NodeLabel.
(** [`${n}`] for a number [n], and the constant [TEXT_BASELINE_SHIFT] of
    [styles.ts] (the file is not part of the sources at hand). *)
Variable showNumber : Q -> string.
Variable TEXT_BASELINE_SHIFT : string.

Definition renderNodeLabel (node : PositionedNode.t) (font : string)
    (fontSize fontWeight letterSpacing : Q) : string :=
  let isPseudoState :=
    match PositionedNode.shape node with
    | StateStart | StateEnd => true
    | _ => false
    end in
  if isPseudoState && bool_decide (PositionedNode.label node = EmptyString)
  then EmptyString
  else
    let cx := PositionedNode.x node + PositionedNode.width node / 2 in
    let cy := PositionedNode.y node + PositionedNode.height node / 2 in
    let textColor :=
      escapeXml
        (default "var(--_text)"
           (PositionedNode.inlineStyle node ≫= fun style => style !! "color")) in
    let lsAttr :=
      if Qeq_bool letterSpacing 0 then EmptyString
      else " letter-spacing=" +:+ dq +:+ showNumber letterSpacing +:+ dq in
    "<text x=" +:+ dq +:+ showNumber cx +:+ dq
    +:+ " y=" +:+ dq +:+ showNumber cy +:+ dq
    +:+ " text-anchor=" +:+ dq +:+ "middle" +:+ dq
    +:+ " dy=" +:+ dq +:+ TEXT_BASELINE_SHIFT +:+ dq +:+ " "
    +:+ "font-size=" +:+ dq +:+ showNumber fontSize +:+ dq
    +:+ " font-weight=" +:+ dq +:+ showNumber fontWeight +:+ dq
    +:+ lsAttr +:+ " "
    +:+ "fill=" +:+ dq +:+ textColor +:+ dq +:+ ">"
    +:+ escapeXml (PositionedNode.label node) +:+ "</text>".
End NodeLabel.

(** The markup characters of a text, in order: what delimits its tags and
    its attribute values. *)
Definition skeleton (text : string) : list ascii :=
  filter (fun c => c ∈ markup) (chars text).

(** The skeleton of a [<text ...>...</text>] element with [n] attributes. *)
Definition textElementSkeleton (n : nat) : list ascii :=
  [ltChar] ++ replicate (2 * n) quotChar ++ [gtChar; ltChar; gtChar].

(** ** [edgeMidpoint] of the SVG renderer *)

Section EdgeMidpoint.
(** [Math.sqrt], which has no exact counterpart on the rationals. *)
Variable sqrt : Q -> Q.

Definition dist (a b : Point.t) : Q :=
  sqrt ((Point.x b - Point.x a) ^ 2 + (Point.y b - Point.y a) ^ 2).

(** The first loop: [totalLength += dist(points[i - 1], points[i])]. *)
Fixpoint totalLengthLoop (prev : Point.t) (rest : list Point.t)
    (totalLength : Q) : Q :=
  match rest with
  | [] => totalLength
  | p :: rest' => totalLengthLoop p rest' (totalLength + dist prev p)
  end.

(** The second loop: [Some] point when it returns from a segment, [None]
    when it runs out of segments.  A segment of length 0 makes the code
    divide by 0 (it returns NaN coordinates); the statements below keep to
    segments of positive length. *)
Fixpoint midpointLoop (prev : Point.t) (rest : list Point.t)
    (remaining : Q) : option Point.t :=
  match rest with
  | [] => None
  | p :: rest' =>
      let segLen := dist prev p in
      if Qle_bool remaining segLen
      then
        let t := remaining / segLen in
        Some {| Point.x := Point.x prev + t * (Point.x p - Point.x prev);
                Point.y := Point.y prev + t * (Point.y p - Point.y prev) |}
      else midpointLoop p rest' (remaining - segLen)
  end.

(** After the loop: [return points[points.length - 1]]. *)
Definition edgeMidpoint (points : list Point.t) : Point.t :=
  match points with
  | [] => {| Point.x := 0; Point.y := 0 |}
  | [p] => p
  | p :: rest =>
      match midpointLoop p rest (totalLengthLoop p rest 0 / 2) with
      | Some mid => mid
      | None => List.last rest p
      end
  end.

(** The length of the polyline that starts at [prev] and runs through
    [rest]. *)
Fixpoint lengthFrom (prev : Point.t) (rest : list Point.t) : Q :=
  match rest with
  | [] => 0
  | p :: rest' => dist prev p + lengthFrom p rest'
  end.

(** No two consecutive points are at distance 0. *)
Definition segmentsPositive (points : list Point.t) : Prop :=
  ∀ i a b, points !! i = Some a → points !! S i = Some b → 0 < dist a b.
End EdgeMidpoint.

(** The point at the fraction [t] of the way from [a] to [b]. *)
Definition pointBetween (a b : Point.t) (t : Q) : Point.t :=
  {| Point.x := Point.x a + t * (Point.x b - Point.x a);
     Point.y := Point.y a + t * (Point.y b - Point.y a) |}.

(** The square root of a perfect square, and of any other number the root
    of the largest square below it. *)
Definition sqrtFloor (q : Q) : Q := inject_Z (Z.sqrt (Qfloor q)).

(** ** [renderGroupLabels] of the SVG renderer *)

(** [parts.join(sep)] *)
Fixpoint join (sep : string) (parts : list string) : string :=
  match parts with
  | [] => EmptyString
  | [part] => part
  | part :: parts' => part +:+ sep +:+ join sep parts'
  end.

Definition newline : string := String "010"%char EmptyString.

Section GroupLabels.
(** [`${n}`] for a number [n]; [TEXT_BASELINE_SHIFT] and
    [estimateTextWidth] of [styles.ts] (the file is not part of the sources
    at hand). *)
Variable showNumber : Q -> string.
Variable TEXT_BASELINE_SHIFT : string.
Variable estimateTextWidth : string -> Q -> Q -> Q.

Definition renderGroupLabelsInner (group : PositionedGroup.t) (font : string)
    (groupFontSize groupFontWeight : Q)
    (groupFont groupTextTransform : string) : string :=
  let headerHeight := groupFontSize + 32 in
  let ttStyle :=
    if bool_decide (groupTextTransform = EmptyString) then EmptyString
    else "text-transform:" +:+ groupTextTransform +:+ ";" in
  let label := escapeXml (PositionedGroup.label group) in
  let labelWidth :=
    estimateTextWidth label groupFontSize groupFontWeight
    * (if bool_decide (groupTextTransform = "uppercase") then 1.15 else 1) in
  let bgPadX := 8 in
  let bgPadY := 4 in
  let bgX := PositionedGroup.x group + 16 - bgPadX in
  let bgY :=
    PositionedGroup.y group + headerHeight / 2 - groupFontSize / 2 - bgPadY in
  let bgW := labelWidth + bgPadX * 2 in
  let bgH := groupFontSize + bgPadY * 2 in
  "<rect x=" +:+ dq +:+ showNumber bgX +:+ dq
  +:+ " y=" +:+ dq +:+ showNumber bgY +:+ dq
  +:+ " width=" +:+ dq +:+ showNumber bgW +:+ dq
  +:+ " height=" +:+ dq +:+ showNumber bgH +:+ dq
  +:+ " fill=" +:+ dq +:+ "var(--bg)" +:+ dq
  +:+ " rx=" +:+ dq +:+ "2" +:+ dq +:+ " ry=" +:+ dq +:+ "2" +:+ dq +:+ " />"
  +:+ newline +:+ "<text x=" +:+ dq
  +:+ showNumber (PositionedGroup.x group + 16) +:+ dq
  +:+ " y=" +:+ dq
  +:+ showNumber (PositionedGroup.y group + headerHeight / 2) +:+ dq +:+ " "
  +:+ "dy=" +:+ dq +:+ TEXT_BASELINE_SHIFT +:+ dq +:+ " "
  +:+ "style=" +:+ dq +:+ "font-family:'" +:+ groupFont
  +:+ "',system-ui,sans-serif;font-size:" +:+ showNumber groupFontSize
  +:+ "px;font-weight:" +:+ showNumber groupFontWeight +:+ ";"
  +:+ ttStyle +:+ dq +:+ " "
  +:+ "fill=" +:+ dq +:+ "rgba(255,255,255,0.92)" +:+ dq +:+ ">"
  +:+ label +:+ "</text>".

Fixpoint renderGroupLabels (group : PositionedGroup.t) (font : string)
    (groupFontSize groupFontWeight : Q)
    (groupFont groupTextTransform : string) : string :=
  join newline
    (renderGroupLabelsInner group font groupFontSize groupFontWeight
       groupFont groupTextTransform
     :: (fix children (gs : list PositionedGroup.t) : list string :=
           match gs with
           | [] => []
           | child :: gs' =>
               renderGroupLabels child font groupFontSize groupFontWeight
                 groupFont groupTextTransform
               :: children gs'
           end) (PositionedGroup.children group)).
End GroupLabels.

(** The markup characters of one group header: a [<rect ... />] with seven
    attributes, then a [<text ...>...</text>] with five, the [style] one
    holding the quoted font name. *)
Definition groupLabelSkeleton : list ascii :=
  [ltChar] ++ replicate 14 quotChar ++ [gtChar; ltChar]
  ++ replicate 6 quotChar ++ [quotChar; aposChar; aposChar; quotChar]
  ++ replicate 2 quotChar ++ [gtChar; ltChar; gtChar].

(** ** [renderEdgeLabel] of the SVG renderer *)

Section EdgeLabel.
(** [Math.sqrt]; [`${n}`] for a number [n]; [TEXT_BASELINE_SHIFT],
    [estimateMonoTextWidth] and [FONT_WEIGHTS.edgeLabel] of [styles.ts]. *)
Variable sqrt : Q -> Q.
Variable showNumber : Q -> string.
Variable TEXT_BASELINE_SHIFT : string.
Variable estimateMonoTextWidth : string -> Q -> Q.
Variable FONT_WEIGHTS_edgeLabel : Q.

(** [edge.label!] only silences the type checker: on an edge without a
    label [escapeXml(undefined)] throws, which is [None] here.  [renderSvg]
    calls the function for the edges that have a label. *)
Definition renderEdgeLabel (edge : PositionedEdge.t) (font : string)
    (edgeFontSize lineWidth : Q) : option string :=
  let mid :=
    default (edgeMidpoint sqrt (PositionedEdge.points edge))
      (PositionedEdge.labelPosition edge) in
  label ← PositionedEdge.label edge;
  let textWidth := estimateMonoTextWidth label edgeFontSize in
  let paddingX := 12 in
  let paddingY := 8 in
  let bgWidth := textWidth + paddingX * 2 in
  let bgHeight := edgeFontSize + paddingY * 2 in
  let pillRadius := bgHeight / 2 in
  Some
    ("<rect x=" +:+ dq +:+ showNumber (Point.x mid - bgWidth / 2) +:+ dq
     +:+ " y=" +:+ dq +:+ showNumber (Point.y mid - bgHeight / 2) +:+ dq
     +:+ " " +:+ "width=" +:+ dq +:+ showNumber bgWidth +:+ dq +:+ " height="
     +:+ dq +:+ showNumber bgHeight +:+ dq +:+ " rx=" +:+ dq
     +:+ showNumber pillRadius +:+ dq +:+ " ry=" +:+ dq
     +:+ showNumber pillRadius +:+ dq +:+ " " +:+ "fill=" +:+ dq
     +:+ "var(--bg)" +:+ dq +:+ " stroke=" +:+ dq +:+ "var(--_line)" +:+ dq
     +:+ " stroke-width=" +:+ dq +:+ showNumber lineWidth +:+ dq +:+ " />"
     +:+ newline +:+ "<text class=" +:+ dq +:+ "mono" +:+ dq +:+ " x=" +:+ dq
     +:+ showNumber (Point.x mid) +:+ dq +:+ " y=" +:+ dq
     +:+ showNumber (Point.y mid) +:+ dq +:+ " text-anchor=" +:+ dq
     +:+ "middle" +:+ dq +:+ " dy=" +:+ dq +:+ TEXT_BASELINE_SHIFT +:+ dq
     +:+ " " +:+ "font-size=" +:+ dq +:+ showNumber edgeFontSize +:+ dq
     +:+ " font-weight=" +:+ dq +:+ showNumber FONT_WEIGHTS_edgeLabel +:+ dq
     +:+ " " +:+ "fill=" +:+ dq +:+ "var(--_text)" +:+ dq +:+ ">"
     +:+ escapeXml label +:+ "</text>").
End EdgeLabel.

(** ** [renderNodeShape] of the SVG renderer *)

Section NodeShapes.
(** [`${n}`] for a number [n], and [STROKE_WIDTHS.innerBox] of
    [styles.ts]. *)
Variable showNumber : Q -> string.
Variable STROKE_WIDTHS_innerBox : Q.

Definition renderRect (x y w h : Q) (fill stroke sw : string) (cr : Q) : string :=
  "<rect x=" +:+ dq +:+ showNumber x +:+ dq +:+ " y=" +:+ dq +:+ showNumber y
  +:+ dq +:+ " width=" +:+ dq +:+ showNumber w +:+ dq +:+ " height=" +:+ dq
  +:+ showNumber h +:+ dq +:+ " rx=" +:+ dq +:+ showNumber cr +:+ dq
  +:+ " ry=" +:+ dq +:+ showNumber cr +:+ dq +:+ " fill=" +:+ dq +:+ fill
  +:+ dq +:+ " stroke=" +:+ dq +:+ stroke +:+ dq +:+ " stroke-width=" +:+ dq
  +:+ sw +:+ dq +:+ " />".

Definition renderRoundedRect (x y w h : Q) (fill stroke sw : string) : string :=
  "<rect x=" +:+ dq +:+ showNumber x +:+ dq +:+ " y=" +:+ dq +:+ showNumber y
  +:+ dq +:+ " width=" +:+ dq +:+ showNumber w +:+ dq +:+ " height=" +:+ dq
  +:+ showNumber h +:+ dq +:+ " rx=" +:+ dq +:+ "6" +:+ dq +:+ " ry=" +:+ dq
  +:+ "6" +:+ dq +:+ " fill=" +:+ dq +:+ fill +:+ dq +:+ " stroke=" +:+ dq
  +:+ stroke +:+ dq +:+ " stroke-width=" +:+ dq +:+ sw +:+ dq +:+ " />".

Definition renderStadium (x y w h : Q) (fill stroke sw : string) : string :=
  let r := h / 2 in
  "<rect x=" +:+ dq +:+ showNumber x +:+ dq +:+ " y=" +:+ dq +:+ showNumber y
  +:+ dq +:+ " width=" +:+ dq +:+ showNumber w +:+ dq +:+ " height=" +:+ dq
  +:+ showNumber h +:+ dq +:+ " rx=" +:+ dq +:+ showNumber r +:+ dq
  +:+ " ry=" +:+ dq +:+ showNumber r +:+ dq +:+ " fill=" +:+ dq +:+ fill
  +:+ dq +:+ " stroke=" +:+ dq +:+ stroke +:+ dq +:+ " stroke-width=" +:+ dq
  +:+ sw +:+ dq +:+ " />".

Definition renderCircle (x y w h : Q) (fill stroke sw : string) : string :=
  let cx := x + w / 2 in
  let cy := y + h / 2 in
  let r := Qmin w h / 2 in
  "<circle cx=" +:+ dq +:+ showNumber cx +:+ dq +:+ " cy=" +:+ dq
  +:+ showNumber cy +:+ dq +:+ " r=" +:+ dq +:+ showNumber r +:+ dq
  +:+ " fill=" +:+ dq +:+ fill +:+ dq +:+ " stroke=" +:+ dq +:+ stroke +:+ dq
  +:+ " stroke-width=" +:+ dq +:+ sw +:+ dq +:+ " />".

Definition renderDiamond (x y w h : Q) (fill stroke sw : string) : string :=
  let cx := x + w / 2 in
  let cy := y + h / 2 in
  let hw := w / 2 in
  let hh := h / 2 in
  let points :=
    showNumber cx +:+ "," +:+ showNumber (cy - hh) +:+ " "
    +:+ showNumber (cx + hw) +:+ "," +:+ showNumber cy +:+ " "
    +:+ showNumber cx +:+ "," +:+ showNumber (cy + hh) +:+ " "
    +:+ showNumber (cx - hw) +:+ "," +:+ showNumber cy in
  "<polygon points=" +:+ dq +:+ points +:+ dq +:+ " fill=" +:+ dq +:+ fill
  +:+ dq +:+ " stroke=" +:+ dq +:+ stroke +:+ dq +:+ " stroke-width=" +:+ dq
  +:+ sw +:+ dq +:+ " />".

Definition renderSubroutine (x y w h : Q) (fill stroke sw : string) : string :=
  let inset := 8 in
  "<rect x=" +:+ dq +:+ showNumber x +:+ dq +:+ " y=" +:+ dq +:+ showNumber y
  +:+ dq +:+ " width=" +:+ dq +:+ showNumber w +:+ dq +:+ " height=" +:+ dq
  +:+ showNumber h +:+ dq +:+ " rx=" +:+ dq +:+ "0" +:+ dq +:+ " ry=" +:+ dq
  +:+ "0" +:+ dq +:+ " fill=" +:+ dq +:+ fill +:+ dq +:+ " stroke=" +:+ dq
  +:+ stroke +:+ dq +:+ " stroke-width=" +:+ dq +:+ sw +:+ dq +:+ " />"
  +:+ newline +:+ "<line x1=" +:+ dq +:+ showNumber (x + inset) +:+ dq
  +:+ " y1=" +:+ dq +:+ showNumber y +:+ dq +:+ " x2=" +:+ dq
  +:+ showNumber (x + inset) +:+ dq +:+ " y2=" +:+ dq +:+ showNumber (y + h)
  +:+ dq +:+ " stroke=" +:+ dq +:+ stroke +:+ dq +:+ " stroke-width=" +:+ dq
  +:+ sw +:+ dq +:+ " />" +:+ newline +:+ "<line x1=" +:+ dq
  +:+ showNumber (x + w - inset) +:+ dq +:+ " y1=" +:+ dq +:+ showNumber y
  +:+ dq +:+ " x2=" +:+ dq +:+ showNumber (x + w - inset) +:+ dq +:+ " y2="
  +:+ dq +:+ showNumber (y + h) +:+ dq +:+ " stroke=" +:+ dq +:+ stroke
  +:+ dq +:+ " stroke-width=" +:+ dq +:+ sw +:+ dq +:+ " />".

Definition renderDoubleCircle (x y w h : Q) (fill stroke sw : string) : string :=
  let cx := x + w / 2 in
  let cy := y + h / 2 in
  let outerR := Qmin w h / 2 in
  let innerR := outerR - 5 in
  "<circle cx=" +:+ dq +:+ showNumber cx +:+ dq +:+ " cy=" +:+ dq
  +:+ showNumber cy +:+ dq +:+ " r=" +:+ dq +:+ showNumber outerR +:+ dq
  +:+ " fill=" +:+ dq +:+ fill +:+ dq +:+ " stroke=" +:+ dq +:+ stroke +:+ dq
  +:+ " stroke-width=" +:+ dq +:+ sw +:+ dq +:+ " />" +:+ newline
  +:+ "<circle cx=" +:+ dq +:+ showNumber cx +:+ dq +:+ " cy=" +:+ dq
  +:+ showNumber cy +:+ dq +:+ " r=" +:+ dq +:+ showNumber innerR +:+ dq
  +:+ " fill=" +:+ dq +:+ fill +:+ dq +:+ " stroke=" +:+ dq +:+ stroke +:+ dq
  +:+ " stroke-width=" +:+ dq +:+ sw +:+ dq +:+ " />".

Definition renderHexagon (x y w h : Q) (fill stroke sw : string) : string :=
  let inset := h / 4 in
  let points :=
    showNumber (x + inset) +:+ "," +:+ showNumber y +:+ " "
    +:+ showNumber (x + w - inset) +:+ "," +:+ showNumber y +:+ " "
    +:+ showNumber (x + w) +:+ "," +:+ showNumber (y + h / 2) +:+ " "
    +:+ showNumber (x + w - inset) +:+ "," +:+ showNumber (y + h) +:+ " "
    +:+ showNumber (x + inset) +:+ "," +:+ showNumber (y + h) +:+ " "
    +:+ showNumber x +:+ "," +:+ showNumber (y + h / 2) in
  "<polygon points=" +:+ dq +:+ points +:+ dq +:+ " fill=" +:+ dq +:+ fill
  +:+ dq +:+ " stroke=" +:+ dq +:+ stroke +:+ dq +:+ " stroke-width=" +:+ dq
  +:+ sw +:+ dq +:+ " />".

Definition renderCylinder (x y w h : Q) (fill stroke sw : string) : string :=
  let ry := 7 in
  let cx := x + w / 2 in
  let bodyTop := y + ry in
  let bodyH := h - 2 * ry in
  "<rect x=" +:+ dq +:+ showNumber x +:+ dq +:+ " y=" +:+ dq
  +:+ showNumber bodyTop +:+ dq +:+ " width=" +:+ dq +:+ showNumber w +:+ dq
  +:+ " height=" +:+ dq +:+ showNumber bodyH +:+ dq +:+ " fill=" +:+ dq
  +:+ fill +:+ dq +:+ " stroke=" +:+ dq +:+ "none" +:+ dq +:+ " />"
  +:+ newline +:+ "<line x1=" +:+ dq +:+ showNumber x +:+ dq +:+ " y1="
  +:+ dq +:+ showNumber bodyTop +:+ dq +:+ " x2=" +:+ dq +:+ showNumber x
  +:+ dq +:+ " y2=" +:+ dq +:+ showNumber (bodyTop + bodyH) +:+ dq
  +:+ " stroke=" +:+ dq +:+ stroke +:+ dq +:+ " stroke-width=" +:+ dq +:+ sw
  +:+ dq +:+ " />" +:+ newline +:+ "<line x1=" +:+ dq +:+ showNumber (x + w)
  +:+ dq +:+ " y1=" +:+ dq +:+ showNumber bodyTop +:+ dq +:+ " x2=" +:+ dq
  +:+ showNumber (x + w) +:+ dq +:+ " y2=" +:+ dq
  +:+ showNumber (bodyTop + bodyH) +:+ dq +:+ " stroke=" +:+ dq +:+ stroke
  +:+ dq +:+ " stroke-width=" +:+ dq +:+ sw +:+ dq +:+ " />" +:+ newline
  +:+ "<ellipse cx=" +:+ dq +:+ showNumber cx +:+ dq +:+ " cy=" +:+ dq
  +:+ showNumber (y + h - ry) +:+ dq +:+ " rx=" +:+ dq +:+ showNumber (w / 2)
  +:+ dq +:+ " ry=" +:+ dq +:+ showNumber ry +:+ dq +:+ " fill=" +:+ dq
  +:+ fill +:+ dq +:+ " stroke=" +:+ dq +:+ stroke +:+ dq
  +:+ " stroke-width=" +:+ dq +:+ sw +:+ dq +:+ " />" +:+ newline
  +:+ "<ellipse cx=" +:+ dq +:+ showNumber cx +:+ dq +:+ " cy=" +:+ dq
  +:+ showNumber bodyTop +:+ dq +:+ " rx=" +:+ dq +:+ showNumber (w / 2)
  +:+ dq +:+ " ry=" +:+ dq +:+ showNumber ry +:+ dq +:+ " fill=" +:+ dq
  +:+ fill +:+ dq +:+ " stroke=" +:+ dq +:+ stroke +:+ dq
  +:+ " stroke-width=" +:+ dq +:+ sw +:+ dq +:+ " />".

Definition renderAsymmetric (x y w h : Q) (fill stroke sw : string) : string :=
  let indent := 12 in
  let points :=
    showNumber (x + indent) +:+ "," +:+ showNumber y +:+ " "
    +:+ showNumber (x + w) +:+ "," +:+ showNumber y +:+ " "
    +:+ showNumber (x + w) +:+ "," +:+ showNumber (y + h) +:+ " "
    +:+ showNumber (x + indent) +:+ "," +:+ showNumber (y + h) +:+ " "
    +:+ showNumber x +:+ "," +:+ showNumber (y + h / 2) in
  "<polygon points=" +:+ dq +:+ points +:+ dq +:+ " fill=" +:+ dq +:+ fill
  +:+ dq +:+ " stroke=" +:+ dq +:+ stroke +:+ dq +:+ " stroke-width=" +:+ dq
  +:+ sw +:+ dq +:+ " />".

Definition renderTrapezoid (x y w h : Q) (fill stroke sw : string) : string :=
  let inset := w * 0.15 in
  let points :=
    showNumber (x + inset) +:+ "," +:+ showNumber y +:+ " "
    +:+ showNumber (x + w - inset) +:+ "," +:+ showNumber y +:+ " "
    +:+ showNumber (x + w) +:+ "," +:+ showNumber (y + h) +:+ " "
    +:+ showNumber x +:+ "," +:+ showNumber (y + h) in
  "<polygon points=" +:+ dq +:+ points +:+ dq +:+ " fill=" +:+ dq +:+ fill
  +:+ dq +:+ " stroke=" +:+ dq +:+ stroke +:+ dq +:+ " stroke-width=" +:+ dq
  +:+ sw +:+ dq +:+ " />".

Definition renderTrapezoidAlt (x y w h : Q) (fill stroke sw : string) : string :=
  let inset := w * 0.15 in
  let points :=
    showNumber x +:+ "," +:+ showNumber y +:+ " " +:+ showNumber (x + w)
    +:+ "," +:+ showNumber y +:+ " " +:+ showNumber (x + w - inset) +:+ ","
    +:+ showNumber (y + h) +:+ " " +:+ showNumber (x + inset) +:+ ","
    +:+ showNumber (y + h) in
  "<polygon points=" +:+ dq +:+ points +:+ dq +:+ " fill=" +:+ dq +:+ fill
  +:+ dq +:+ " stroke=" +:+ dq +:+ stroke +:+ dq +:+ " stroke-width=" +:+ dq
  +:+ sw +:+ dq +:+ " />".

Definition renderStateStart (x y w h : Q) : string :=
  let cx := x + w / 2 in
  let cy := y + h / 2 in
  let r := Qmin w h / 2 - 2 in
  "<circle cx=" +:+ dq +:+ showNumber cx +:+ dq +:+ " cy=" +:+ dq
  +:+ showNumber cy +:+ dq +:+ " r=" +:+ dq +:+ showNumber r +:+ dq
  +:+ " fill=" +:+ dq +:+ "var(--_text)" +:+ dq +:+ " stroke=" +:+ dq
  +:+ "none" +:+ dq +:+ " />".

Definition renderStateEnd (x y w h : Q) : string :=
  let cx := x + w / 2 in
  let cy := y + h / 2 in
  let outerR := Qmin w h / 2 - 2 in
  let innerR := outerR - 4 in
  "<circle cx=" +:+ dq +:+ showNumber cx +:+ dq +:+ " cy=" +:+ dq
  +:+ showNumber cy +:+ dq +:+ " r=" +:+ dq +:+ showNumber outerR +:+ dq
  +:+ " fill=" +:+ dq +:+ "none" +:+ dq +:+ " stroke=" +:+ dq
  +:+ "var(--_text)" +:+ dq +:+ " stroke-width=" +:+ dq
  +:+ showNumber (STROKE_WIDTHS_innerBox * 2) +:+ dq +:+ " />" +:+ newline
  +:+ "<circle cx=" +:+ dq +:+ showNumber cx +:+ dq +:+ " cy=" +:+ dq
  +:+ showNumber cy +:+ dq +:+ " r=" +:+ dq +:+ showNumber innerR +:+ dq
  +:+ " fill=" +:+ dq +:+ "var(--_text)" +:+ dq +:+ " stroke=" +:+ dq
  +:+ "none" +:+ dq +:+ " />".

(** [inlineStyle?.[key] ?? fallback] *)
Definition styleOr (node : PositionedNode.t) (key fallback : string)
    : string :=
  default fallback (PositionedNode.inlineStyle node ≫= fun style => style !! key).

Definition renderNodeShape (node : PositionedNode.t) (cr : Q) : string :=
  let x := PositionedNode.x node in
  let y := PositionedNode.y node in
  let width := PositionedNode.width node in
  let height := PositionedNode.height node in
  let fill := escapeXml (styleOr node "fill" "var(--_node-fill)") in
  let stroke := escapeXml (styleOr node "stroke" "var(--_node-stroke)") in
  let sw :=
    escapeXml
      (styleOr node "stroke-width" (showNumber STROKE_WIDTHS_innerBox)) in
  match PositionedNode.shape node with
  | Diamond => renderDiamond x y width height fill stroke sw
  | Rounded => renderRoundedRect x y width height fill stroke sw
  | Stadium => renderStadium x y width height fill stroke sw
  | Circle => renderCircle x y width height fill stroke sw
  | Subroutine => renderSubroutine x y width height fill stroke sw
  | Doublecircle => renderDoubleCircle x y width height fill stroke sw
  | Hexagon => renderHexagon x y width height fill stroke sw
  | Cylinder => renderCylinder x y width height fill stroke sw
  | Asymmetric => renderAsymmetric x y width height fill stroke sw
  | Trapezoid => renderTrapezoid x y width height fill stroke sw
  | TrapezoidAlt => renderTrapezoidAlt x y width height fill stroke sw
  | StateStart => renderStateStart x y width height
  | StateEnd => renderStateEnd x y width height
  | Rectangle => renderRect x y width height fill stroke sw cr
  end.
End NodeShapes.

(** The markup characters of a [<tag ... />] element with [n]
    attributes. *)
Definition elementSkeleton (n : nat) : list ascii :=
  [ltChar] ++ replicate (2 * n) quotChar ++ [gtChar].

(** The markup characters of an edge label: the pill, a [<rect ... />] with
    nine attributes, then a [<text ...>...</text>] with eight. *)
Definition edgeLabelSkeleton : list ascii :=
  elementSkeleton 9 ++ textElementSkeleton 8.

(** The markup characters of each shape: the elements it is drawn with and
    the number of attributes of each. *)
Definition shapeSkeleton (shape : NodeShape) : list ascii :=
  match shape with
  | Rectangle | Rounded | Stadium => elementSkeleton 9
  | Circle => elementSkeleton 6
  | Diamond | Hexagon | Asymmetric | Trapezoid | TrapezoidAlt =>
      elementSkeleton 4
  | Subroutine => elementSkeleton 9 ++ elementSkeleton 6 ++ elementSkeleton 6
  | Doublecircle => elementSkeleton 6 ++ elementSkeleton 6
  | Cylinder =>
      elementSkeleton 6 ++ elementSkeleton 6 ++ elementSkeleton 6
      ++ elementSkeleton 7 ++ elementSkeleton 7
  | StateStart => elementSkeleton 5
  | StateEnd => elementSkeleton 6 ++ elementSkeleton 5
  end.

(** ** Vocabulary of the statements *)

(** A start or end pseudo-state without a label: the one kind of node for
    which [renderNodeLabel] returns the empty string. *)
Definition isBareState (node : PositionedNode.t) : bool :=
  match PositionedNode.shape node with
  | StateStart | StateEnd =>
      bool_decide (PositionedNode.label node = EmptyString)
  | _ => false
  end.

#[local] Instance Qeq_decision (a b : Q) : Decision (a == b) := Qeq_dec a b.

(** The indices, counted from [i], of the edges of [es] that end in
    [nodeId]. *)
Fixpoint edgesInto (nodeId : string) (i : nat) (es : list PositionedEdge.t)
    : list nat :=
  match es with
  | [] => []
  | e :: es' =>
      if decide (PositionedEdge.target e = nodeId)
      then i :: edgesInto nodeId (S i) es'
      else edgesInto nodeId (S i) es'
  end.

(** The nodes of [graph] whose rank (0 when absent) is [rank], in the order
    of [graph.nodes]. *)
Definition rankNodes (graph : PositionedGraph.t) (rank : Z)
    : list PositionedNode.t :=
  filter (fun node => nodeRank node = rank) (PositionedGraph.nodes graph).

(** One iteration of the innermost cascade loop: the rank, the index in the
    bucket and the node. *)
Definition Visit : Type := (Z * nat * PositionedNode.t)%type.

Definition bucketVisits (rank : Z) (i : nat) (bucket : list PositionedNode.t)
    : list Visit :=
  imap (fun j node => (rank, (i + j)%nat, node)) bucket.

(** The iterations of the cascade, in the order in which they run. *)
Definition visits (graph : PositionedGraph.t) : list Visit :=
  sortedRanks graph ≫= fun rank =>
    bucketVisits rank 0 (default [] (rankBuckets graph !! rank)).

Definition visit (graph : PositionedGraph.t) (opts : ResolvedAnimation.t)
    (st : Cascade) (v : Visit) : Cascade :=
  processNode graph opts v.1.1 v.1.2 v.2 st.

(** [node] sits at index [i] of the sorted bucket of [rank]. *)
Definition slot (graph : PositionedGraph.t) (rank : Z) (i : nat)
    (node : PositionedNode.t) : Prop :=
  ∃ bucket, rankBuckets graph !! rank = Some bucket ∧ bucket !! i = Some node.

(** The slot [(r1, i1)] is visited before the slot [(r2, i2)]. *)
Definition earlier (r1 : Z) (i1 : nat) (r2 : Z) (i2 : nat) : Prop :=
  (r1 < r2)%Z ∨ (r1 = r2 ∧ (i1 < i2)%nat).

Definition visitEarlier (v w : Visit) : Prop :=
  earlier v.1.1 v.1.2 w.1.1 w.1.2.

(** The state of the cascade once every iteration has run. *)
Definition cascade (graph : PositionedGraph.t) (opts : ResolvedAnimation.t)
    : Cascade :=
  foldl (visit graph opts) (∅, ∅) (visits graph).

(** Every edge whose source has a delay starts one duration after it. *)
Definition edgesFollowSources (graph : PositionedGraph.t)
    (opts : ResolvedAnimation.t) (st : Cascade) : Prop :=
  ∀ ei e d,
    PositionedGraph.edges graph !! ei = Some e →
    st.1 !! PositionedEdge.source e = Some d →
    st.2 !! ei = Some (d + ResolvedAnimation.duration opts).

(** [ei] is the index of an edge of [graph] that ends in [node]. *)
Definition incomingEdge (graph : PositionedGraph.t) (node : PositionedNode.t)
    (ei : nat) : Prop :=
  ∃ e, PositionedGraph.edges graph !! ei = Some e
       ∧ PositionedEdge.target e = PositionedNode.id node.

(** The order within the ranks, as the specification words it: the bucket
    of every rank is ordered by [position], the coordinate of a node on the
    axis along which the ranks advance ([y] in a top-down layout, [x] in a
    left-to-right one). *)
Definition orderedWithinRanksBy (position : PositionedNode.t -> Q)
    (graph : PositionedGraph.t) : Prop :=
  ∀ r bucket,
    rankBuckets graph !! r = Some bucket →
    Sorted (fun a b => position a <= position b) bucket.

(** The cascade rule for a node with incoming edges, as the specification
    words it: the delay of the node is the largest [delay(edge) + duration]
    over its incoming edges, taken from the schedule, less the overlap, plus
    the within-rank stagger; hence it is at least
    [delay(edge) + duration * (1 - nodeOverlap)] for each of them. *)
Definition waitsForLatestIncomingEdge (graph : PositionedGraph.t)
    (opts : ResolvedAnimation.t) : Prop :=
  ∀ r i n,
    slot graph r i n → (∃ ei, incomingEdge graph n ei) →
    ∃ latest dN,
      ElementDelays.nodes (computeDelays graph opts) !! PositionedNode.id n
      = Some dN
      ∧ (∀ ei, incomingEdge graph n ei →
           ∃ dE, ElementDelays.edges (computeDelays graph opts) !! ei = Some dE
                 ∧ dE + ResolvedAnimation.duration opts <= latest)
      ∧ (∃ ei dE, incomingEdge graph n ei
           ∧ ElementDelays.edges (computeDelays graph opts) !! ei = Some dE
           ∧ latest == dE + ResolvedAnimation.duration opts)
      ∧ dN == latest
              - ResolvedAnimation.duration opts * ResolvedAnimation.nodeOverlap opts
              + inject_Z (Z.of_nat i) * (ResolvedAnimation.stagger opts * 0.5)
      ∧ (∀ ei dE, incomingEdge graph n ei →
           ElementDelays.edges (computeDelays graph opts) !! ei = Some dE →
           dE + ResolvedAnimation.duration opts
                * (1 - ResolvedAnimation.nodeOverlap opts) <= dN).

(** Every group of a forest, children before their parent, as
    [collectGroupDelays] meets them. *)
Fixpoint groupAndBelow (group : PositionedGroup.t) : list PositionedGroup.t :=
  (fix forest (gs : list PositionedGroup.t) : list PositionedGroup.t :=
     match gs with
     | [] => []
     | g :: gs' => groupAndBelow g ++ forest gs'
     end) (PositionedGroup.children group) ++ [group].

Definition allGroups (groups : list PositionedGroup.t) : list PositionedGroup.t :=
  groups ≫= groupAndBelow.

(** The delay that [collectGroupDelays] stores for [group]. *)
Definition revealDelay (opts : ResolvedAnimation.t)
    (allNodes : list PositionedNode.t) (nodeDelays : gmap string Q)
    (group : PositionedGroup.t) : Q :=
  maxDelayIn allNodes nodeDelays group
  + ResolvedAnimation.duration opts * GROUP_REVEAL_PROGRESS
  + ResolvedAnimation.groupDelay opts.

Definition groupIds (graph : PositionedGraph.t) : list string :=
  PositionedGroup.id <$> allGroups (PositionedGraph.groups graph).

(** The containment-timing rule as the specification words it: a group is
    revealed no earlier than any node that lies inside it. *)
Definition groupsRevealAfterTheirNodes (graph : PositionedGraph.t)
    (opts : ResolvedAnimation.t) : Prop :=
  ∀ group n nd dG,
    group ∈ allGroups (PositionedGraph.groups graph) →
    n ∈ PositionedGraph.nodes graph →
    inside n group = true →
    ElementDelays.nodes (computeDelays graph opts) !! PositionedNode.id n
    = Some nd →
    ElementDelays.groups (computeDelays graph opts) !! PositionedGroup.id group
    = Some dG →
    nd <= dG.

(** No delay of a schedule is negative. *)
Definition allDelaysNonNegative (s : ElementDelays.t) : Prop :=
  (∀ k d, ElementDelays.nodes s !! k = Some d → 0 <= d)
  ∧ (∀ ei d, ElementDelays.edges s !! ei = Some d → 0 <= d)
  ∧ (∀ k d, ElementDelays.groups s !! k = Some d → 0 <= d).

(** The ranges of the numeric options: a duration is not negative and
    [nodeOverlap] is a fraction between 0 and 1. *)
Definition inRange (r : ResolvedAnimation.t) : Prop :=
  0 <= ResolvedAnimation.duration r
  ∧ 0 <= ResolvedAnimation.nodeOverlap r
  ∧ ResolvedAnimation.nodeOverlap r <= 1.

(** The same node with an absent rank written out as [0]. *)
Definition withRank0 (node : PositionedNode.t) : PositionedNode.t :=
  {| PositionedNode.id := PositionedNode.id node;
     PositionedNode.label := PositionedNode.label node;
     PositionedNode.shape := PositionedNode.shape node;
     PositionedNode.x := PositionedNode.x node;
     PositionedNode.y := PositionedNode.y node;
     PositionedNode.width := PositionedNode.width node;
     PositionedNode.height := PositionedNode.height node;
     PositionedNode.inlineStyle := PositionedNode.inlineStyle node;
     PositionedNode.rank := Some (nodeRank node) |}.

Definition withRanks0 (graph : PositionedGraph.t) : PositionedGraph.t :=
  {| PositionedGraph.nodes := withRank0 <$> PositionedGraph.nodes graph;
     PositionedGraph.edges := PositionedGraph.edges graph;
     PositionedGraph.groups := PositionedGraph.groups graph |}.

Definition nodeIds (graph : PositionedGraph.t) : list string :=
  PositionedNode.id <$> PositionedGraph.nodes graph.

(** ** Sample layouts and configurations *)

Definition box (id : string) (x y : Q) (rank : option Z) : PositionedNode.t :=
  {| PositionedNode.id := id; PositionedNode.label := id;
     PositionedNode.shape := Rectangle;
     PositionedNode.x := x; PositionedNode.y := y;
     PositionedNode.width := 100; PositionedNode.height := 40;
     PositionedNode.inlineStyle := None;
     PositionedNode.rank := rank |}.

Definition arrow (source target : string) : PositionedEdge.t :=
  {| PositionedEdge.source := source; PositionedEdge.target := target;
     PositionedEdge.label := None;
     PositionedEdge.points := [];
     PositionedEdge.labelPosition := None |}.

Definition frame (id : string) (x y width height : Q)
    (children : list PositionedGroup.t) : PositionedGroup.t :=
  {| PositionedGroup.id := id; PositionedGroup.label := id;
     PositionedGroup.x := x; PositionedGroup.y := y;
     PositionedGroup.width := width; PositionedGroup.height := height;
     PositionedGroup.children := children |}.

(** [A --> B --> C], top-down, with [A] and [B] inside the group [G];
    the rank of [A] is left out. *)
Definition chainGraph : PositionedGraph.t :=
  {| PositionedGraph.nodes :=
       [box "A" 20 20 None; box "B" 20 100 (Some 1%Z); box "C" 20 200 (Some 2%Z)];
     PositionedGraph.edges := [arrow "A" "B"; arrow "B" "C"];
     PositionedGraph.groups := [frame "G" 0 0 140 160 []] |}.

(** [A --> C] and [B --> C], with [B] to the left of [A] in rank 0. *)
Definition forkGraph : PositionedGraph.t :=
  {| PositionedGraph.nodes :=
       [box "A" 200 20 (Some 0%Z); box "B" 20 20 (Some 0%Z);
        box "C" 110 100 (Some 1%Z)];
     PositionedGraph.edges := [arrow "A" "C"; arrow "B" "C"];
     PositionedGraph.groups := [] |}.

(** A top-down layout: the ranks advance along [y].  [R] and [L] are the
    two nodes of rank 0, centred on the line [y = 50]; [R], the taller one,
    starts higher up and stands to the right of [L]. *)
Definition tall (id : string) (x y height : Q) (rank : option Z)
    : PositionedNode.t :=
  {| PositionedNode.id := id; PositionedNode.label := id;
     PositionedNode.shape := Rectangle;
     PositionedNode.x := x; PositionedNode.y := y;
     PositionedNode.width := 100; PositionedNode.height := height;
     PositionedNode.inlineStyle := None;
     PositionedNode.rank := rank |}.

Definition topDownGraph : PositionedGraph.t :=
  {| PositionedGraph.nodes :=
       [tall "R" 200 20 60 (Some 0%Z); tall "L" 20 30 40 (Some 0%Z);
        tall "C" 110 150 40 (Some 1%Z)];
     PositionedGraph.edges := [arrow "R" "C"; arrow "L" "C"];
     PositionedGraph.groups := [] |}.

(** [A --> B] and [A --> C]: two edges that leave the same node. *)
Definition fanGraph : PositionedGraph.t :=
  {| PositionedGraph.nodes :=
       [box "A" 110 20 (Some 0%Z); box "B" 20 100 (Some 1%Z);
        box "C" 200 100 (Some 1%Z)];
     PositionedGraph.edges := [arrow "A" "B"; arrow "A" "C"];
     PositionedGraph.groups := [] |}.

(** [A --> B] and the back edge [B --> A]. *)
Definition cycleGraph : PositionedGraph.t :=
  {| PositionedGraph.nodes := [box "A" 20 20 (Some 0%Z); box "B" 20 100 (Some 1%Z)];
     PositionedGraph.edges := [arrow "A" "B"; arrow "B" "A"];
     PositionedGraph.groups := [] |}.

(** The values that the comments of [AnimationOptions] document. *)
Definition documentedOptions : AnimationOptions.t :=
  {| AnimationOptions.duration := Some 600;
     AnimationOptions.stagger := Some 80;
     AnimationOptions.groupDelay := Some (-60);
     AnimationOptions.nodeOverlap := Some 0.3;
     AnimationOptions.nodeEasing := None;
     AnimationOptions.edgeEasing := None;
     AnimationOptions.nodeAnimation := None;
     AnimationOptions.edgeAnimation := None;
     AnimationOptions.reducedMotion := None |}.

Definition documented : ResolvedAnimation.t := spread documentedOptions.

Definition noOptions : AnimationOptions.t :=
  {| AnimationOptions.duration := None;
     AnimationOptions.stagger := None;
     AnimationOptions.groupDelay := None;
     AnimationOptions.nodeOverlap := None;
     AnimationOptions.nodeEasing := None;
     AnimationOptions.edgeEasing := None;
     AnimationOptions.nodeAnimation := None;
     AnimationOptions.edgeAnimation := None;
     AnimationOptions.reducedMotion := None |}.

(** [{ duration: 50, groupDelay: -60 }] *)
Definition quickReveal : AnimationOptions.t :=
  {| AnimationOptions.duration := Some 50;
     AnimationOptions.stagger := None;
     AnimationOptions.groupDelay := Some (-60);
     AnimationOptions.nodeOverlap := None;
     AnimationOptions.nodeEasing := None;
     AnimationOptions.edgeEasing := None;
     AnimationOptions.nodeAnimation := None;
     AnimationOptions.edgeAnimation := None;
     AnimationOptions.reducedMotion := None |}.

(** [{ groupDelay: -5000 }] *)
Definition earlyGroups : AnimationOptions.t :=
  {| AnimationOptions.duration := None;
     AnimationOptions.stagger := None;
     AnimationOptions.groupDelay := Some (-5000);
     AnimationOptions.nodeOverlap := None;
     AnimationOptions.nodeEasing := None;
     AnimationOptions.edgeEasing := None;
     AnimationOptions.nodeAnimation := None;
     AnimationOptions.edgeAnimation := None;
     AnimationOptions.reducedMotion := None |}.

(** [{ nodeOverlap: 1.5 }] *)
Definition wideOverlap : AnimationOptions.t :=
  {| AnimationOptions.duration := None;
     AnimationOptions.stagger := None;
     AnimationOptions.groupDelay := None;
     AnimationOptions.nodeOverlap := Some 1.5;
     AnimationOptions.nodeEasing := None;
     AnimationOptions.edgeEasing := None;
     AnimationOptions.nodeAnimation := None;
     AnimationOptions.edgeAnimation := None;
     AnimationOptions.reducedMotion := None |}.

(** [{ duration: -100 }] *)
Definition negativeDuration : AnimationOptions.t :=
  {| AnimationOptions.duration := Some (-100);
     AnimationOptions.stagger := None;
     AnimationOptions.groupDelay := None;
     AnimationOptions.nodeOverlap := None;
     AnimationOptions.nodeEasing := None;
     AnimationOptions.edgeEasing := None;
     AnimationOptions.nodeAnimation := None;
     AnimationOptions.edgeAnimation := None;
     AnimationOptions.reducedMotion := None |}.

(** [A --> B]; the group [O] holds both nodes and the nested group [I],
    which holds [A]; no node lies in the group [E]. *)
Definition nestedGraph : PositionedGraph.t :=
  {| PositionedGraph.nodes :=
       [box "A" 20 20 (Some 0%Z); box "B" 20 150 (Some 1%Z)];
     PositionedGraph.edges := [arrow "A" "B"];
     PositionedGraph.groups :=
       [frame "O" 0 0 300 300 [frame "I" 10 10 150 100 []];
        frame "E" 1000 1000 50 50 []] |}.

(** ** A node and an edge whose texts try to close the element *)

Definition hostileText : string := "</text><script>alert('x')</script>".

Definition hostileNode : PositionedNode.t :=
  {| PositionedNode.id := "N"; PositionedNode.label := hostileText;
     PositionedNode.shape := Cylinder;
     PositionedNode.x := 20; PositionedNode.y := 20;
     PositionedNode.width := 100; PositionedNode.height := 40;
     PositionedNode.inlineStyle :=
       Some {[ "fill" := "red' onload='x"; "stroke" := "<b>";
               "color" := "blue'/><script>" ]};
     PositionedNode.rank := Some 0%Z |}.

Definition hostileEdge : PositionedEdge.t :=
  {| PositionedEdge.source := "N"; PositionedEdge.target := "N";
     PositionedEdge.label := Some hostileText;
     PositionedEdge.points := [Point.mk 0 0; Point.mk 3 4; Point.mk 3 10];
     PositionedEdge.labelPosition := None |}.

(** ** A layout moved by [(dx, dy)] *)

Definition shiftNode (dx dy : Q) (node : PositionedNode.t) : PositionedNode.t :=
  {| PositionedNode.id := PositionedNode.id node;
     PositionedNode.label := PositionedNode.label node;
     PositionedNode.shape := PositionedNode.shape node;
     PositionedNode.x := PositionedNode.x node + dx;
     PositionedNode.y := PositionedNode.y node + dy;
     PositionedNode.width := PositionedNode.width node;
     PositionedNode.height := PositionedNode.height node;
     PositionedNode.inlineStyle := PositionedNode.inlineStyle node;
     PositionedNode.rank := PositionedNode.rank node |}.

Fixpoint shiftGroup (dx dy : Q) (group : PositionedGroup.t)
    : PositionedGroup.t :=
  {| PositionedGroup.id := PositionedGroup.id group;
     PositionedGroup.label := PositionedGroup.label group;
     PositionedGroup.x := PositionedGroup.x group + dx;
     PositionedGroup.y := PositionedGroup.y group + dy;
     PositionedGroup.width := PositionedGroup.width group;
     PositionedGroup.height := PositionedGroup.height group;
     PositionedGroup.children :=
       (fix forest (gs : list PositionedGroup.t) : list PositionedGroup.t :=
          match gs with
          | [] => []
          | g :: gs' => shiftGroup dx dy g :: forest gs'
          end) (PositionedGroup.children group) |}.

Definition shiftPoint (dx dy : Q) (p : Point.t) : Point.t :=
  {| Point.x := Point.x p + dx; Point.y := Point.y p + dy |}.

Definition shiftEdge (dx dy : Q) (edge : PositionedEdge.t) : PositionedEdge.t :=
  {| PositionedEdge.source := PositionedEdge.source edge;
     PositionedEdge.target := PositionedEdge.target edge;
     PositionedEdge.label := PositionedEdge.label edge;
     PositionedEdge.points := shiftPoint dx dy <$> PositionedEdge.points edge;
     PositionedEdge.labelPosition :=
       shiftPoint dx dy <$> PositionedEdge.labelPosition edge |}.

(** ** A layout drawn anew *)

(** The layout whose nodes, edges and groups are those of [graph], each
    replaced by what [f], [k] and [h] make of it. *)
Definition redrawGraph (f : PositionedNode.t -> PositionedNode.t)
    (k : PositionedEdge.t -> PositionedEdge.t)
    (h : PositionedGroup.t -> PositionedGroup.t)
    (graph : PositionedGraph.t) : PositionedGraph.t :=
  {| PositionedGraph.nodes := f <$> PositionedGraph.nodes graph;
     PositionedGraph.edges := k <$> PositionedGraph.edges graph;
     PositionedGraph.groups := h <$> PositionedGraph.groups graph |}.

(** ** Vocabulary for the strings *)

(** The characters that [escapeXml] replaces. *)
Definition special : list ascii :=
  [ampChar; ltChar; gtChar; quotChar; aposChar].

(** Every character of [s] passes the test [p]. *)
Fixpoint allChars (p : ascii -> bool) (s : string) : bool :=
  match s with
  | EmptyString => true
  | String c s' => p c && allChars p s'
  end.

(** [s] is empty or starts with a character that fails the test [p]. *)
Definition startsWithout (p : ascii -> bool) (s : string) : Prop :=
  match s with
  | EmptyString => True
  | String c _ => p c = false
  end.

(** A run of at least one digit or dot, as [[\d.]+] matches. *)
Definition isNumberToken (s : string) : bool :=
  match s with
  | EmptyString => false
  | String _ _ => allChars isDigitOrDot s
  end.

(** What a [keySplines] value is made of. *)
Definition isSplineChar (c : ascii) : bool :=
  isDigitOrDot c || bool_decide (c = " "%char).

(** The options object that spells out every field of [r]. *)
Definition allOptions (r : ResolvedAnimation.t) : AnimationOptions.t :=
  {| AnimationOptions.duration := Some (ResolvedAnimation.duration r);
     AnimationOptions.stagger := Some (ResolvedAnimation.stagger r);
     AnimationOptions.groupDelay := Some (ResolvedAnimation.groupDelay r);
     AnimationOptions.nodeOverlap := Some (ResolvedAnimation.nodeOverlap r);
     AnimationOptions.nodeEasing := Some (ResolvedAnimation.nodeEasing r);
     AnimationOptions.edgeEasing := Some (ResolvedAnimation.edgeEasing r);
     AnimationOptions.nodeAnimation := Some (ResolvedAnimation.nodeAnimation r);
     AnimationOptions.edgeAnimation := Some (ResolvedAnimation.edgeAnimation r);
     AnimationOptions.reducedMotion := Some (ResolvedAnimation.reducedMotion r) |}.

(** * Properties *)

(** ** The stable sort *)

Section StableSortFacts.
Context {A : Type} (leb : A → A → bool).

Lemma sort_insert_Permutation a l : sort_insert leb a l ≡ₚ a :: l.
Proof.
  induction l as [|b l IH]; simpl; [done|].
  destruct (leb a b); [done|]. rewrite IH. apply Permutation_swap.
Qed.

Lemma stable_sort_Permutation l : stable_sort leb l ≡ₚ l.
Proof.
  induction l as [|a l IH]; simpl; [done|].
  by rewrite sort_insert_Permutation, IH.
Qed.

Lemma stable_sort_elem_of a l : a ∈ stable_sort leb l ↔ a ∈ l.
Proof. by rewrite stable_sort_Permutation. Qed.

Lemma stable_sort_length l : length (stable_sort leb l) = length l.
Proof. by rewrite stable_sort_Permutation. Qed.

(** Elements that the comparator does not tell apart keep their order. *)
Lemma sort_insert_filter (P : A → Prop) `{!∀ a, Decision (P a)} a l :
  (∀ b, P a → P b → leb a b = true) →
  filter P (sort_insert leb a l) = filter P (a :: l).
Proof.
  intros Hties. induction l as [|b l IH]; simpl; [done|].
  destruct (leb a b) eqn:Hab; [done|].
  rewrite !filter_cons, IH, !filter_cons.
  destruct (decide (P b)) as [Hb|Hb], (decide (P a)) as [Ha|Ha]; try done.
  by rewrite (Hties b Ha Hb) in Hab.
Qed.

Lemma stable_sort_stable (P : A → Prop) `{!∀ a, Decision (P a)} l :
  (∀ a b, P a → P b → leb a b = true) →
  filter P (stable_sort leb l) = filter P l.
Proof.
  intros Hties. induction l as [|a l IH]; simpl; [done|].
  rewrite sort_insert_filter by eauto. by rewrite !filter_cons, IH.
Qed.

Hypothesis leb_total : ∀ a b, leb a b = true ∨ leb b a = true.

Lemma sort_insert_HdRel a b l :
  leb b a = true → HdRel (λ x y, leb x y = true) b l →
  HdRel (λ x y, leb x y = true) b (sort_insert leb a l).
Proof.
  intros Hba Hhd. destruct l as [|c l]; simpl; [by constructor|].
  destruct (leb a c); constructor; [done|]. by inversion Hhd.
Qed.

Lemma sort_insert_Sorted a l :
  Sorted (λ x y, leb x y = true) l →
  Sorted (λ x y, leb x y = true) (sort_insert leb a l).
Proof.
  induction 1 as [|b l Hl IH Hhd]; simpl; [by repeat constructor|].
  destruct (leb a b) eqn:Hab.
  - by repeat constructor.
  - constructor; [done|]. apply sort_insert_HdRel; [|done].
    by destruct (leb_total a b) as [Hab'|Hba]; [rewrite Hab' in Hab|].
Qed.

Lemma stable_sort_Sorted l : Sorted (λ x y, leb x y = true) (stable_sort leb l).
Proof.
  induction l as [|a l IH]; simpl; [constructor|]. by apply sort_insert_Sorted.
Qed.
End StableSortFacts.

Lemma stable_sort_fmap {A B} (f : A → B) (lebA : A → A → bool)
    (lebB : B → B → bool) (l : list A) :
  (∀ a b, lebB (f a) (f b) = lebA a b) →
  stable_sort lebB (f <$> l) = f <$> stable_sort lebA l.
Proof.
  intros Hf. induction l as [|a l IH]; [done|].
  rewrite fmap_cons. unfold stable_sort in *. simpl foldr. rewrite IH.
  generalize (foldr (sort_insert lebA) [] l). intros k.
  induction k as [|b k IHk]; [done|].
  rewrite fmap_cons. simpl sort_insert. rewrite Hf.
  destruct (lebA a b); [done|]. rewrite fmap_cons. f_equal. exact IHk.
Qed.

(** ** The index maps built before the cascade *)

Lemma bucketLoop_lookup ns m r :
  bucketLoop ns m !! r
  = match filter (λ n, nodeRank n = r) ns with
    | [] => m !! r
    | l => Some (default [] (m !! r) ++ l)
    end.
Proof.
  revert m. induction ns as [|n ns IH]; intros m; simpl; [done|].
  rewrite IH, filter_cons. destruct (decide (nodeRank n = r)) as [->|Hne].
  - rewrite lookup_insert_eq. simpl.
    destruct (filter _ ns); by rewrite <- ?app_assoc.
  - by rewrite lookup_insert_ne.
Qed.

Lemma rankBuckets_lookup g r :
  rankBuckets g !! r
  = match rankNodes g r with
    | [] => None
    | l => Some (stable_sort byX l)
    end.
Proof.
  unfold rankBuckets, rankNodes. rewrite lookup_fmap, bucketLoop_lookup.
  rewrite lookup_empty. by destruct (filter _ _).
Qed.

Lemma rankBuckets_Some g r bucket :
  rankBuckets g !! r = Some bucket
  ↔ bucket = stable_sort byX (rankNodes g r) ∧ rankNodes g r ≠ [].
Proof.
  rewrite rankBuckets_lookup. destruct (rankNodes g r) eqn:Hl.
  - split; [done|]. by intros [_ ?].
  - split; [intros [= <-]|intros [-> _]]; done.
Qed.

Lemma elem_of_rankNodes g r n :
  n ∈ rankNodes g r ↔ n ∈ PositionedGraph.nodes g ∧ nodeRank n = r.
Proof. unfold rankNodes. rewrite list_elem_of_filter. tauto. Qed.

Lemma incomingLoop_lookup i es m t :
  incomingLoop i es m !! t
  = match edgesInto t i es with
    | [] => m !! t
    | l => Some (default [] (m !! t) ++ l)
    end.
Proof.
  revert i m. induction es as [|e es IH]; intros i m; simpl; [done|].
  rewrite IH. destruct (decide (PositionedEdge.target e = t)) as [->|Hne].
  - rewrite lookup_insert_eq. simpl.
    destruct (edgesInto _ _ es); by rewrite <- ?app_assoc.
  - by rewrite lookup_insert_ne.
Qed.

Lemma incomingEdges_lookup g t :
  incomingEdges g !! t
  = match edgesInto t 0 (PositionedGraph.edges g) with
    | [] => None
    | l => Some l
    end.
Proof.
  unfold incomingEdges. rewrite incomingLoop_lookup, lookup_empty.
  by destruct (edgesInto _ _ _).
Qed.

Lemma elem_of_edgesInto t i es ei :
  ei ∈ edgesInto t i es
  ↔ ∃ e, (i ≤ ei)%nat ∧ es !! (ei - i)%nat = Some e ∧ PositionedEdge.target e = t.
Proof.
  revert i. induction es as [|e es IH]; intros i; simpl.
  - split; [by intros ?%elem_of_nil|]. by intros (? & _ & ? & _).
  - assert (ei ∈ edgesInto t (S i) es
            ↔ ∃ e', (i < ei)%nat ∧ (e :: es) !! (ei - i)%nat = Some e'
                    ∧ PositionedEdge.target e' = t) as Htail.
    { rewrite IH. split; intros (e' & Hle & Hlook & Ht); exists e'.
      - replace (ei - i)%nat with (S (ei - S i)) by lia. split; [lia|done].
      - replace (ei - i)%nat with (S (ei - S i)) in Hlook by lia.
        split; [lia|done]. }
    destruct (decide (PositionedEdge.target e = t)) as [Heq|Hne].
    + rewrite elem_of_cons, Htail. split.
      * intros [->|(e' & ? & ? & ?)].
        -- exists e. rewrite Nat.sub_diag. split; [lia|done].
        -- exists e'. split; [lia|done].
      * intros (e' & Hle & Hlook & Ht).
        destruct (decide (ei = i)) as [->|]; [by left|right].
        exists e'. split; [lia|done].
    + rewrite Htail. split.
      * intros (e' & ? & ? & ?). exists e'. split; [lia|done].
      * intros (e' & Hle & Hlook & Ht). exists e'. split; [|done].
        destruct (decide (ei = i)) as [->|]; [|lia].
        rewrite Nat.sub_diag in Hlook. by injection Hlook as ->.
Qed.

Lemma elem_of_edgesInto_0 t es ei :
  ei ∈ edgesInto t 0 es ↔ ∃ e, es !! ei = Some e ∧ PositionedEdge.target e = t.
Proof.
  rewrite elem_of_edgesInto. rewrite Nat.sub_0_r.
  split; [intros (e & _ & ?); by exists e|intros (e & ?); exists e].
  split; [lia|done].
Qed.

Section OutgoingLoop.
Context (opts : ResolvedAnimation.t) (nodeId : string) (nodeDelay : Q).

Lemma outgoingLoop_lookup_lt k es E j :
  (j < k)%nat → outgoingLoop opts nodeId nodeDelay k es E !! j = E !! j.
Proof.
  revert k E. induction es as [|e es IH]; intros k E Hlt; simpl; [done|].
  rewrite IH by lia. case_decide; [|done]. apply lookup_insert_ne. lia.
Qed.

Lemma outgoingLoop_lookup_ge k es E p :
  outgoingLoop opts nodeId nodeDelay k es E !! (k + p)%nat
  = match es !! p with
    | Some e =>
        if decide (PositionedEdge.source e = nodeId)
        then Some (nodeDelay + ResolvedAnimation.duration opts)
        else E !! (k + p)%nat
    | None => E !! (k + p)%nat
    end.
Proof.
  revert k E p. induction es as [|e es IH]; intros k E p; simpl; [done|].
  destruct p as [|p]; simpl.
  - rewrite outgoingLoop_lookup_lt by lia. rewrite Nat.add_0_r.
    case_decide; [apply lookup_insert_eq|done].
  - replace (k + S p)%nat with (S k + p)%nat by lia. rewrite IH.
    assert (∀ x, (if decide (PositionedEdge.source e = nodeId)
                  then <[k:=x]> E else E) !! (S k + p)%nat
                 = E !! (S k + p)%nat) as ->; [|done].
    intros x. case_decide; [|done]. apply lookup_insert_ne. lia.
Qed.

Lemma outgoingLoop_lookup es E j :
  outgoingLoop opts nodeId nodeDelay 0 es E !! j
  = match es !! j with
    | Some e =>
        if decide (PositionedEdge.source e = nodeId)
        then Some (nodeDelay + ResolvedAnimation.duration opts)
        else E !! j
    | None => E !! j
    end.
Proof. apply (outgoingLoop_lookup_ge 0). Qed.
End OutgoingLoop.

(** ** The order of the cascade *)

Lemma sortedRanks_elem_of g r :
  r ∈ sortedRanks g ↔ rankNodes g r ≠ [].
Proof.
  unfold sortedRanks. rewrite stable_sort_elem_of, elem_of_elements.
  rewrite elem_of_dom, rankBuckets_lookup.
  destruct (rankNodes g r); split; try done; by intros [? ?].
Qed.

Lemma sortedRanks_NoDup g : NoDup (sortedRanks g).
Proof.
  unfold sortedRanks. rewrite stable_sort_Permutation. apply NoDup_elements.
Qed.

Lemma StronglySorted_le_lt (l : list Z) :
  StronglySorted Z.le l → NoDup l → StronglySorted Z.lt l.
Proof.
  induction 1 as [|a l Hl IH Hall]; intros Hnd; [constructor|].
  apply NoDup_cons in Hnd as [Ha Hnd]. constructor; [by apply IH|].
  rewrite Forall_forall in Hall |- *. intros b Hb.
  assert (a ≠ b) by (intros ->; done).
  specialize (Hall b Hb). lia.
Qed.

Lemma Sorted_weaken {A} (R R' : relation A) l :
  (∀ a b, R a b → R' a b) → Sorted R l → Sorted R' l.
Proof.
  intros HR. induction 1 as [|a l Hl IH Hhd]; constructor; [done|].
  destruct Hhd; constructor; auto.
Qed.

Lemma sortedRanks_ascending g : StronglySorted Z.lt (sortedRanks g).
Proof.
  apply StronglySorted_le_lt; [|apply sortedRanks_NoDup].
  apply Sorted_StronglySorted; [intros ???; lia|].
  unfold sortedRanks.
  eapply Sorted_weaken; [|apply stable_sort_Sorted].
  - intros a b Hab. apply Z.leb_le, Hab.
  - intros a b. rewrite !Z.leb_le. lia.
Qed.

Lemma elem_of_bucketVisits r i bucket v :
  v ∈ bucketVisits r i bucket
  ↔ ∃ j n, v = (r, (i + j)%nat, n) ∧ bucket !! j = Some n.
Proof. unfold bucketVisits. apply elem_of_lookup_imap. Qed.

Lemma elem_of_visits g r i n : (r, i, n) ∈ visits g ↔ slot g r i n.
Proof.
  unfold visits, slot. rewrite list_elem_of_bind. split.
  - intros (r' & Hv & Hr'). apply elem_of_bucketVisits in Hv as (j & n' & Heq & Hj).
    injection Heq as -> -> ->. simpl.
    apply sortedRanks_elem_of in Hr'.
    destruct (rankBuckets g !! r') as [bucket|] eqn:Hb; [by exists bucket|].
    simpl in Hj. by rewrite lookup_nil in Hj.
  - intros (bucket & Hb & Hi). exists r. split.
    + rewrite Hb. simpl. apply elem_of_bucketVisits. by exists i, n.
    + apply sortedRanks_elem_of. by apply rankBuckets_Some in Hb as [_ ?].
Qed.

Lemma slot_node g r i n :
  slot g r i n → n ∈ PositionedGraph.nodes g ∧ nodeRank n = r.
Proof.
  intros (bucket & Hb & Hi). apply rankBuckets_Some in Hb as [-> _].
  apply list_elem_of_lookup_2 in Hi. rewrite stable_sort_elem_of in Hi.
  by apply elem_of_rankNodes.
Qed.

Lemma node_slot g n :
  n ∈ PositionedGraph.nodes g → ∃ i, slot g (nodeRank n) i n.
Proof.
  intros Hn.
  assert (n ∈ rankNodes g (nodeRank n)) as Hin by by apply elem_of_rankNodes.
  assert (n ∈ stable_sort byX (rankNodes g (nodeRank n))) as Hs
    by by apply stable_sort_elem_of.
  apply list_elem_of_lookup_1 in Hs as [i Hi]. exists i.
  eexists. split; [|exact Hi]. apply rankBuckets_Some. split; [done|].
  intros Hnil. rewrite Hnil in Hin. by apply elem_of_nil in Hin.
Qed.

(** ** The cascade as a fold over its iterations *)

Lemma foldl_invariant {A B} (P : A → Prop) (f : A → B → A) l a :
  P a → (∀ a b, b ∈ l → P a → P (f a b)) → P (foldl f a l).
Proof.
  revert a. induction l as [|b l IH]; intros a Ha Hstep; simpl; [done|].
  apply IH.
  - apply Hstep; [left|done].
  - intros a' b' Hb'. apply Hstep. by right.
Qed.

Lemma bucketPass_visits g o r i bucket st :
  bucketPass g o r i bucket st = foldl (visit g o) st (bucketVisits r i bucket).
Proof.
  revert i st. induction bucket as [|n b IH]; intros i st; [done|].
  simpl bucketPass. rewrite IH. unfold bucketVisits. rewrite imap_cons.
  simpl foldl. unfold visit at 3. simpl. rewrite Nat.add_0_r. f_equal.
  apply imap_ext. intros j x _. simpl. do 2 f_equal. lia.
Qed.

Lemma rankPass_visits g o ranks st :
  rankPass g o ranks st
  = foldl (visit g o) st
      (ranks ≫= λ r, bucketVisits r 0 (default [] (rankBuckets g !! r))).
Proof.
  revert st. induction ranks as [|r ranks IH]; intros st; [done|].
  simpl rankPass. rewrite bind_cons, foldl_app, IH. by rewrite bucketPass_visits.
Qed.

Lemma computeDelays_cascade g o :
  ElementDelays.nodes (computeDelays g o) = (cascade g o).1
  ∧ ElementDelays.edges (computeDelays g o) = (cascade g o).2
  ∧ ElementDelays.groups (computeDelays g o)
    = collectGroupDelays o (PositionedGraph.groups g) (PositionedGraph.nodes g)
        (cascade g o).1 ∅.
Proof.
  unfold computeDelays, cascade, visits. rewrite rankPass_visits.
  by destruct (foldl _ _ _).
Qed.

Lemma visit_eq g o N E r i n :
  visit g o (N, E) (r, i, n)
  = (<[PositionedNode.id n := cascadeDelay g o r i n E]> N,
     outgoingLoop o (PositionedNode.id n) (cascadeDelay g o r i n E) 0
       (PositionedGraph.edges g) E).
Proof. unfold visit, processNode. simpl. by rewrite lookup_insert_eq. Qed.

Lemma cascade_nodes_frame g o vs st k :
  (∀ v, v ∈ vs → PositionedNode.id v.2 ≠ k) →
  (foldl (visit g o) st vs).1 !! k = st.1 !! k.
Proof.
  intros Hvs. apply (foldl_invariant (λ st', st'.1 !! k = st.1 !! k)); [done|].
  intros [N E] [[r i] n] Hv HN. rewrite visit_eq. simpl in *.
  rewrite lookup_insert_ne; [done|]. apply (Hvs _ Hv).
Qed.

Lemma cascade_edges_frame g o vs st ei e :
  PositionedGraph.edges g !! ei = Some e →
  (∀ v, v ∈ vs → PositionedNode.id v.2 ≠ PositionedEdge.source e) →
  (foldl (visit g o) st vs).2 !! ei = st.2 !! ei.
Proof.
  intros He Hvs.
  apply (foldl_invariant (λ st', st'.2 !! ei = st.2 !! ei)); [done|].
  intros [N E] [[r i] n] Hv HE. rewrite visit_eq. simpl in *.
  rewrite outgoingLoop_lookup, He. case_decide as Hsrc; [|done].
  by destruct (Hvs _ Hv).
Qed.

Lemma cascade_nodes_dom g o vs st :
  dom (foldl (visit g o) st vs).1
  = dom st.1 ∪ list_to_set ((λ v : Visit, PositionedNode.id v.2) <$> vs).
Proof.
  revert st. induction vs as [|[[r i] n] vs IH]; intros [N E].
  - simpl. by rewrite (right_id_L ∅ (∪)).
  - change (foldl (visit g o) (N, E) ((r, i, n) :: vs))
      with (foldl (visit g o) (visit g o (N, E) (r, i, n)) vs).
    rewrite IH, visit_eq, fmap_cons, list_to_set_cons. simpl.
    rewrite dom_insert_L. set_solver.
Qed.

Lemma visit_follows g o st v :
  edgesFollowSources g o st → edgesFollowSources g o (visit g o st v).
Proof.
  destruct st as [N E], v as [[r i] n]. intros Hinv ei e d He.
  rewrite visit_eq. simpl. rewrite outgoingLoop_lookup, He.
  case_decide as Hsrc.
  - rewrite Hsrc, lookup_insert_eq. by intros [= ->].
  - rewrite lookup_insert_ne by done. by apply Hinv.
Qed.

Lemma cascade_follows g o st vs :
  edgesFollowSources g o st →
  edgesFollowSources g o (foldl (visit g o) st vs).
Proof.
  intros Hst. apply (foldl_invariant (edgesFollowSources g o)); [done|].
  intros st' v _. apply visit_follows.
Qed.

Lemma visits_ids g k :
  k ∈ (λ v : Visit, PositionedNode.id v.2) <$> visits g ↔ k ∈ nodeIds g.
Proof.
  unfold nodeIds. rewrite !list_elem_of_fmap. split.
  - intros ([[r i] n] & -> & Hv). exists n. split; [done|].
    apply elem_of_visits in Hv. by apply slot_node in Hv as [? _].
  - intros (n & -> & Hn). destruct (node_slot g n Hn) as [i Hi].
    exists (nodeRank n, i, n). split; [done|]. by apply elem_of_visits.
Qed.

Lemma cascade_initial_follows g o : edgesFollowSources g o (∅, ∅).
Proof. intros ei e d _. simpl. by rewrite lookup_empty. Qed.

(** C1: whenever the source of an edge is the id of a node of the layout,
    the schedule holds a delay for that node and a delay for the edge, and
    the delay of the edge is exactly the delay of its source node plus
    [duration]. *)
Theorem edge_delay_is_source_delay_plus_duration
    (g : PositionedGraph.t) (o : ResolvedAnimation.t)
    (ei : nat) (e : PositionedEdge.t) :
  PositionedGraph.edges g !! ei = Some e →
  PositionedEdge.source e ∈ nodeIds g →
  ∃ d,
    ElementDelays.nodes (computeDelays g o) !! PositionedEdge.source e = Some d
    ∧ ElementDelays.edges (computeDelays g o) !! ei
      = Some (d + ResolvedAnimation.duration o).
Proof.
  intros He Hsrc.
  destruct (computeDelays_cascade g o) as (-> & -> & _).
  assert (PositionedEdge.source e ∈ dom (cascade g o).1) as Hdom.
  { unfold cascade. rewrite cascade_nodes_dom, elem_of_union. right.
    by apply elem_of_list_to_set, visits_ids. }
  apply elem_of_dom in Hdom as [d Hd]. exists d. split; [done|].
  by apply (cascade_follows g o _ _ (cascade_initial_follows g o) ei e d).
Qed.

Lemma edge_delay_is_source_delay_plus_duration_witness :
  ∃ d,
    ElementDelays.nodes (computeDelays chainGraph DEFAULTS) !! "B" = Some d
    ∧ ElementDelays.edges (computeDelays chainGraph DEFAULTS) !! 1%nat
      = Some (d + 650).
Proof.
  apply (edge_delay_is_source_delay_plus_duration
           chainGraph DEFAULTS 1 (arrow "B" "C")).
  - reflexivity.
  - unfold nodeIds. simpl. apply list_elem_of_further, list_elem_of_here.
Defined.

(** ** Ranks ascending, buckets by index: the order of the iterations *)

Lemma bucketVisits_sorted r i bucket :
  StronglySorted visitEarlier (bucketVisits r i bucket).
Proof.
  revert i. induction bucket as [|n b IH]; intros i; [constructor|].
  unfold bucketVisits. rewrite imap_cons. constructor.
  - rewrite (imap_ext _ (λ j x, (r, (S i + j)%nat, x))); [apply IH|].
    intros j x _. simpl. do 2 f_equal. lia.
  - apply Forall_forall. intros v (j & x & -> & _)%elem_of_lookup_imap.
    right. simpl. split; [done|lia].
Qed.

Lemma rank_visits_sorted g ranks :
  StronglySorted Z.lt ranks →
  StronglySorted visitEarlier
    (ranks ≫= λ r, bucketVisits r 0 (default [] (rankBuckets g !! r))).
Proof.
  induction 1 as [|r ranks Hranks IH Hall]; [constructor|].
  rewrite bind_cons. apply StronglySorted_app. split_and!; [|apply bucketVisits_sorted|done].
  intros v w (j & x & -> & _)%elem_of_bucketVisits
    (r' & (j' & x' & -> & _)%elem_of_bucketVisits & Hr')%list_elem_of_bind.
  left. simpl. rewrite Forall_forall in Hall. by apply Hall.
Qed.

Lemma visits_sorted g : StronglySorted visitEarlier (visits g).
Proof. apply rank_visits_sorted, sortedRanks_ascending. Qed.

Lemma visitEarlier_asym v w : visitEarlier v w → visitEarlier w v → False.
Proof. unfold visitEarlier, earlier. lia. Qed.

(** An iteration that is earlier in the order has run before. *)
Lemma visit_runs_before g pre v post w :
  visits g = pre ++ v :: post → w ∈ visits g → visitEarlier w v → w ∈ pre.
Proof.
  intros Hsplit Hw Hwv. pose proof (visits_sorted g) as Hsorted.
  rewrite Hsplit in Hsorted, Hw.
  apply StronglySorted_app in Hsorted as (_ & _ & Hvpost).
  apply StronglySorted_inv in Hvpost as [_ Hpost].
  rewrite Forall_forall in Hpost.
  apply elem_of_app in Hw as [Hw|Hw]; [done|].
  apply elem_of_cons in Hw as [->|Hw].
  - destruct (visitEarlier_asym _ _ Hwv Hwv).
  - destruct (visitEarlier_asym _ _ Hwv (Hpost _ Hw)).
Qed.

(** ** The iterations run through every node once *)

Lemma bucket_default g r :
  default [] (rankBuckets g !! r) = stable_sort byX (rankNodes g r).
Proof. rewrite rankBuckets_lookup. by destruct (rankNodes g r) eqn:Hl. Qed.

Lemma bucketVisits_nodes r i bucket :
  (λ v : Visit, v.2) <$> bucketVisits r i bucket = bucket.
Proof.
  revert i. induction bucket as [|n b IH]; intros i; [done|].
  unfold bucketVisits. rewrite imap_cons, fmap_cons. simpl. f_equal.
  etrans; [|apply (IH (S i))]. f_equal. apply imap_ext. intros j x _. simpl.
  do 2 f_equal. lia.
Qed.

Lemma filter_disjoint_app {A} (P Q : A → Prop)
    `{!∀ x, Decision (P x)} `{!∀ x, Decision (Q x)} (l : list A) :
  (∀ x, P x → Q x → False) →
  filter P l ++ filter Q l ≡ₚ filter (λ x, P x ∨ Q x) l.
Proof.
  intros Hdisj. induction l as [|x l IH]; [done|].
  rewrite !filter_cons.
  destruct (decide (P x)) as [HP|HP], (decide (Q x)) as [HQ|HQ].
  - destruct (Hdisj x HP HQ).
  - rewrite decide_True by auto. simpl. by rewrite IH.
  - rewrite decide_True by auto. rewrite <- Permutation_middle. by rewrite IH.
  - rewrite decide_False by tauto. done.
Qed.

Lemma filter_all {A} (P : A → Prop) `{!∀ x, Decision (P x)} (l : list A) :
  (∀ x, x ∈ l → P x) → filter P l = l.
Proof.
  induction l as [|x l IH]; intros Hall; [done|].
  rewrite filter_cons, decide_True by (apply Hall; left).
  rewrite IH; [done|]. intros y Hy. apply Hall. by right.
Qed.

Lemma rank_nodes_partition g ranks :
  NoDup ranks →
  ranks ≫= rankNodes g
  ≡ₚ filter (λ n, nodeRank n ∈ ranks) (PositionedGraph.nodes g).
Proof.
  induction 1 as [|r ranks Hr Hnd IH].
  - simpl. symmetry. apply Permutation_nil_r.
    induction (PositionedGraph.nodes g) as [|n l IHl]; [done|].
    rewrite filter_cons, decide_False; [done|]. apply not_elem_of_nil.
  - rewrite bind_cons, IH. unfold rankNodes. rewrite filter_disjoint_app.
    + erewrite list_filter_iff; [done|]. intros n. simpl.
      rewrite elem_of_cons. done.
    + intros n <- Hin. done.
Qed.

Lemma visits_nodes g :
  (λ v : Visit, v.2) <$> visits g ≡ₚ PositionedGraph.nodes g.
Proof.
  transitivity (sortedRanks g ≫= rankNodes g).
  - unfold visits. generalize (sortedRanks g). intros ranks.
    induction ranks as [|r ranks IH]; [done|].
    rewrite !bind_cons, fmap_app, IH, bucketVisits_nodes, bucket_default.
    by rewrite stable_sort_Permutation.
  - rewrite rank_nodes_partition by apply sortedRanks_NoDup.
    rewrite filter_all; [done|]. intros n Hn. apply sortedRanks_elem_of.
    intros Hnil.
    assert (n ∈ rankNodes g (nodeRank n)) as Hin by by apply elem_of_rankNodes.
    rewrite Hnil in Hin. by apply elem_of_nil in Hin.
Qed.

Lemma visits_ids_NoDup g :
  NoDup (nodeIds g) →
  NoDup ((λ v : Visit, PositionedNode.id v.2) <$> visits g).
Proof.
  intros Hnd.
  assert ((λ v : Visit, PositionedNode.id v.2) <$> visits g
          ≡ₚ nodeIds g) as ->; [|done].
  unfold nodeIds. rewrite <- (visits_nodes g), <- list_fmap_compose. done.
Qed.

(** ** What the cascade stores for a node *)

Lemma NoDup_ids_split g pre v post :
  NoDup (nodeIds g) → visits g = pre ++ v :: post →
  (∀ w, w ∈ pre → PositionedNode.id w.2 ≠ PositionedNode.id v.2)
  ∧ (∀ w, w ∈ post → PositionedNode.id w.2 ≠ PositionedNode.id v.2)
  ∧ (∀ w u, w ∈ pre → u ∈ v :: post →
       PositionedNode.id u.2 ≠ PositionedNode.id w.2).
Proof.
  intros Hnd Hsplit. apply visits_ids_NoDup in Hnd.
  rewrite Hsplit, fmap_app, fmap_cons in Hnd.
  apply NoDup_app in Hnd as (_ & Hcross & Hnd).
  apply NoDup_cons in Hnd as [Hv _].
  assert (∀ w (l : list Visit), w ∈ l →
            PositionedNode.id w.2 ∈ (λ v : Visit, PositionedNode.id v.2) <$> l)
    as Hin.
  { intros w l Hw. apply list_elem_of_fmap. by exists w. }
  split_and!.
  - intros w Hw Heq. apply (Hcross _ (Hin _ _ Hw)). rewrite Heq. left.
  - intros w Hw Heq. apply Hv. rewrite <- Heq. by apply Hin.
  - intros w u Hw Hu Heq. apply (Hcross _ (Hin _ _ Hw)). rewrite <- Heq.
    by apply (Hin u (v :: post)).
Qed.

(** With distinct node ids the entry of a node is the one written by its
    own iteration. *)
Lemma cascade_at_slot g o r i n :
  NoDup (nodeIds g) → slot g r i n →
  ∃ pre post,
    visits g = pre ++ (r, i, n) :: post
    ∧ (cascade g o).1 !! PositionedNode.id n
      = Some (cascadeDelay g o r i n (foldl (visit g o) (∅, ∅) pre).2).
Proof.
  intros Hnd Hslot. apply elem_of_visits in Hslot.
  apply list_elem_of_split in Hslot as (pre & post & Hsplit).
  exists pre, post. split; [done|].
  destruct (NoDup_ids_split g pre _ post Hnd Hsplit) as (_ & Hpost & _).
  unfold cascade. rewrite Hsplit, foldl_app. simpl foldl.
  rewrite cascade_nodes_frame by done.
  destruct (foldl (visit g o) (∅, ∅) pre) as [N E].
  rewrite visit_eq. simpl. apply lookup_insert_eq.
Qed.

Lemma no_incoming_edges g k :
  (∀ e, e ∈ PositionedGraph.edges g → PositionedEdge.target e ≠ k) →
  incomingEdges g !! k = None.
Proof.
  intros Hnone. rewrite incomingEdges_lookup.
  destruct (edgesInto k 0 (PositionedGraph.edges g)) as [|ei l] eqn:Hl; [done|].
  assert (ei ∈ edgesInto k 0 (PositionedGraph.edges g)) as Hei
    by (rewrite Hl; left).
  apply elem_of_edgesInto_0 in Hei as (e & He & Ht).
  destruct (Hnone e); [|done]. by apply list_elem_of_lookup_2 in He.
Qed.

Lemma bucket_sorted_by_x g r bucket :
  rankBuckets g !! r = Some bucket →
  bucket ≡ₚ rankNodes g r
  ∧ Sorted (λ a b, PositionedNode.x a <= PositionedNode.x b) bucket
  ∧ (∀ q, filter (λ n, PositionedNode.x n == q) bucket
          = filter (λ n, PositionedNode.x n == q) (rankNodes g r)).
Proof.
  intros [-> _]%rankBuckets_Some. split_and!.
  - apply stable_sort_Permutation.
  - eapply Sorted_weaken; [|apply stable_sort_Sorted].
    + intros a b Hab. apply Qle_bool_iff, Hab.
    + intros a b. unfold byX. rewrite !Qle_bool_iff.
      destruct (Qlt_le_dec (PositionedNode.x b) (PositionedNode.x a))
        as [Hlt|Hle]; [right; by apply Qlt_le_weak|by left].
  - intros q. apply stable_sort_stable. intros a b Ha Hb.
    apply Qle_bool_iff. rewrite Ha, Hb. apply Qle_refl.
Qed.

Lemma sortedRanks_are_node_ranks g r :
  r ∈ sortedRanks g ↔ ∃ n, n ∈ PositionedGraph.nodes g ∧ nodeRank n = r.
Proof.
  rewrite sortedRanks_elem_of. split.
  - intros Hne. destruct (rankNodes g r) as [|n l] eqn:Hl; [done|].
    exists n. apply elem_of_rankNodes. rewrite Hl. left.
  - intros (n & Hn) Hnil. apply elem_of_rankNodes in Hn.
    rewrite Hnil in Hn. by apply elem_of_nil in Hn.
Qed.

(** C3, as the code has it: the ranks are taken in strictly ascending
    order and are the ranks of the nodes (0 for a node without a rank); the
    bucket of a rank holds the nodes of that rank ordered by their [x]
    coordinate, whatever the direction of the layout, nodes with equal [x]
    in the order of [graph.nodes]; the node and edge delays of the
    schedule are what the iterations leave behind when run in that order;
    and, node ids being distinct, a node with no incoming edge that sits at
    index [i] of the bucket of rank [r] gets the delay
    [r * stagger + i * (stagger * 0.5)]. *)
Theorem root_node_delay_is_rank_stagger
    (g : PositionedGraph.t) (o : ResolvedAnimation.t) :
  NoDup (nodeIds g) →
  StronglySorted Z.lt (sortedRanks g)
  ∧ (∀ r, r ∈ sortedRanks g
          ↔ ∃ n, n ∈ PositionedGraph.nodes g ∧ nodeRank n = r)
  ∧ (∀ r bucket, rankBuckets g !! r = Some bucket →
       bucket ≡ₚ rankNodes g r
       ∧ Sorted (λ a b, PositionedNode.x a <= PositionedNode.x b) bucket
       ∧ (∀ q, filter (λ n, PositionedNode.x n == q) bucket
               = filter (λ n, PositionedNode.x n == q) (rankNodes g r)))
  ∧ StronglySorted visitEarlier (visits g)
  ∧ ElementDelays.nodes (computeDelays g o)
    = (foldl (visit g o) (∅, ∅) (visits g)).1
  ∧ ElementDelays.edges (computeDelays g o)
    = (foldl (visit g o) (∅, ∅) (visits g)).2
  ∧ (∀ r i n,
       slot g r i n →
       (∀ e, e ∈ PositionedGraph.edges g →
             PositionedEdge.target e ≠ PositionedNode.id n) →
       ElementDelays.nodes (computeDelays g o) !! PositionedNode.id n
       = Some (inject_Z r * ResolvedAnimation.stagger o
               + inject_Z (Z.of_nat i) * (ResolvedAnimation.stagger o * 0.5))).
Proof.
  intros Hnd.
  destruct (computeDelays_cascade g o) as (Hnodes & Hedges & _).
  split_and!.
  - apply sortedRanks_ascending.
  - apply sortedRanks_are_node_ranks.
  - apply bucket_sorted_by_x.
  - apply visits_sorted.
  - exact Hnodes.
  - exact Hedges.
  - intros r i n Hslot Hroot. rewrite Hnodes.
    destruct (cascade_at_slot g o r i n Hnd Hslot) as (pre & post & _ & ->).
    unfold cascadeDelay. by rewrite (no_incoming_edges g _ Hroot).
Qed.

Lemma forkGraph_ids_NoDup : NoDup (nodeIds forkGraph).
Proof. apply (bool_decide_unpack _). vm_compute. exact I. Defined.

Lemma forkGraph_slot_A : slot forkGraph 0 1 (box "A" 200 20 (Some 0%Z)).
Proof.
  exists [box "B" 20 20 (Some 0%Z); box "A" 200 20 (Some 0%Z)].
  split; reflexivity.
Defined.

Lemma root_node_delay_is_rank_stagger_witness :
  ElementDelays.nodes (computeDelays forkGraph documented) !! "A"
  = Some (inject_Z 0 * 80 + inject_Z 1 * (80 * 0.5)).
Proof.
  refine (proj2 (proj2 (proj2 (proj2 (proj2 (proj2
    (root_node_delay_is_rank_stagger forkGraph documented
       forkGraph_ids_NoDup))))))
    0%Z 1%nat (box "A" 200 20 (Some 0%Z)) forkGraph_slot_A _).
  intros e He. simpl in He.
  repeat (apply elem_of_cons in He as [->|He]); [discriminate..|].
  by apply elem_of_nil in He.
Defined.

(** C3 fails as stated.  In a top-down layout the ranks advance along [y]
    (a node of a higher rank starts below the end of every node of a lower
    one), and the nodes of a rank are not taken in the order of their [y]:
    [L] comes before [R] because it stands to the left of it, although [R]
    starts higher up, and with a stagger of 80 the node [L] gets the delay
    0 and [R] the delay 40. *)
Lemma top_down_rank_is_not_ordered_by_y :
  ¬ orderedWithinRanksBy PositionedNode.y topDownGraph
  ∧ (∀ a b, a ∈ PositionedGraph.nodes topDownGraph →
            b ∈ PositionedGraph.nodes topDownGraph →
            (nodeRank a < nodeRank b)%Z →
            PositionedNode.y a + PositionedNode.height a
            <= PositionedNode.y b)
  ∧ rankBuckets topDownGraph !! 0%Z
    = Some [tall "L" 20 30 40 (Some 0%Z); tall "R" 200 20 60 (Some 0%Z)]
  ∧ ∃ dL dR,
      ElementDelays.nodes (computeDelays topDownGraph documented) !! "L"
      = Some dL
      ∧ ElementDelays.nodes (computeDelays topDownGraph documented) !! "R"
        = Some dR
      ∧ dL == 0 ∧ dR == 40.
Proof.
  split_and!; [| |reflexivity|].
  - intros Hsorted.
    specialize (Hsorted 0%Z _ eq_refl).
    apply Sorted_inv in Hsorted as [_ Hhd].
    apply HdRel_inv in Hhd. by vm_compute in Hhd.
  - intros a b Ha Hb. simpl in Ha, Hb.
    repeat (apply elem_of_cons in Ha as [->|Ha]);
      try (by apply elem_of_nil in Ha);
      repeat (apply elem_of_cons in Hb as [->|Hb]);
      try (by apply elem_of_nil in Hb);
      vm_compute; intros; done.
  - eexists _, _. split_and!; [vm_compute; reflexivity..|done|done].
Qed.

(** ** The latest end of the incoming edges *)

Lemma latestEdgeEnd_fold_ext o (E E' : gmap nat Q) (incoming : list nat) (a : Q) :
  (∀ ei, ei ∈ incoming → E !! ei = E' !! ei) →
  foldl (λ latest ei,
           Qmax latest (default 0 (E !! ei) + ResolvedAnimation.duration o))
        a incoming
  = foldl (λ latest ei,
             Qmax latest (default 0 (E' !! ei) + ResolvedAnimation.duration o))
          a incoming.
Proof.
  revert a. induction incoming as [|ei l IH]; intros a Hext; simpl; [done|].
  rewrite (Hext ei) by left. apply IH. intros ei' Hei'. apply Hext. by right.
Qed.

Lemma latestEdgeEnd_ext o E E' incoming :
  (∀ ei, ei ∈ incoming → E !! ei = E' !! ei) →
  latestEdgeEnd o E incoming = latestEdgeEnd o E' incoming.
Proof. apply latestEdgeEnd_fold_ext. Qed.

Lemma latestEdgeEnd_fold o (E : gmap nat Q) (incoming : list nat) (a : Q) :
  let latest :=
    foldl (λ latest ei,
             Qmax latest (default 0 (E !! ei) + ResolvedAnimation.duration o))
          a incoming in
  a <= latest
  ∧ (∀ ei, ei ∈ incoming →
       default 0 (E !! ei) + ResolvedAnimation.duration o <= latest)
  ∧ (latest == a
     ∨ ∃ ei, ei ∈ incoming
             ∧ latest == default 0 (E !! ei) + ResolvedAnimation.duration o).
Proof.
  revert a. induction incoming as [|ei l IH]; intros a; simpl.
  - split_and!; [apply Qle_refl| |by left]. by intros ? ?%elem_of_nil.
  - destruct (IH (Qmax a (default 0 (E !! ei) + ResolvedAnimation.duration o)))
      as (Hge & Hall & Hattained).
    split_and!.
    + eapply Qle_trans; [apply Q.le_max_l|exact Hge].
    + intros ei' [->|Hei']%elem_of_cons; [|by apply Hall].
      eapply Qle_trans; [apply Q.le_max_r|exact Hge].
    + destruct Hattained as [Heq|(ei' & Hei' & Heq)].
      * destruct (Q.max_spec a
          (default 0 (E !! ei) + ResolvedAnimation.duration o))
          as [[_ Hmax]|[_ Hmax]].
        -- right. exists ei. split; [left|]. exact (Qeq_trans _ _ _ Heq Hmax).
        -- left. exact (Qeq_trans _ _ _ Heq Hmax).
      * right. exists ei'. split; [by right|done].
Qed.

Lemma latestEdgeEnd_spec o E incoming :
  0 <= latestEdgeEnd o E incoming
  ∧ (∀ ei, ei ∈ incoming →
       default 0 (E !! ei) + ResolvedAnimation.duration o
       <= latestEdgeEnd o E incoming)
  ∧ (latestEdgeEnd o E incoming == 0
     ∨ ∃ ei, ei ∈ incoming
             ∧ latestEdgeEnd o E incoming
               == default 0 (E !! ei) + ResolvedAnimation.duration o).
Proof. apply (latestEdgeEnd_fold o E incoming 0). Qed.

(** Once the source of an edge has been visited, and no node shares its
    id, the delay of the edge is settled. *)
Lemma edge_settled g o pre v post w ei e :
  NoDup (nodeIds g) → visits g = pre ++ v :: post → w ∈ pre →
  PositionedGraph.edges g !! ei = Some e →
  PositionedNode.id w.2 = PositionedEdge.source e →
  (cascade g o).2 !! ei = (foldl (visit g o) (∅, ∅) pre).2 !! ei
  ∧ is_Some ((cascade g o).2 !! ei).
Proof.
  intros Hnd Hsplit Hw He Hsrc.
  destruct (NoDup_ids_split g pre v post Hnd Hsplit) as (_ & _ & Hlater).
  assert ((cascade g o).2 !! ei = (foldl (visit g o) (∅, ∅) pre).2 !! ei)
    as Heq.
  { unfold cascade. rewrite Hsplit, foldl_app.
    apply (cascade_edges_frame g o _ _ ei e He).
    intros u Hu. rewrite <- Hsrc. by apply Hlater. }
  split; [done|]. rewrite Heq.
  assert (PositionedEdge.source e ∈ dom (foldl (visit g o) (∅, ∅) pre).1)
    as [d Hd]%elem_of_dom.
  { rewrite cascade_nodes_dom, elem_of_union. right.
    apply elem_of_list_to_set, list_elem_of_fmap. by exists w. }
  exists (d + ResolvedAnimation.duration o).
  by apply (cascade_follows g o _ _ (cascade_initial_follows g o) ei e d).
Qed.

Lemma index_nonneg (i : nat) : 0 <= inject_Z (Z.of_nat i).
Proof. unfold Qle. simpl. lia. Qed.

(** C2, as the code has it: when node ids are distinct and the source of
    every edge that ends in a node is visited before that node (it sits in a
    lower rank, or in the same rank at a smaller index), the delay of the
    node is [latest - duration * nodeOverlap + i * (stagger * 0.5)], where
    [latest] is the largest of 0 and of [delay(edge) + duration] over the
    incoming edges, with the edge delays of the schedule; and if [stagger]
    is not negative the delay of the node is at least
    [delay(edge) + duration - duration * nodeOverlap] for each incoming
    edge: the end of the edge less the overlap, the subtraction the code
    makes. *)
Theorem node_delay_waits_for_visited_sources
    (g : PositionedGraph.t) (o : ResolvedAnimation.t)
    (r : Z) (i : nat) (n : PositionedNode.t) :
  NoDup (nodeIds g) →
  slot g r i n →
  (∃ ei, incomingEdge g n ei) →
  (∀ ei e,
     PositionedGraph.edges g !! ei = Some e →
     PositionedEdge.target e = PositionedNode.id n →
     ∃ rs js src,
       slot g rs js src
       ∧ PositionedNode.id src = PositionedEdge.source e
       ∧ earlier rs js r i) →
  ∃ latest dN,
    ElementDelays.nodes (computeDelays g o) !! PositionedNode.id n = Some dN
    ∧ dN = latest
           - ResolvedAnimation.duration o * ResolvedAnimation.nodeOverlap o
           + inject_Z (Z.of_nat i) * (ResolvedAnimation.stagger o * 0.5)
    ∧ 0 <= latest
    ∧ (∀ ei, incomingEdge g n ei →
         ∃ dE, ElementDelays.edges (computeDelays g o) !! ei = Some dE
               ∧ dE + ResolvedAnimation.duration o <= latest)
    ∧ (latest == 0
       ∨ ∃ ei dE, incomingEdge g n ei
           ∧ ElementDelays.edges (computeDelays g o) !! ei = Some dE
           ∧ latest == dE + ResolvedAnimation.duration o)
    ∧ (0 <= ResolvedAnimation.stagger o →
       ∀ ei dE, incomingEdge g n ei →
         ElementDelays.edges (computeDelays g o) !! ei = Some dE →
         dE + ResolvedAnimation.duration o
         - ResolvedAnimation.duration o * ResolvedAnimation.nodeOverlap o
         <= dN).
Proof.
  intros Hnd Hslot [ei0 Hinc0] Hbefore.
  destruct (computeDelays_cascade g o) as (-> & -> & _).
  destruct (cascade_at_slot g o r i n Hnd Hslot) as (pre & post & Hsplit & HdN).
  set (E := (cascade g o).2) in *.
  set (inc := edgesInto (PositionedNode.id n) 0 (PositionedGraph.edges g)).
  assert (∀ ei, ei ∈ inc ↔ incomingEdge g n ei) as Hinc.
  { intros ei. apply elem_of_edgesInto_0. }
  assert (∀ ei, incomingEdge g n ei →
            E !! ei = (foldl (visit g o) (∅, ∅) pre).2 !! ei
            ∧ is_Some (E !! ei)) as Hsettled.
  { intros ei (e & He & Ht).
    destruct (Hbefore ei e He Ht) as (rs & js & src & Hs & Hid & Hearlier).
    apply (edge_settled g o pre (r, i, n) post (rs, js, src) ei e);
      [done..| |done|done].
    apply (visit_runs_before g pre (r, i, n) post); [done| |done].
    by apply elem_of_visits. }
  assert (cascadeDelay g o r i n (foldl (visit g o) (∅, ∅) pre).2
          = latestEdgeEnd o E inc
            - ResolvedAnimation.duration o * ResolvedAnimation.nodeOverlap o
            + inject_Z (Z.of_nat i) * (ResolvedAnimation.stagger o * 0.5))
    as Hdelay.
  { unfold cascadeDelay. rewrite incomingEdges_lookup. fold inc.
    rewrite (latestEdgeEnd_ext o E (foldl (visit g o) (∅, ∅) pre).2 inc).
    - destruct inc as [|ei l] eqn:Hl; [|done].
      apply Hinc in Hinc0. by apply elem_of_nil in Hinc0.
    - intros ei Hei. by apply Hsettled, Hinc. }
  rewrite Hdelay in HdN.
  destruct (latestEdgeEnd_spec o E inc) as (Hpos & Hall & Hattained).
  assert (∀ ei, incomingEdge g n ei →
            ∃ dE, E !! ei = Some dE
                  ∧ dE + ResolvedAnimation.duration o <= latestEdgeEnd o E inc)
    as Hbound.
  { intros ei Hei. destruct (Hsettled ei Hei) as [_ [dE HdE]].
    exists dE. split; [done|]. apply Hinc in Hei.
    specialize (Hall ei Hei). by rewrite HdE in Hall. }
  eexists _, _. split_and!; [exact HdN|done|done|done| |].
  - destruct Hattained as [?|(ei & Hei & Heq)]; [by left|right].
    apply Hinc in Hei. destruct (Hsettled ei Hei) as [_ [dE HdE]].
    exists ei, dE. split_and!; [done..|]. by rewrite HdE in Heq.
  - intros Hstagger ei dE Hei HdE.
    destruct (Hbound ei Hei) as (dE' & HdE' & Hle).
    rewrite HdE in HdE'. injection HdE' as <-.
    pose proof (Qmult_le_0_compat _ _ (index_nonneg i)
                  (Qmult_le_0_compat _ 0.5 Hstagger ltac:(done))) as Hidx.
    lra.
Qed.

Lemma forkGraph_slot_B : slot forkGraph 0 0 (box "B" 20 20 (Some 0%Z)).
Proof.
  exists [box "B" 20 20 (Some 0%Z); box "A" 200 20 (Some 0%Z)].
  split; reflexivity.
Defined.

Lemma forkGraph_slot_C : slot forkGraph 1 0 (box "C" 110 100 (Some 1%Z)).
Proof. exists [box "C" 110 100 (Some 1%Z)]. split; reflexivity. Defined.

Lemma node_delay_waits_for_visited_sources_witness :
  ∃ latest dN,
    ElementDelays.nodes (computeDelays forkGraph documented) !! "C" = Some dN
    ∧ dN = latest - 600 * 0.3 + inject_Z 0 * (80 * 0.5)
    ∧ 0 <= latest
    ∧ (∀ ei, incomingEdge forkGraph (box "C" 110 100 (Some 1%Z)) ei →
         ∃ dE, ElementDelays.edges (computeDelays forkGraph documented) !! ei
               = Some dE
               ∧ dE + 600 <= latest)
    ∧ (latest == 0
       ∨ ∃ ei dE, incomingEdge forkGraph (box "C" 110 100 (Some 1%Z)) ei
           ∧ ElementDelays.edges (computeDelays forkGraph documented) !! ei
             = Some dE
           ∧ latest == dE + 600)
    ∧ (0 <= 80 →
       ∀ ei dE, incomingEdge forkGraph (box "C" 110 100 (Some 1%Z)) ei →
         ElementDelays.edges (computeDelays forkGraph documented) !! ei
         = Some dE →
         dE + 600 - 600 * 0.3 <= dN).
Proof.
  apply (node_delay_waits_for_visited_sources forkGraph documented
           1 0 (box "C" 110 100 (Some 1%Z))
           forkGraph_ids_NoDup forkGraph_slot_C).
  - exists 0%nat, (arrow "A" "C"). split; reflexivity.
  - intros [|[|ei]] e He Ht; simpl in He.
    + exists 0%Z, 1%nat, (box "A" 200 20 (Some 0%Z)).
      injection He as <-. split_and!; [exact forkGraph_slot_A|reflexivity|].
      left. lia.
    + exists 0%Z, 0%nat, (box "B" 20 20 (Some 0%Z)).
      injection He as <-. split_and!; [exact forkGraph_slot_B|reflexivity|].
      left. lia.
    + discriminate He.
Defined.

Lemma cycleGraph_slot_A : slot cycleGraph 0 0 (box "A" 20 20 (Some 0%Z)).
Proof. exists [box "A" 20 20 (Some 0%Z)]. split; reflexivity. Qed.

Lemma chainGraph_slot_B : slot chainGraph 1 0 (box "B" 20 100 (Some 1%Z)).
Proof. exists [box "B" 20 100 (Some 1%Z)]. split; reflexivity. Qed.

(** C2 fails as stated.  With the back edge [B --> A] the node [A] is
    scheduled before the edge that ends in it: the schedule gives [A] the
    delay 422.5 and the edge the delay 2145.  With a negative [duration]
    the end of the only incoming edge of [B] is -200, and the code takes 0
    instead. *)
Lemma back_edge_breaks_the_cascade_rule :
  ¬ waitsForLatestIncomingEdge cycleGraph DEFAULTS
  ∧ ¬ waitsForLatestIncomingEdge chainGraph (spread negativeDuration)
  ∧ ∃ dA dBA dB dAB,
      ElementDelays.nodes (computeDelays cycleGraph DEFAULTS) !! "A" = Some dA
      ∧ ElementDelays.edges (computeDelays cycleGraph DEFAULTS) !! 1%nat
        = Some dBA
      ∧ dA == 422.5 ∧ dBA == 2145
      ∧ ElementDelays.nodes
          (computeDelays chainGraph (spread negativeDuration)) !! "B" = Some dB
      ∧ ElementDelays.edges
          (computeDelays chainGraph (spread negativeDuration)) !! 0%nat
        = Some dAB
      ∧ dB == 35 ∧ dAB == -100.
Proof.
  split_and!; [| |eexists _, _, _, _; split_and!].
  3,4,7,8: vm_compute; reflexivity.
  3-6: done.
  - intros Hrule.
    destruct (Hrule 0%Z 0%nat _ cycleGraph_slot_A) as
      (latest & dN & HdN & Hall & _ & _ & Hcons).
    { exists 1%nat, (arrow "B" "A"). split; reflexivity. }
    assert (incomingEdge cycleGraph (box "A" 20 20 (Some 0%Z)) 1) as Hinc.
    { exists (arrow "B" "A"). split; reflexivity. }
    destruct (Hall 1%nat Hinc) as (dE & HdE & _).
    specialize (Hcons 1%nat dE Hinc HdE).
    vm_compute in HdN, HdE. injection HdN as <-. injection HdE as <-.
    vm_compute in Hcons. by apply Hcons.
  - intros Hrule.
    destruct (Hrule 1%Z 0%nat _ chainGraph_slot_B) as
      (latest & dN & HdN & Hall & (ei & dE & Hinc & HdE & Hlatest) & HdNeq & _).
    { exists 0%nat, (arrow "A" "B"). split; reflexivity. }
    assert (ei = 0%nat) as ->.
    { destruct Hinc as (e & He & Ht). destruct ei as [|[|ei]]; [done|..].
      - injection He as <-. discriminate Ht.
      - discriminate He. }
    vm_compute in HdN, HdE. injection HdN as <-. injection HdE as <-.
    rewrite Hlatest in HdNeq. vm_compute in HdNeq. discriminate HdNeq.
Qed.

(** ** Every node gets a delay; an absent rank is rank 0 *)

Lemma computeDelays_eq g o :
  computeDelays g o
  = {| ElementDelays.nodes := (cascade g o).1;
       ElementDelays.edges := (cascade g o).2;
       ElementDelays.groups :=
         collectGroupDelays o (PositionedGraph.groups g)
           (PositionedGraph.nodes g) (cascade g o).1 ∅ |}.
Proof.
  unfold computeDelays, cascade, visits. rewrite rankPass_visits.
  by destruct (foldl _ _ _).
Qed.

Lemma filter_fmap_rank (ns : list PositionedNode.t) r :
  filter (λ n, nodeRank n = r) (withRank0 <$> ns)
  = withRank0 <$> filter (λ n, nodeRank n = r) ns.
Proof.
  induction ns as [|n ns IH]; [done|].
  rewrite fmap_cons, !filter_cons.
  change (nodeRank (withRank0 n)) with (nodeRank n).
  destruct (decide (nodeRank n = r)); by rewrite IH.
Qed.

Lemma rankBuckets_withRanks0 g :
  rankBuckets (withRanks0 g)
  = (λ bucket : list PositionedNode.t, withRank0 <$> bucket) <$> rankBuckets g.
Proof.
  apply map_eq. intros r. rewrite lookup_fmap, !rankBuckets_lookup.
  unfold rankNodes. simpl. rewrite filter_fmap_rank.
  destruct (filter _ (PositionedGraph.nodes g)) as [|n l]; [done|].
  simpl. f_equal. by apply (stable_sort_fmap withRank0 byX byX (n :: l)).
Qed.

Lemma visits_withRanks0 g :
  visits (withRanks0 g)
  = (λ v : Visit, (v.1, withRank0 v.2)) <$> visits g.
Proof.
  unfold visits, sortedRanks. rewrite rankBuckets_withRanks0, dom_fmap_L.
  generalize (stable_sort Z.leb (elements (dom (rankBuckets g)))).
  intros ranks. induction ranks as [|r ranks IH]; [done|].
  rewrite !bind_cons, fmap_app, IH. f_equal.
  rewrite lookup_fmap. destruct (rankBuckets g !! r) as [bucket|]; [|done].
  simpl. unfold bucketVisits. by rewrite imap_fmap, fmap_imap.
Qed.

Lemma cascade_withRanks0 g o : cascade (withRanks0 g) o = cascade g o.
Proof.
  unfold cascade. rewrite visits_withRanks0, foldl_fmap.
  generalize (∅ : gmap string Q, ∅ : gmap nat Q). generalize (visits g).
  intros vs. induction vs as [|v vs IH]; intros st; [done|]. apply IH.
Qed.

Lemma maxDelayIn_withRank0 ns N grp :
  maxDelayIn (withRank0 <$> ns) N grp = maxDelayIn ns N grp.
Proof. unfold maxDelayIn. by rewrite foldl_fmap. Qed.

Lemma PositionedGroup_ind (P : PositionedGroup.t → Prop) :
  (∀ id label x y width height children,
     Forall P children →
     P (PositionedGroup.mk id label x y width height children)) →
  ∀ group, P group.
Proof.
  intros Hmk. fix IH 1. intros [id label x y width height children].
  apply Hmk.
  exact ((fix all (gs : list PositionedGroup.t) : Forall P gs :=
            match gs with
            | [] => @List.Forall_nil _ P
            | g :: gs' => @List.Forall_cons _ P g gs' (IH g) (all gs')
            end) children).
Qed.

Lemma collectGroupDelay_eq o ns N group out :
  collectGroupDelay o ns N group out
  = <[PositionedGroup.id group :=
        maxDelayIn ns N group
        + ResolvedAnimation.duration o * GROUP_REVEAL_PROGRESS
        + ResolvedAnimation.groupDelay o]>
      (collectGroupDelays o (PositionedGroup.children group) ns N out).
Proof.
  destruct group as [id label x y width height children]. simpl.
  f_equal. revert out. induction children as [|c cs IH]; intros out; [done|].
  simpl. apply IH.
Qed.

Lemma collectGroupDelays_withRank0 o gs ns N out :
  collectGroupDelays o gs (withRank0 <$> ns) N out
  = collectGroupDelays o gs ns N out.
Proof.
  revert out. induction gs as [|g gs IHgs]; intros out; [done|].
  simpl. rewrite IHgs. f_equal. revert out.
  induction g as [id label x y width height children IHc]
    using PositionedGroup_ind.
  intros out. rewrite !collectGroupDelay_eq, maxDelayIn_withRank0. f_equal.
  simpl. clear -IHc. revert out.
  induction IHc as [|c cs Hc _ IHcs]; intros out; [done|].
  simpl. by rewrite Hc, IHcs.
Qed.

(** C9: the keys of the node-delay map are exactly the ids of the nodes of
    the layout; a node whose rank is absent sits in the bucket of rank 0;
    and writing 0 for every absent rank leaves the schedule as it is. *)
Theorem every_node_gets_a_delay
    (g : PositionedGraph.t) (o : ResolvedAnimation.t) :
  dom (ElementDelays.nodes (computeDelays g o)) = list_to_set (nodeIds g)
  ∧ (∀ n, n ∈ PositionedGraph.nodes g → PositionedNode.rank n = None →
          ∃ i, slot g 0 i n)
  ∧ computeDelays (withRanks0 g) o = computeDelays g o.
Proof.
  split_and!.
  - destruct (computeDelays_cascade g o) as (-> & _).
    unfold cascade. rewrite cascade_nodes_dom. simpl.
    rewrite dom_empty_L, (left_id_L ∅ (∪)).
    apply set_eq. intros k. rewrite !elem_of_list_to_set. apply visits_ids.
  - intros n Hn Hrank. destruct (node_slot g n Hn) as [i Hi].
    exists i. unfold nodeRank in Hi. by rewrite Hrank in Hi.
  - rewrite !computeDelays_eq, cascade_withRanks0. f_equal.
    apply collectGroupDelays_withRank0.
Qed.

(** ** Group delays *)

Lemma groupAndBelow_eq group :
  groupAndBelow group
  = allGroups (PositionedGroup.children group) ++ [group].
Proof.
  by destruct group as [id label x y width height children].
Qed.

Lemma allGroups_cons g gs :
  allGroups (g :: gs) = groupAndBelow g ++ allGroups gs.
Proof. done. Qed.

Lemma collectGroupDelays_cons o g gs ns N out :
  collectGroupDelays o (g :: gs) ns N out
  = collectGroupDelays o gs ns N (collectGroupDelay o ns N g out).
Proof. done. Qed.

Lemma collectGroupDelay_foldl o ns N group out :
  collectGroupDelay o ns N group out
  = foldl (λ out group,
             <[PositionedGroup.id group := revealDelay o ns N group]> out)
          out (groupAndBelow group).
Proof.
  revert out.
  induction group as [id label x y width height children IHc]
    using PositionedGroup_ind.
  intros out. rewrite collectGroupDelay_eq, groupAndBelow_eq, foldl_app.
  cbn [foldl PositionedGroup.children PositionedGroup.id].
  unfold revealDelay at 2. f_equal. revert out.
  induction IHc as [|c cs Hc _ IHcs]; intros out; [done|].
  by rewrite allGroups_cons, foldl_app, collectGroupDelays_cons, Hc, IHcs.
Qed.

Lemma collectGroupDelays_foldl o gs ns N out :
  collectGroupDelays o gs ns N out
  = foldl (λ out group,
             <[PositionedGroup.id group := revealDelay o ns N group]> out)
          out (allGroups gs).
Proof.
  revert out. induction gs as [|g gs IHgs]; intros out; [done|].
  by rewrite allGroups_cons, foldl_app, collectGroupDelays_cons,
    collectGroupDelay_foldl, IHgs.
Qed.

Lemma foldl_insert_lookup {A V} (key : A → string) (val : A → V)
    (l : list A) (m : gmap string V) (a : A) :
  NoDup (key <$> l) → a ∈ l →
  foldl (λ m a, <[key a := val a]> m) m l !! key a = Some (val a).
Proof.
  revert m. induction l as [|b l IH]; intros m Hnd Ha.
  - by apply elem_of_nil in Ha.
  - rewrite fmap_cons in Hnd. apply NoDup_cons in Hnd as [Hb Hnd].
    apply elem_of_cons in Ha as [->|Ha]; simpl; [|by apply IH].
    rewrite (foldl_invariant (λ m', m' !! key b = Some (val b))); [done| |].
    + apply lookup_insert_eq.
    + intros m' c Hc Hm'. rewrite lookup_insert_ne; [done|].
      intros Heq. apply Hb. rewrite <- Heq. apply list_elem_of_fmap.
      by exists c.
Qed.

Lemma foldl_insert_values {A V} (key : A → string) (val : A → V)
    (P : V → Prop) (l : list A) (m : gmap string V) :
  (∀ k v, m !! k = Some v → P v) → (∀ a, a ∈ l → P (val a)) →
  ∀ k v, foldl (λ m a, <[key a := val a]> m) m l !! k = Some v → P v.
Proof.
  intros Hm Hl.
  apply (foldl_invariant (λ m', ∀ k v, m' !! k = Some v → P v)); [done|].
  intros m' a Ha Hm' k v. destruct (decide (key a = k)) as [<-|Hne].
  - rewrite lookup_insert_eq. intros [= <-]. by apply Hl.
  - rewrite lookup_insert_ne by done. apply Hm'.
Qed.

Lemma maxDelayIn_fold (ns : list PositionedNode.t) (N : gmap string Q)
    (group : PositionedGroup.t) (a : Q) :
  let latest :=
    foldl (λ maxDelay node,
             match N !! PositionedNode.id node with
             | None => maxDelay
             | Some nd =>
                 if inside node group && negb (Qle_bool nd maxDelay)
                 then nd else maxDelay
             end) a ns in
  a <= latest
  ∧ (∀ n nd, n ∈ ns → inside n group = true →
       N !! PositionedNode.id n = Some nd → nd <= latest)
  ∧ (latest = a
     ∨ ∃ n, n ∈ ns ∧ inside n group = true
            ∧ N !! PositionedNode.id n = Some latest).
Proof.
  revert a. induction ns as [|n ns IH]; intros a; simpl.
  - split_and!; [apply Qle_refl| |by left]. by intros ? ? ?%elem_of_nil.
  - set (a' := match N !! PositionedNode.id n with
               | None => a
               | Some nd =>
                   if inside n group && negb (Qle_bool nd a) then nd else a
               end).
    assert (a <= a'
            ∧ (∀ nd, inside n group = true →
                 N !! PositionedNode.id n = Some nd → nd <= a')
            ∧ (a' = a ∨ (inside n group = true
                         ∧ N !! PositionedNode.id n = Some a')))
      as (Ha & Hn & Hor).
    { unfold a'. destruct (N !! PositionedNode.id n) as [nd|].
      - destruct (inside n group); simpl.
        + destruct (Qle_bool nd a) eqn:Hle; simpl.
          * apply Qle_bool_iff in Hle. split_and!; [apply Qle_refl| |by left].
            by intros ? _ [= <-].
          * assert (a < nd) as Hlt.
            { apply Qnot_le_lt. intros H%Qle_bool_iff. congruence. }
            split_and!; [by apply Qlt_le_weak| |by right].
            intros ? _ [= <-]. apply Qle_refl.
        + split_and!; [apply Qle_refl|done|by left].
      - split_and!; [apply Qle_refl|done|by left]. }
    destruct (IH a') as (Hge & Hall & Hattained). split_and!.
    + by eapply Qle_trans.
    + intros n' nd [->|Hn']%elem_of_cons Hin Hnd; [|by eapply Hall].
      eapply Qle_trans; [by apply Hn|done].
    + destruct Hattained as [->|(n' & ? & ? & ?)].
      * destruct Hor as [?|[? ?]]; [by left|right].
        exists n. split; [left|done].
      * right. exists n'. split; [by right|done].
Qed.

Lemma maxDelayIn_spec ns N group :
  0 <= maxDelayIn ns N group
  ∧ (∀ n nd, n ∈ ns → inside n group = true →
       N !! PositionedNode.id n = Some nd → nd <= maxDelayIn ns N group)
  ∧ (maxDelayIn ns N group = 0
     ∨ ∃ n, n ∈ ns ∧ inside n group = true
            ∧ N !! PositionedNode.id n = Some (maxDelayIn ns N group)).
Proof. apply (maxDelayIn_fold ns N group 0). Qed.

(** C4, as the code has it: when group ids are distinct, the delay of a
    group is [latest + duration * 0.6 + groupDelay], where [latest] is the
    largest of 0 and of the delays of the nodes whose box lies inside the
    box of the group; and when neither [duration] nor [groupDelay] is
    negative, the delay of the group is at least the delay of each such
    node. *)
Theorem group_delay_follows_its_nodes
    (g : PositionedGraph.t) (o : ResolvedAnimation.t)
    (group : PositionedGroup.t) :
  NoDup (groupIds g) →
  group ∈ allGroups (PositionedGraph.groups g) →
  ∃ latest dG,
    ElementDelays.groups (computeDelays g o) !! PositionedGroup.id group
    = Some dG
    ∧ dG = latest + ResolvedAnimation.duration o * GROUP_REVEAL_PROGRESS
           + ResolvedAnimation.groupDelay o
    ∧ GROUP_REVEAL_PROGRESS == 6 # 10
    ∧ 0 <= latest
    ∧ (∀ n nd, n ∈ PositionedGraph.nodes g → inside n group = true →
         ElementDelays.nodes (computeDelays g o) !! PositionedNode.id n
         = Some nd →
         nd <= latest)
    ∧ (latest = 0
       ∨ ∃ n, n ∈ PositionedGraph.nodes g ∧ inside n group = true
              ∧ ElementDelays.nodes (computeDelays g o) !! PositionedNode.id n
                = Some latest)
    ∧ (0 <= ResolvedAnimation.duration o →
       0 <= ResolvedAnimation.groupDelay o →
       ∀ n nd, n ∈ PositionedGraph.nodes g → inside n group = true →
         ElementDelays.nodes (computeDelays g o) !! PositionedNode.id n
         = Some nd →
         nd <= dG).
Proof.
  intros Hnd Hgroup. rewrite computeDelays_eq. simpl.
  set (N := (cascade g o).1).
  destruct (maxDelayIn_spec (PositionedGraph.nodes g) N group)
    as (Hpos & Hall & Hattained).
  exists (maxDelayIn (PositionedGraph.nodes g) N group),
    (revealDelay o (PositionedGraph.nodes g) N group).
  split_and!; [|reflexivity|reflexivity|done|done|done|].
  - rewrite collectGroupDelays_foldl.
    apply (foldl_insert_lookup PositionedGroup.id
             (revealDelay o (PositionedGraph.nodes g) N)); done.
  - intros Hdur Hoffset n nd Hn Hin HN. specialize (Hall n nd Hn Hin HN).
    pose proof (Qmult_le_0_compat _ GROUP_REVEAL_PROGRESS Hdur ltac:(done))
      as Hprogress.
    unfold revealDelay. lra.
Qed.

Lemma chainGraph_group_G :
  frame "G" 0 0 140 160 [] ∈ allGroups (PositionedGraph.groups chainGraph).
Proof. left. Defined.

Lemma chainGraph_groupIds_NoDup : NoDup (groupIds chainGraph).
Proof. apply (bool_decide_unpack _). vm_compute. exact I. Defined.

Lemma group_delay_follows_its_nodes_witness :
  ∃ latest dG,
    ElementDelays.groups (computeDelays chainGraph DEFAULTS) !! "G" = Some dG
    ∧ dG = latest + 650 * GROUP_REVEAL_PROGRESS + 110
    ∧ GROUP_REVEAL_PROGRESS == 6 # 10
    ∧ 0 <= latest
    ∧ (∀ n nd, n ∈ PositionedGraph.nodes chainGraph →
         inside n (frame "G" 0 0 140 160 []) = true →
         ElementDelays.nodes (computeDelays chainGraph DEFAULTS)
           !! PositionedNode.id n = Some nd →
         nd <= latest)
    ∧ (latest = 0
       ∨ ∃ n, n ∈ PositionedGraph.nodes chainGraph
              ∧ inside n (frame "G" 0 0 140 160 []) = true
              ∧ ElementDelays.nodes (computeDelays chainGraph DEFAULTS)
                  !! PositionedNode.id n = Some latest)
    ∧ (0 <= 650 → 0 <= 110 →
       ∀ n nd, n ∈ PositionedGraph.nodes chainGraph →
         inside n (frame "G" 0 0 140 160 []) = true →
         ElementDelays.nodes (computeDelays chainGraph DEFAULTS)
           !! PositionedNode.id n = Some nd →
         nd <= dG).
Proof.
  exact (group_delay_follows_its_nodes chainGraph DEFAULTS
           (frame "G" 0 0 140 160 [])
           chainGraph_groupIds_NoDup chainGraph_group_G).
Defined.

(** C4 fails as stated.  With [duration = 50] and [groupDelay = -60] the
    group [G] is revealed at 52.5 although the node [B] inside it is
    revealed at 82.5. *)
Lemma negative_group_offset_reveals_group_early :
  ¬ groupsRevealAfterTheirNodes chainGraph (spread quickReveal)
  ∧ ∃ nd dG,
      ElementDelays.nodes (computeDelays chainGraph (spread quickReveal)) !! "B"
      = Some nd
      ∧ ElementDelays.groups (computeDelays chainGraph (spread quickReveal))
          !! "G" = Some dG
      ∧ nd == 82.5 ∧ dG == 52.5.
Proof.
  split; [|eexists _, _; split_and!; [vm_compute; reflexivity..|done|done]].
  intros Hrule.
  destruct (ElementDelays.nodes (computeDelays chainGraph (spread quickReveal))
              !! "B") as [nd|] eqn:Hn; [|by vm_compute in Hn].
  destruct (ElementDelays.groups (computeDelays chainGraph (spread quickReveal))
              !! "G") as [dG|] eqn:Hg; [|by vm_compute in Hg].
  pose proof (Hrule (frame "G" 0 0 140 160 []) (box "B" 20 100 (Some 1%Z))
                nd dG chainGraph_group_G
                ltac:(right; left) eq_refl Hn Hg) as Hle.
  vm_compute in Hn, Hg. injection Hn as <-. injection Hg as <-.
  vm_compute in Hle. by apply Hle.
Qed.

(** ** Signs of the delays *)

Lemma rank_nonneg (r : Z) : (0 <= r)%Z → 0 <= inject_Z r.
Proof. intros Hr. unfold Qle. simpl. lia. Qed.

Lemma cascadeDelay_nonneg g o r i n (E : gmap nat Q) :
  0 <= ResolvedAnimation.duration o →
  0 <= ResolvedAnimation.stagger o →
  ResolvedAnimation.nodeOverlap o <= 1 →
  (0 <= r)%Z →
  (∀ ei d, E !! ei = Some d → 0 <= d) →
  0 <= cascadeDelay g o r i n E.
Proof.
  intros Hdur Hstagger Hoverlap Hr HE. unfold cascadeDelay, withinRankStagger.
  pose proof (Qmult_le_0_compat _ _ (index_nonneg i)
                (Qmult_le_0_compat _ 0.5 Hstagger ltac:(done))) as Hidx.
  pose proof (Qmult_le_0_compat _ _ (rank_nonneg r Hr) Hstagger) as Hrank.
  destruct (incomingEdges g !! PositionedNode.id n) as [[|ei l]|]; [lra| |lra].
  destruct (latestEdgeEnd_spec o E (ei :: l)) as (_ & Hall & _).
  specialize (Hall ei ltac:(left)).
  assert (0 <= default 0 (E !! ei)) as Hei.
  { destruct (E !! ei) as [d|] eqn:Hd; simpl; [by eapply HE|done]. }
  assert (0 <= ResolvedAnimation.duration o
               * (1 - ResolvedAnimation.nodeOverlap o)) as Hrest.
  { apply Qmult_le_0_compat; [done|lra]. }
  lra.
Qed.

(** C5, as the code has it: when [duration] and [stagger] are not negative,
    [nodeOverlap] is at most 1, [duration * 0.6 + groupDelay] is not
    negative and no node has a negative rank, no delay of the schedule is
    negative. *)
Theorem delays_are_nonnegative_for_nonnegative_options
    (g : PositionedGraph.t) (o : ResolvedAnimation.t) :
  0 <= ResolvedAnimation.duration o →
  0 <= ResolvedAnimation.stagger o →
  ResolvedAnimation.nodeOverlap o <= 1 →
  0 <= ResolvedAnimation.duration o * GROUP_REVEAL_PROGRESS
       + ResolvedAnimation.groupDelay o →
  (∀ n, n ∈ PositionedGraph.nodes g → (0 <= nodeRank n)%Z) →
  allDelaysNonNegative (computeDelays g o).
Proof.
  intros Hdur Hstagger Hoverlap Hoffset Hranks.
  rewrite computeDelays_eq. unfold allDelaysNonNegative. simpl.
  assert ((∀ k d, (cascade g o).1 !! k = Some d → 0 <= d)
          ∧ (∀ ei d, (cascade g o).2 !! ei = Some d → 0 <= d)) as [HN HE].
  { unfold cascade.
    apply (foldl_invariant
             (λ st : Cascade, (∀ k d, st.1 !! k = Some d → 0 <= d)
                              ∧ (∀ ei d, st.2 !! ei = Some d → 0 <= d))).
    { split; intros ? ?; simpl; by rewrite lookup_empty. }
    intros [N E] [[r i] n] Hv [HN HE]. rewrite visit_eq. simpl in *.
    apply elem_of_visits, slot_node in Hv as [Hn <-].
    pose proof (cascadeDelay_nonneg g o (nodeRank n) i n E Hdur Hstagger
                  Hoverlap (Hranks n Hn) HE) as Hd.
    split.
    - intros k d. destruct (decide (PositionedNode.id n = k)) as [<-|Hne].
      + rewrite lookup_insert_eq. by intros [= <-].
      + rewrite lookup_insert_ne by done. apply HN.
    - intros ei d. rewrite outgoingLoop_lookup.
      destruct (PositionedGraph.edges g !! ei) as [e|]; [|apply HE].
      case_decide; [|apply HE]. intros [= <-]. lra. }
  split_and!; [done..|].
  rewrite collectGroupDelays_foldl.
  apply (foldl_insert_values PositionedGroup.id
           (revealDelay o (PositionedGraph.nodes g) (cascade g o).1)
           (λ d, 0 <= d)).
  - intros k d. by rewrite lookup_empty.
  - intros group _. unfold revealDelay.
    destruct (maxDelayIn_spec (PositionedGraph.nodes g) (cascade g o).1 group)
      as (Hpos & _). lra.
Qed.

Lemma delays_are_nonnegative_for_nonnegative_options_witness :
  allDelaysNonNegative (computeDelays chainGraph documented).
Proof.
  apply delays_are_nonnegative_for_nonnegative_options.
  - by vm_compute.
  - by vm_compute.
  - by vm_compute.
  - by vm_compute.
  - intros n Hn. simpl in Hn.
    repeat (apply elem_of_cons in Hn as [->|Hn]); [by vm_compute..|].
    by apply elem_of_nil in Hn.
Defined.

(** C5 fails as stated.  With [groupDelay = -5000] the group [G] gets a
    negative delay. *)
Lemma negative_group_offset_gives_negative_delay :
  ¬ allDelaysNonNegative (computeDelays chainGraph (spread earlyGroups))
  ∧ ∃ dG,
      ElementDelays.groups (computeDelays chainGraph (spread earlyGroups))
        !! "G" = Some dG
      ∧ dG == -3537.5.
Proof.
  split; [|eexists; split; [vm_compute; reflexivity|done]].
  intros (_ & _ & Hgroups).
  destruct (ElementDelays.groups (computeDelays chainGraph (spread earlyGroups))
              !! "G") as [dG|] eqn:Hg; [|by vm_compute in Hg].
  specialize (Hgroups "G" dG Hg).
  vm_compute in Hg. injection Hg as <-. vm_compute in Hgroups.
  by apply Hgroups.
Qed.

(** ** Option resolution *)

(** C8, as the code has it: resolving an options object never fails and
    never changes a value: each numeric field of the resolved options is the
    value that was passed when one was passed, and the default (650, 0, 110,
    0.35) otherwise; so the resolved options are in range exactly when the
    values passed, or the defaults that stand in for them, are. *)
Theorem resolveAnimation_keeps_the_values_passed (o : AnimationOptions.t) :
  ∃ r,
    resolveAnimation (AnimateOptions o) = Some r
    ∧ ResolvedAnimation.duration r = default 650 (AnimationOptions.duration o)
    ∧ ResolvedAnimation.stagger r = default 0 (AnimationOptions.stagger o)
    ∧ ResolvedAnimation.groupDelay r
      = default 110 (AnimationOptions.groupDelay o)
    ∧ ResolvedAnimation.nodeOverlap r
      = default 0.35 (AnimationOptions.nodeOverlap o)
    ∧ (inRange r
       ↔ 0 <= default 650 (AnimationOptions.duration o)
         ∧ 0 <= default 0.35 (AnimationOptions.nodeOverlap o)
         ∧ default 0.35 (AnimationOptions.nodeOverlap o) <= 1).
Proof. exists (spread o). by split_and!. Qed.

(** C8 fails as stated: a negative [duration] and a [nodeOverlap] above 1
    come out of the resolution as they went in. *)
Lemma out_of_range_options_are_not_clamped :
  (∃ r, resolveAnimation (AnimateOptions negativeDuration) = Some r
        ∧ ResolvedAnimation.duration r = -100
        ∧ ¬ inRange r)
  ∧ (∃ r, resolveAnimation (AnimateOptions wideOverlap) = Some r
          ∧ ResolvedAnimation.nodeOverlap r = 1.5
          ∧ ¬ inRange r).
Proof.
  split.
  - exists (spread negativeDuration). split_and!; [done..|].
    intros (Hdur & _). by vm_compute in Hdur.
  - exists (spread wideOverlap). split_and!; [done..|].
    intros (_ & _ & Hoverlap). by vm_compute in Hoverlap.
Qed.

(** ** The easing translator *)

(** Each named easing and the [cubic-bezier] expression of its control
    points translate to the same value. *)
Lemma named_easings_match_their_control_points :
  Forall (λ p : string * string, cssEasingToSmil p.1 = cssEasingToSmil p.2)
    [ ("ease", "cubic-bezier(0.25, 0.1, 0.25, 1)");
      ("ease-in", "cubic-bezier(0.42, 0, 1, 1)");
      ("ease-out", "cubic-bezier(0, 0, 0.58, 1)");
      ("ease-in-out", "cubic-bezier(0.42, 0, 0.58, 1)");
      ("linear", "cubic-bezier(0, 0, 1, 1)") ].
Proof. repeat constructor. Qed.

(** C7: the named curve [ease-in-out] is found in the table, the
    expression [cubic-bezier(0.42, 0, 0.58, 1)] is not and goes through the
    pattern, and both give the control points [0.42 0 0.58 1]. *)
Theorem ease_in_out_equals_its_cubic_bezier :
  assoc "ease-in-out" NAMED_EASINGS = Some "0.42 0 0.58 1"
  ∧ assoc "cubic-bezier(0.42, 0, 0.58, 1)" NAMED_EASINGS = None
  ∧ matchCubicBezier "cubic-bezier(0.42, 0, 0.58, 1)"
    = Some ("0.42", "0", "0.58", "1")
  ∧ cssEasingToSmil "ease-in-out" = KeySplines "0.42 0 0.58 1"
  ∧ cssEasingToSmil "cubic-bezier(0.42, 0, 0.58, 1)"
    = KeySplines "0.42 0 0.58 1".
Proof.
  split_and!.
  - reflexivity.
  - reflexivity.
  - reflexivity.
  - unfold cssEasingToSmil.
    by assert (assoc "ease-in-out" NAMED_EASINGS = Some "0.42 0 0.58 1")
      as -> by reflexivity.
  - unfold cssEasingToSmil.
    assert (assoc "cubic-bezier(0.42, 0, 0.58, 1)" NAMED_EASINGS = None)
      as -> by reflexivity.
    assert (bool_decide
              ("cubic-bezier(0.42, 0, 0.58, 1)" ∈ objectPrototypeKeys) = false)
      as -> by reflexivity.
    by assert (matchCubicBezier "cubic-bezier(0.42, 0, 0.58, 1)"
               = Some ("0.42", "0", "0.58", "1")) as -> by reflexivity.
Qed.

(** ** [escapeXml] *)

Lemma append_cons a (s1 s2 : string) :
  String a s1 +:+ s2 = String a (s1 +:+ s2).
Proof. reflexivity. Qed.

Lemma append_empty (s : string) : EmptyString +:+ s = s.
Proof. reflexivity. Qed.

Ltac push_append := rewrite ?append_cons, ?append_empty.

Lemma append_assoc (s1 s2 s3 : string) :
  (s1 +:+ s2) +:+ s3 = s1 +:+ (s2 +:+ s3).
Proof.
  induction s1 as [|a s1 IH]; push_append; [done|]. by rewrite IH.
Qed.

Lemma replaceAll_app c entity s1 s2 :
  replaceAll c entity (s1 +:+ s2)
  = replaceAll c entity s1 +:+ replaceAll c entity s2.
Proof.
  induction s1 as [|a s1 IH]; push_append; simpl; [done|].
  destruct (decide (a = c)); rewrite IH; push_append; [|done].
  by rewrite append_assoc.
Qed.

Lemma escapeXml_cons a text :
  escapeXml (String a text) = entityOf a +:+ escapeXml text.
Proof.
  unfold escapeXml, entityOf. simpl replaceAll at 5.
  destruct (decide (a = ampChar)) as [->|Hamp].
  { by rewrite !replaceAll_app. }
  simpl replaceAll at 4.
  destruct (decide (a = ltChar)) as [->|Hlt].
  { by rewrite !replaceAll_app. }
  simpl replaceAll at 3.
  destruct (decide (a = gtChar)) as [->|Hgt].
  { by rewrite !replaceAll_app. }
  simpl replaceAll at 2.
  destruct (decide (a = quotChar)) as [->|Hquot].
  { by rewrite !replaceAll_app. }
  simpl replaceAll at 1.
  by destruct (decide (a = aposChar)) as [->|Hapos].
Qed.

Lemma escapeXml_escapeEach text : escapeXml text = escapeEach text.
Proof.
  induction text as [|a text IH]; [done|].
  by rewrite escapeXml_cons, IH.
Qed.

Lemma chars_app s1 s2 : chars (s1 +:+ s2) = chars s1 ++ chars s2.
Proof.
  induction s1 as [|a s1 IH]; push_append; simpl; [done|]. by rewrite IH.
Qed.

Lemma entityOf_no_markup a c : c ∈ chars (entityOf a) → c ∉ markup.
Proof.
  unfold entityOf, markup.
  repeat case_decide; simpl; intros Hc Hm;
    repeat (apply elem_of_cons in Hc as [->|Hc]);
    try (by apply elem_of_nil in Hc);
    repeat (apply elem_of_cons in Hm as [Hm|Hm]);
    try (by apply elem_of_nil in Hm); try done.
Qed.

Lemma escapeEach_no_markup text c : c ∈ chars (escapeEach text) → c ∉ markup.
Proof.
  induction text as [|a text IH]; simpl.
  - by intros ?%elem_of_nil.
  - rewrite chars_app, elem_of_app. intros [Hc|Hc]; [|by apply IH].
    by apply (entityOf_no_markup a).
Qed.

Lemma skeleton_app s1 s2 : skeleton (s1 +:+ s2) = skeleton s1 ++ skeleton s2.
Proof. unfold skeleton. by rewrite chars_app, filter_app. Qed.

Lemma skeleton_clean s : (∀ c, c ∈ chars s → c ∉ markup) → skeleton s = [].
Proof.
  unfold skeleton. induction (chars s) as [|c l IH]; intros Hclean; [done|].
  rewrite filter_cons, decide_False by (apply Hclean; left).
  apply IH. intros c' Hc'. apply Hclean. by right.
Qed.

Lemma skeleton_escapeXml text : skeleton (escapeXml text) = [].
Proof.
  apply skeleton_clean. intros c. rewrite escapeXml_escapeEach.
  apply escapeEach_no_markup.
Qed.

(** * Further properties of the scheduler *)

(** ** Which edges and which groups get a delay *)

Lemma visit_edges_keys g o st v :
  (∀ ei, is_Some (st.2 !! ei)
         ↔ ∃ e, PositionedGraph.edges g !! ei = Some e
                ∧ PositionedEdge.source e ∈ dom st.1) →
  ∀ ei, is_Some ((visit g o st v).2 !! ei)
        ↔ ∃ e, PositionedGraph.edges g !! ei = Some e
               ∧ PositionedEdge.source e ∈ dom (visit g o st v).1.
Proof.
  destruct st as [N E], v as [[r i] n]. intros Hinv ei.
  rewrite visit_eq. simpl in *. rewrite outgoingLoop_lookup, dom_insert_L.
  specialize (Hinv ei).
  destruct (PositionedGraph.edges g !! ei) as [e|] eqn:He.
  - case_decide as Hsrc.
    + split; [|by eauto]. intros _. exists e. split; [done|].
      rewrite Hsrc. by apply elem_of_union_l, elem_of_singleton.
    + rewrite Hinv. split.
      * intros (e' & Heq & Hin). exists e'. split; [done|].
        by apply elem_of_union_r.
      * intros (e' & Heq & Hin). exists e'. split; [done|].
        apply elem_of_union in Hin as [Hin|Hin]; [|done].
        apply elem_of_singleton in Hin. congruence.
  - rewrite Hinv. split; intros (e' & ? & _); done.
Qed.

Lemma cascade_edge_keys g o ei :
  is_Some ((cascade g o).2 !! ei)
  ↔ ∃ e, PositionedGraph.edges g !! ei = Some e
         ∧ PositionedEdge.source e ∈ dom (cascade g o).1.
Proof.
  revert ei. unfold cascade.
  apply (foldl_invariant
           (λ st : Cascade,
              ∀ ei, is_Some (st.2 !! ei)
                    ↔ ∃ e, PositionedGraph.edges g !! ei = Some e
                           ∧ PositionedEdge.source e ∈ dom st.1)).
  - intros ei. simpl. rewrite lookup_empty, dom_empty_L. split.
    + by intros [? ?].
    + intros (e & _ & Hin). by apply not_elem_of_empty in Hin.
  - intros st v _. apply visit_edges_keys.
Qed.

(** X1: an edge has a delay exactly when its source is the id of a node of
    the layout; an edge that leaves an unknown node gets none. *)
Theorem edge_has_delay_iff_source_is_a_node
    (g : PositionedGraph.t) (o : ResolvedAnimation.t) (ei : nat) :
  ei ∈ dom (ElementDelays.edges (computeDelays g o))
  ↔ ∃ e, PositionedGraph.edges g !! ei = Some e
         ∧ PositionedEdge.source e ∈ nodeIds g.
Proof.
  destruct (computeDelays_cascade g o) as (_ & -> & _).
  rewrite elem_of_dom, cascade_edge_keys. unfold cascade at 1.
  rewrite cascade_nodes_dom. simpl. rewrite dom_empty_L, (left_id_L ∅ (∪)).
  split; intros (e & He & Hin); exists e; (split; [done|]).
  - apply elem_of_list_to_set in Hin. by apply visits_ids.
  - apply elem_of_list_to_set. by apply visits_ids.
Qed.

(** X17: the delay of an edge depends on its source alone: two edges that
    leave the same node have the same delay, or both have none. *)
Theorem edges_from_one_node_start_together
    (g : PositionedGraph.t) (o : ResolvedAnimation.t)
    (ei ej : nat) (e1 e2 : PositionedEdge.t) :
  PositionedGraph.edges g !! ei = Some e1 →
  PositionedGraph.edges g !! ej = Some e2 →
  PositionedEdge.source e1 = PositionedEdge.source e2 →
  ElementDelays.edges (computeDelays g o) !! ei
  = ElementDelays.edges (computeDelays g o) !! ej.
Proof.
  intros He1 He2 Hsrc.
  destruct (computeDelays_cascade g o) as (_ & -> & _).
  pose proof (cascade_follows g o _ (visits g) (cascade_initial_follows g o))
    as Hfollows. fold (cascade g o) in Hfollows.
  destruct ((cascade g o).1 !! PositionedEdge.source e1) as [d|] eqn:Hd.
  - rewrite (Hfollows ei e1 d He1 Hd).
    rewrite Hsrc in Hd. by rewrite (Hfollows ej e2 d He2 Hd).
  - assert (∀ ek e, PositionedGraph.edges g !! ek = Some e →
              PositionedEdge.source e = PositionedEdge.source e1 →
              (cascade g o).2 !! ek = None) as Hnone.
    { intros ek e He Heq. apply eq_None_not_Some.
      intros (e' & He' & Hin)%cascade_edge_keys.
      rewrite He in He'. injection He' as <-.
      apply elem_of_dom in Hin as [d' Hd']. congruence. }
    by rewrite (Hnone ei e1), (Hnone ej e2).
Qed.

Lemma edges_from_one_node_start_together_witness :
  ElementDelays.edges (computeDelays fanGraph documented) !! 0%nat
  = ElementDelays.edges (computeDelays fanGraph documented) !! 1%nat.
Proof.
  apply (edges_from_one_node_start_together fanGraph documented
           0 1 (arrow "A" "B") (arrow "A" "C")); reflexivity.
Defined.

Lemma foldl_insert_dom {A V} (key : A → string) (val : A → V)
    (l : list A) (m : gmap string V) :
  dom (foldl (λ m a, <[key a := val a]> m) m l)
  = dom m ∪ list_to_set (key <$> l).
Proof.
  revert m. induction l as [|a l IH]; intros m.
  - simpl. by rewrite (right_id_L ∅ (∪)).
  - simpl foldl. rewrite IH, fmap_cons, list_to_set_cons, dom_insert_L.
    set_solver.
Qed.

(** X2: the group-delay map has one entry for every group of the forest,
    the nested ones included, and no other. *)
Theorem every_group_gets_a_delay
    (g : PositionedGraph.t) (o : ResolvedAnimation.t) :
  dom (ElementDelays.groups (computeDelays g o)) = list_to_set (groupIds g).
Proof.
  destruct (computeDelays_cascade g o) as (_ & _ & ->).
  rewrite collectGroupDelays_foldl, foldl_insert_dom, dom_empty_L.
  by rewrite (left_id_L ∅ (∪)).
Qed.

(** ** Bounds that the cascade keeps *)

Lemma node_has_delay g o n :
  n ∈ PositionedGraph.nodes g →
  is_Some ((cascade g o).1 !! PositionedNode.id n).
Proof.
  intros Hn. apply elem_of_dom. unfold cascade.
  rewrite cascade_nodes_dom, elem_of_union. right.
  apply elem_of_list_to_set, visits_ids, list_elem_of_fmap. by exists n.
Qed.

(** X3: an edge whose source is visited before its target is honoured on
    its own, whatever the other edges into the target do: with distinct node
    ids and a stagger that is not negative, the edge starts one [duration]
    after its source and the target starts no earlier than
    [delay(edge) + duration - duration * nodeOverlap], the end of the edge
    less the overlap. *)
Theorem forward_edge_is_honoured
    (g : PositionedGraph.t) (o : ResolvedAnimation.t)
    (r : Z) (i : nat) (n : PositionedNode.t)
    (ei : nat) (e : PositionedEdge.t) :
  NoDup (nodeIds g) →
  0 <= ResolvedAnimation.stagger o →
  slot g r i n →
  PositionedGraph.edges g !! ei = Some e →
  PositionedEdge.target e = PositionedNode.id n →
  (∃ rs js src,
     slot g rs js src
     ∧ PositionedNode.id src = PositionedEdge.source e
     ∧ earlier rs js r i) →
  ∃ dS dE dN,
    ElementDelays.nodes (computeDelays g o) !! PositionedEdge.source e = Some dS
    ∧ ElementDelays.edges (computeDelays g o) !! ei = Some dE
    ∧ ElementDelays.nodes (computeDelays g o) !! PositionedNode.id n = Some dN
    ∧ dE = dS + ResolvedAnimation.duration o
    ∧ dE + ResolvedAnimation.duration o
      - ResolvedAnimation.duration o * ResolvedAnimation.nodeOverlap o
      <= dN.
Proof.
  intros Hnd Hstagger Hslot He Ht (rs & js & src & Hsrc & Hid & Hearlier).
  destruct (computeDelays_cascade g o) as (-> & -> & _).
  destruct (cascade_at_slot g o r i n Hnd Hslot) as (pre & post & Hsplit & HdN).
  assert ((rs, js, src) ∈ pre) as Hpre.
  { apply (visit_runs_before g pre (r, i, n) post); [done| |done].
    by apply elem_of_visits. }
  destruct (edge_settled g o pre (r, i, n) post (rs, js, src) ei e
              Hnd Hsplit Hpre He Hid) as [Hsettled _].
  destruct (node_has_delay g o src) as [dS HdS].
  { by apply slot_node in Hsrc as [? _]. }
  rewrite Hid in HdS.
  pose proof (cascade_follows g o _ (visits g) (cascade_initial_follows g o)
                ei e dS He HdS) as HdE.
  fold (cascade g o) in HdE.
  set (Epre := (foldl (visit g o) (∅, ∅) pre).2) in *.
  exists dS, (dS + ResolvedAnimation.duration o),
    (cascadeDelay g o r i n Epre).
  split_and!; [done|done|exact HdN|done|].
  assert (ei ∈ edgesInto (PositionedNode.id n) 0 (PositionedGraph.edges g))
    as Hei by (apply elem_of_edgesInto_0; eauto).
  unfold cascadeDelay, withinRankStagger. rewrite incomingEdges_lookup.
  destruct (edgesInto (PositionedNode.id n) 0 (PositionedGraph.edges g))
    as [|ei0 l] eqn:Hinc; [by apply elem_of_nil in Hei|].
  destruct (latestEdgeEnd_spec o Epre (ei0 :: l)) as (_ & Hall & _).
  specialize (Hall ei Hei). rewrite <- Hsettled, HdE in Hall. simpl in Hall.
  pose proof (Qmult_le_0_compat _ _ (index_nonneg i)
                (Qmult_le_0_compat _ 0.5 Hstagger ltac:(done))) as Hidx.
  lra.
Qed.

Lemma forward_edge_is_honoured_witness :
  ∃ dS dE dN,
    ElementDelays.nodes (computeDelays cycleGraph documented) !! "A" = Some dS
    ∧ ElementDelays.edges (computeDelays cycleGraph documented) !! 0%nat
      = Some dE
    ∧ ElementDelays.nodes (computeDelays cycleGraph documented) !! "B"
      = Some dN
    ∧ dE = dS + 600
    ∧ dE + 600 - 600 * 0.3 <= dN.
Proof.
  apply (forward_edge_is_honoured cycleGraph documented
           1 0 (box "B" 20 100 (Some 1%Z)) 0 (arrow "A" "B")).
  - apply (bool_decide_unpack _). vm_compute. exact I.
  - by vm_compute.
  - exists [box "B" 20 100 (Some 1%Z)]. split; reflexivity.
  - reflexivity.
  - reflexivity.
  - exists 0%Z, 0%nat, (box "A" 20 20 (Some 0%Z)). split_and!.
    + exists [box "A" 20 20 (Some 0%Z)]. split; reflexivity.
    + reflexivity.
    + left. lia.
Defined.

Lemma cascadeDelay_floor g o r i n (E : gmap nat Q) :
  0 <= ResolvedAnimation.stagger o →
  (∀ ei d, E !! ei = Some d → 0 <= d) →
  edgesInto (PositionedNode.id n) 0 (PositionedGraph.edges g) ≠ [] →
  ResolvedAnimation.duration o
  - ResolvedAnimation.duration o * ResolvedAnimation.nodeOverlap o
  <= cascadeDelay g o r i n E.
Proof.
  intros Hstagger HE Hinc. unfold cascadeDelay, withinRankStagger.
  rewrite incomingEdges_lookup.
  destruct (edgesInto (PositionedNode.id n) 0 (PositionedGraph.edges g))
    as [|ei l]; [done|].
  pose proof (Qmult_le_0_compat _ _ (index_nonneg i)
                (Qmult_le_0_compat _ 0.5 Hstagger ltac:(done))) as Hidx.
  destruct (latestEdgeEnd_spec o E (ei :: l)) as (_ & Hall & _).
  specialize (Hall ei ltac:(left)).
  assert (0 <= default 0 (E !! ei)) as Hei.
  { destruct (E !! ei) as [d|] eqn:Hd; simpl; [by eapply HE|done]. }
  lra.
Qed.

(** X4: with options that are not negative, a node with an incoming edge
    never starts before [duration - duration * nodeOverlap], also when the
    edge is a back edge or a self loop whose delay the cascade reads as
    0. *)
Theorem node_with_incoming_edge_waits_one_edge
    (g : PositionedGraph.t) (o : ResolvedAnimation.t)
    (n : PositionedNode.t) :
  0 <= ResolvedAnimation.duration o →
  0 <= ResolvedAnimation.stagger o →
  ResolvedAnimation.nodeOverlap o <= 1 →
  (∀ m, m ∈ PositionedGraph.nodes g → (0 <= nodeRank m)%Z) →
  n ∈ PositionedGraph.nodes g →
  (∃ ei, incomingEdge g n ei) →
  ∃ dN,
    ElementDelays.nodes (computeDelays g o) !! PositionedNode.id n = Some dN
    ∧ ResolvedAnimation.duration o
      - ResolvedAnimation.duration o * ResolvedAnimation.nodeOverlap o
      <= dN.
Proof.
  intros Hdur Hstagger Hoverlap Hranks Hn [ei Hei].
  destruct (computeDelays_cascade g o) as (-> & _).
  destruct (node_has_delay g o n Hn) as [dN HdN]. exists dN. split; [done|].
  assert (edgesInto (PositionedNode.id n) 0 (PositionedGraph.edges g) ≠ [])
    as Hinc.
  { intros Hnil. apply elem_of_edgesInto_0 in Hei. rewrite Hnil in Hei.
    by apply elem_of_nil in Hei. }
  revert dN HdN Hinc. generalize (PositionedNode.id n). intros k dN HdN Hinc.
  assert ((∀ k d, (cascade g o).1 !! k = Some d → 0 <= d)
          ∧ (∀ ei d, (cascade g o).2 !! ei = Some d → 0 <= d)
          ∧ (∀ k d, (cascade g o).1 !! k = Some d →
               edgesInto k 0 (PositionedGraph.edges g) ≠ [] →
               ResolvedAnimation.duration o
               - ResolvedAnimation.duration o
                 * ResolvedAnimation.nodeOverlap o <= d))
    as (_ & _ & Hfloor); [|by eapply Hfloor].
  unfold cascade.
  apply (foldl_invariant
           (λ st : Cascade,
              (∀ k d, st.1 !! k = Some d → 0 <= d)
              ∧ (∀ ei d, st.2 !! ei = Some d → 0 <= d)
              ∧ (∀ k d, st.1 !! k = Some d →
                   edgesInto k 0 (PositionedGraph.edges g) ≠ [] →
                   ResolvedAnimation.duration o
                   - ResolvedAnimation.duration o
                     * ResolvedAnimation.nodeOverlap o <= d))).
  { split_and!; intros ? ?; simpl; by rewrite lookup_empty. }
  intros [N E] [[r j] m] Hv (HN & HE & HF). rewrite visit_eq. simpl in *.
  apply elem_of_visits, slot_node in Hv as [Hm <-].
  pose proof (cascadeDelay_nonneg g o (nodeRank m) j m E Hdur Hstagger
                Hoverlap (Hranks m Hm) HE) as Hd.
  split_and!.
  - intros k' d. destruct (decide (PositionedNode.id m = k')) as [<-|Hne].
    + rewrite lookup_insert_eq. by intros [= <-].
    + rewrite lookup_insert_ne by done. apply HN.
  - intros ej d. rewrite outgoingLoop_lookup.
    destruct (PositionedGraph.edges g !! ej) as [e|]; [|apply HE].
    case_decide; [|apply HE]. intros [= <-]. lra.
  - intros k' d. destruct (decide (PositionedNode.id m = k')) as [<-|Hne].
    + rewrite lookup_insert_eq. intros [= <-] Hne.
      by apply cascadeDelay_floor.
    + rewrite lookup_insert_ne by done. apply HF.
Qed.

Lemma node_with_incoming_edge_waits_one_edge_witness :
  ∃ dN,
    ElementDelays.nodes (computeDelays cycleGraph documented) !! "A" = Some dN
    ∧ 600 - 600 * 0.3 <= dN.
Proof.
  apply (node_with_incoming_edge_waits_one_edge cycleGraph documented
           (box "A" 20 20 (Some 0%Z))).
  - by vm_compute.
  - by vm_compute.
  - by vm_compute.
  - intros m Hm. simpl in Hm.
    repeat (apply elem_of_cons in Hm as [->|Hm]); [by vm_compute..|].
    by apply elem_of_nil in Hm.
  - left.
  - exists 1%nat, (arrow "B" "A"). split; reflexivity.
Defined.

(** X5: when [stagger] is 0, as by default, every node without an incoming
    edge starts at 0, whatever its rank and its place in the rank. *)
Theorem roots_start_at_zero_without_stagger
    (g : PositionedGraph.t) (o : ResolvedAnimation.t)
    (n : PositionedNode.t) :
  ResolvedAnimation.stagger o == 0 →
  n ∈ PositionedGraph.nodes g →
  (∀ e, e ∈ PositionedGraph.edges g →
        PositionedEdge.target e ≠ PositionedNode.id n) →
  ∃ dN,
    ElementDelays.nodes (computeDelays g o) !! PositionedNode.id n = Some dN
    ∧ dN == 0.
Proof.
  intros Hstagger Hn Hroot.
  destruct (computeDelays_cascade g o) as (-> & _).
  destruct (node_has_delay g o n Hn) as [dN HdN]. exists dN. split; [done|].
  apply no_incoming_edges in Hroot.
  revert dN HdN Hroot. generalize (PositionedNode.id n). intros k dN HdN Hroot.
  assert (∀ k d, (cascade g o).1 !! k = Some d →
            incomingEdges g !! k = None → d == 0) as Hzero; [|by eapply Hzero].
  unfold cascade.
  apply (foldl_invariant
           (λ st : Cascade,
              ∀ k d, st.1 !! k = Some d →
                incomingEdges g !! k = None → d == 0)).
  { intros ? ?. simpl. by rewrite lookup_empty. }
  intros [N E] [[r j] m] _ HN k' d. rewrite visit_eq. simpl in *.
  destruct (decide (PositionedNode.id m = k')) as [<-|Hne].
  - rewrite lookup_insert_eq. intros [= <-] Hnone.
    unfold cascadeDelay, withinRankStagger. rewrite Hnone, Hstagger. ring.
  - rewrite lookup_insert_ne by done. apply HN.
Qed.

Lemma roots_start_at_zero_without_stagger_witness :
  ∃ dN,
    ElementDelays.nodes (computeDelays forkGraph DEFAULTS) !! "A" = Some dN
    ∧ dN == 0.
Proof.
  apply (roots_start_at_zero_without_stagger forkGraph DEFAULTS
           (box "A" 200 20 (Some 0%Z))).
  - reflexivity.
  - left.
  - intros e He. simpl in He.
    repeat (apply elem_of_cons in He as [->|He]); [discriminate..|].
    by apply elem_of_nil in He.
Defined.

(** ** Group delays: empty groups and nested groups *)

Lemma group_delay_lookup g o group :
  NoDup (groupIds g) →
  group ∈ allGroups (PositionedGraph.groups g) →
  ElementDelays.groups (computeDelays g o) !! PositionedGroup.id group
  = Some (revealDelay o (PositionedGraph.nodes g) (cascade g o).1 group).
Proof.
  intros Hnd Hgroup. destruct (computeDelays_cascade g o) as (_ & _ & ->).
  rewrite collectGroupDelays_foldl.
  by apply (foldl_insert_lookup PositionedGroup.id
              (revealDelay o (PositionedGraph.nodes g) (cascade g o).1)).
Qed.

(** X6: a group in whose box no node lies is revealed at
    [duration * 0.6 + groupDelay], group ids being distinct. *)
Theorem empty_group_delay_is_the_offset
    (g : PositionedGraph.t) (o : ResolvedAnimation.t)
    (group : PositionedGroup.t) :
  NoDup (groupIds g) →
  group ∈ allGroups (PositionedGraph.groups g) →
  (∀ n, n ∈ PositionedGraph.nodes g → inside n group = false) →
  ElementDelays.groups (computeDelays g o) !! PositionedGroup.id group
  = Some (0 + ResolvedAnimation.duration o * GROUP_REVEAL_PROGRESS
          + ResolvedAnimation.groupDelay o).
Proof.
  intros Hnd Hgroup Hempty. rewrite group_delay_lookup by done.
  unfold revealDelay.
  destruct (maxDelayIn_spec (PositionedGraph.nodes g) (cascade g o).1 group)
    as (_ & _ & [->|(n & Hn & Hin & _)]); [done|].
  by rewrite (Hempty n Hn) in Hin.
Qed.

(** X8: a group is never revealed before a group whose nodes all lie inside
    it: when every node inside [child] is inside [parent], the delay of
    [parent] is at least the delay of [child]. *)
Theorem enclosing_group_is_revealed_no_earlier
    (g : PositionedGraph.t) (o : ResolvedAnimation.t)
    (parent child : PositionedGroup.t) :
  NoDup (groupIds g) →
  parent ∈ allGroups (PositionedGraph.groups g) →
  child ∈ allGroups (PositionedGraph.groups g) →
  (∀ n, n ∈ PositionedGraph.nodes g →
        inside n child = true → inside n parent = true) →
  ∃ dC dP,
    ElementDelays.groups (computeDelays g o) !! PositionedGroup.id child
    = Some dC
    ∧ ElementDelays.groups (computeDelays g o) !! PositionedGroup.id parent
      = Some dP
    ∧ dC <= dP.
Proof.
  intros Hnd Hparent Hchild Hsub.
  eexists _, _. split_and!; [by apply group_delay_lookup..|].
  unfold revealDelay.
  destruct (maxDelayIn_spec (PositionedGraph.nodes g) (cascade g o).1 parent)
    as (Hpos & Hall & _).
  destruct (maxDelayIn_spec (PositionedGraph.nodes g) (cascade g o).1 child)
    as (_ & _ & [->|(n & Hn & Hin & Hlatest)]); [lra|].
  specialize (Hall n _ Hn (Hsub n Hn Hin) Hlatest). lra.
Qed.

Lemma nestedGraph_groupIds_NoDup : NoDup (groupIds nestedGraph).
Proof. apply (bool_decide_unpack _). vm_compute. exact I. Defined.

Lemma empty_group_delay_is_the_offset_witness :
  ElementDelays.groups (computeDelays nestedGraph documented) !! "E"
  = Some (0 + 600 * GROUP_REVEAL_PROGRESS + -60).
Proof.
  apply (empty_group_delay_is_the_offset nestedGraph documented
           (frame "E" 1000 1000 50 50 []) nestedGraph_groupIds_NoDup).
  - unfold allGroups. simpl. right. right. left.
  - intros n Hn. simpl in Hn.
    repeat (apply elem_of_cons in Hn as [->|Hn]); [reflexivity..|].
    by apply elem_of_nil in Hn.
Defined.

Lemma enclosing_group_is_revealed_no_earlier_witness :
  ∃ dC dP,
    ElementDelays.groups (computeDelays nestedGraph documented) !! "I" = Some dC
    ∧ ElementDelays.groups (computeDelays nestedGraph documented) !! "O"
      = Some dP
    ∧ dC <= dP.
Proof.
  apply (enclosing_group_is_revealed_no_earlier nestedGraph documented
           (frame "O" 0 0 300 300 [frame "I" 10 10 150 100 []])
           (frame "I" 10 10 150 100 []) nestedGraph_groupIds_NoDup).
  - unfold allGroups. simpl. right. left.
  - unfold allGroups. simpl. left.
  - intros n Hn. simpl in Hn.
    repeat (apply elem_of_cons in Hn as [->|Hn]); [reflexivity|discriminate|].
    by apply elem_of_nil in Hn.
Defined.

(** ** The schedule of a layout drawn anew *)

Lemma sort_insert_fmap_in {A B} (f : A → B) (lebA : A → A → bool)
    (lebB : B → B → bool) (a : A) (l : list A) :
  (∀ b, b ∈ l → lebB (f a) (f b) = lebA a b) →
  sort_insert lebB (f a) (f <$> l) = f <$> sort_insert lebA a l.
Proof.
  induction l as [|b l IH]; intros Hf; [done|].
  rewrite fmap_cons. simpl sort_insert. rewrite (Hf b) by left.
  destruct (lebA a b); [done|]. rewrite fmap_cons, IH; [done|].
  intros b' Hb'. apply Hf. by right.
Qed.

Lemma stable_sort_fmap_in {A B} (f : A → B) (lebA : A → A → bool)
    (lebB : B → B → bool) (l : list A) :
  (∀ a b, a ∈ l → b ∈ l → lebB (f a) (f b) = lebA a b) →
  stable_sort lebB (f <$> l) = f <$> stable_sort lebA l.
Proof.
  induction l as [|a l IH]; intros Hf; [done|].
  rewrite fmap_cons. unfold stable_sort in *. simpl foldr. rewrite IH.
  - apply sort_insert_fmap_in. intros b Hb. apply Hf; [left|right].
    by rewrite <- (stable_sort_Permutation lebA l).
  - intros b c Hb Hc. apply Hf; by right.
Qed.

Lemma foldl_pointwise_in {A B} (f1 f2 : A → B → A) (l : list B) (a : A) :
  (∀ a b, b ∈ l → f1 a b = f2 a b) → foldl f1 a l = foldl f2 a l.
Proof.
  revert a. induction l as [|b l IH]; intros a Hf; [done|].
  simpl. rewrite Hf by left. apply IH. intros a' b' Hb'. apply Hf. by right.
Qed.

Section Redrawn.
Context (f : PositionedNode.t → PositionedNode.t).
Context (k : PositionedEdge.t → PositionedEdge.t).
Context (h : PositionedGroup.t → PositionedGroup.t).
Context (g : PositionedGraph.t).
Hypothesis f_keeps : ∀ n,
  PositionedNode.id (f n) = PositionedNode.id n ∧ nodeRank (f n) = nodeRank n.
Hypothesis k_keeps : ∀ e,
  PositionedEdge.source (k e) = PositionedEdge.source e
  ∧ PositionedEdge.target (k e) = PositionedEdge.target e.
Hypothesis h_keeps : ∀ group,
  PositionedGroup.id (h group) = PositionedGroup.id group
  ∧ PositionedGroup.children (h group) = h <$> PositionedGroup.children group.
Hypothesis same_order : ∀ a b,
  a ∈ PositionedGraph.nodes g → b ∈ PositionedGraph.nodes g →
  byX (f a) (f b) = byX a b.
Hypothesis same_containment : ∀ n group,
  n ∈ PositionedGraph.nodes g →
  group ∈ allGroups (PositionedGraph.groups g) →
  inside (f n) (h group) = inside n group.

Lemma filter_rank_redrawn (ns : list PositionedNode.t) r :
  filter (λ n, nodeRank n = r) (f <$> ns)
  = f <$> filter (λ n, nodeRank n = r) ns.
Proof.
  induction ns as [|n ns IH]; [done|].
  rewrite fmap_cons, !filter_cons.
  destruct (decide (nodeRank (f n) = r)) as [Hr|Hr];
    rewrite (proj2 (f_keeps n)) in Hr;
    destruct (decide (nodeRank n = r)); try done; by rewrite IH.
Qed.

Lemma rankBuckets_redrawn :
  rankBuckets (redrawGraph f k h g)
  = (λ bucket : list PositionedNode.t, f <$> bucket) <$> rankBuckets g.
Proof.
  apply map_eq. intros r. rewrite lookup_fmap, !rankBuckets_lookup.
  unfold rankNodes. cbn [redrawGraph PositionedGraph.nodes].
  rewrite filter_rank_redrawn.
  destruct (filter _ (PositionedGraph.nodes g)) as [|n l] eqn:Hl; [done|].
  simpl. f_equal. apply (stable_sort_fmap_in f byX byX (n :: l)).
  intros a b Ha Hb. rewrite <- Hl in Ha, Hb.
  apply list_elem_of_filter in Ha as [_ Ha].
  apply list_elem_of_filter in Hb as [_ Hb]. by apply same_order.
Qed.

Lemma visits_redrawn :
  visits (redrawGraph f k h g) = (λ v : Visit, (v.1, f v.2)) <$> visits g.
Proof.
  unfold visits, sortedRanks. rewrite rankBuckets_redrawn, dom_fmap_L.
  generalize (stable_sort Z.leb (elements (dom (rankBuckets g)))).
  intros ranks. induction ranks as [|r ranks IH]; [done|].
  rewrite !bind_cons, fmap_app, IH. f_equal.
  rewrite lookup_fmap. destruct (rankBuckets g !! r) as [bucket|]; [|done].
  simpl. unfold bucketVisits. by rewrite imap_fmap, fmap_imap.
Qed.

Lemma incomingLoop_redrawn i es m :
  incomingLoop i (k <$> es) m = incomingLoop i es m.
Proof.
  revert i m. induction es as [|e es IH]; intros i m; [done|].
  rewrite fmap_cons. simpl. by rewrite (proj2 (k_keeps e)), IH.
Qed.

Lemma outgoingLoop_redrawn o nodeId nodeDelay ei es E :
  outgoingLoop o nodeId nodeDelay ei (k <$> es) E
  = outgoingLoop o nodeId nodeDelay ei es E.
Proof.
  revert ei E. induction es as [|e es IH]; intros ei E; [done|].
  rewrite fmap_cons. simpl. by rewrite (proj1 (k_keeps e)), IH.
Qed.

Lemma visit_redrawn o st r i n :
  visit (redrawGraph f k h g) o st (r, i, f n) = visit g o st (r, i, n).
Proof.
  destruct st as [N E]. rewrite !visit_eq.
  unfold cascadeDelay, incomingEdges.
  cbn [redrawGraph PositionedGraph.edges].
  by rewrite incomingLoop_redrawn, outgoingLoop_redrawn, (proj1 (f_keeps n)).
Qed.

Lemma cascade_redrawn o : cascade (redrawGraph f k h g) o = cascade g o.
Proof.
  unfold cascade. rewrite visits_redrawn, foldl_fmap.
  generalize (∅ : gmap string Q, ∅ : gmap nat Q). generalize (visits g).
  intros vs. induction vs as [|[[r i] n] vs IH]; intros st; [done|].
  simpl foldl. rewrite visit_redrawn. apply IH.
Qed.

Lemma maxDelayIn_redrawn N group :
  group ∈ allGroups (PositionedGraph.groups g) →
  maxDelayIn (f <$> PositionedGraph.nodes g) N (h group)
  = maxDelayIn (PositionedGraph.nodes g) N group.
Proof.
  intros Hgroup. unfold maxDelayIn. rewrite foldl_fmap.
  apply foldl_pointwise_in. intros a n Hn.
  by rewrite (proj1 (f_keeps n)), same_containment.
Qed.

Lemma collectGroupDelays_redrawn o gs N out :
  (∀ group, group ∈ allGroups gs →
            group ∈ allGroups (PositionedGraph.groups g)) →
  collectGroupDelays o (h <$> gs) (f <$> PositionedGraph.nodes g) N out
  = collectGroupDelays o gs (PositionedGraph.nodes g) N out.
Proof.
  revert out. induction gs as [|c gs IHgs]; intros out Hsub; [done|].
  rewrite fmap_cons, !collectGroupDelays_cons.
  rewrite IHgs by (intros group Hgroup; apply Hsub;
                   rewrite allGroups_cons; apply elem_of_app; by right).
  f_equal.
  assert (∀ group, group ∈ groupAndBelow c →
                   group ∈ allGroups (PositionedGraph.groups g)) as Hc.
  { intros group Hgroup. apply Hsub. rewrite allGroups_cons.
    apply elem_of_app. by left. }
  clear IHgs Hsub. revert out Hc.
  induction c as [id label x y width height children IHc]
    using PositionedGroup_ind.
  intros out Hc.
  set (c := PositionedGroup.mk id label x y width height children) in *.
  rewrite !collectGroupDelay_eq, (proj1 (h_keeps c)), (proj2 (h_keeps c)).
  rewrite maxDelayIn_redrawn
    by (apply Hc; rewrite groupAndBelow_eq; apply elem_of_app; right; left).
  f_equal.
  assert (∀ group, group ∈ allGroups children →
                   group ∈ allGroups (PositionedGraph.groups g)) as Hbelow.
  { intros group Hgroup. apply Hc. rewrite groupAndBelow_eq.
    apply elem_of_app. by left. }
  cbn [PositionedGroup.children c].
  clear Hc. revert out Hbelow.
  induction IHc as [|d ds Hd _ IHds]; intros out Hbelow; [done|].
  rewrite fmap_cons, !collectGroupDelays_cons.
  rewrite Hd by (intros group Hgroup; apply Hbelow;
                 rewrite allGroups_cons; apply elem_of_app; by left).
  apply IHds. intros group Hgroup. apply Hbelow.
  rewrite allGroups_cons. apply elem_of_app. by right.
Qed.
End Redrawn.

(** X7: the schedule reads the geometry of a layout only through the order
    by [x] of its nodes and through which node lies inside which group.
    When the nodes, the edges and the groups are replaced by others with the
    same ids, ranks, endpoints and nesting, and neither the order by [x] of
    two nodes nor the containment of a node in a group changes, every delay
    stays as it is; labels, shapes, styles, sizes and edge points play no
    part. *)
Theorem schedule_reads_order_and_containment_only
    (g : PositionedGraph.t) (o : ResolvedAnimation.t)
    (f : PositionedNode.t → PositionedNode.t)
    (k : PositionedEdge.t → PositionedEdge.t)
    (h : PositionedGroup.t → PositionedGroup.t) :
  (∀ n, PositionedNode.id (f n) = PositionedNode.id n
        ∧ nodeRank (f n) = nodeRank n) →
  (∀ e, PositionedEdge.source (k e) = PositionedEdge.source e
        ∧ PositionedEdge.target (k e) = PositionedEdge.target e) →
  (∀ group,
     PositionedGroup.id (h group) = PositionedGroup.id group
     ∧ PositionedGroup.children (h group)
       = h <$> PositionedGroup.children group) →
  (∀ a b, a ∈ PositionedGraph.nodes g → b ∈ PositionedGraph.nodes g →
          byX (f a) (f b) = byX a b) →
  (∀ n group,
     n ∈ PositionedGraph.nodes g →
     group ∈ allGroups (PositionedGraph.groups g) →
     inside (f n) (h group) = inside n group) →
  computeDelays (redrawGraph f k h g) o = computeDelays g o.
Proof.
  intros Hf Hk Hh Horder Hinside.
  rewrite !computeDelays_eq, (cascade_redrawn f k h g Hf Hk Horder).
  cbn [redrawGraph PositionedGraph.nodes PositionedGraph.groups].
  by rewrite (collectGroupDelays_redrawn f h g Hf Hh Hinside).
Qed.

Lemma shiftGroup_children dx dy group :
  PositionedGroup.children (shiftGroup dx dy group)
  = shiftGroup dx dy <$> PositionedGroup.children group.
Proof.
  destruct group as [id label x y width height children]. simpl.
  induction children as [|c cs IH]; [done|]. by rewrite fmap_cons, <- IH.
Qed.

Lemma schedule_reads_order_and_containment_only_witness :
  computeDelays
    (redrawGraph (shiftNode 5 7) (shiftEdge 5 7) (shiftGroup 5 7) nestedGraph)
    documented
  = computeDelays nestedGraph documented.
Proof.
  apply (schedule_reads_order_and_containment_only nestedGraph documented
           (shiftNode 5 7) (shiftEdge 5 7) (shiftGroup 5 7)).
  - intros n. split; reflexivity.
  - intros e. split; reflexivity.
  - intros group. split; [by destruct group|apply shiftGroup_children].
  - intros a b Ha Hb. simpl in Ha, Hb.
    repeat (apply elem_of_cons in Ha as [->|Ha]);
      try (by apply elem_of_nil in Ha);
      repeat (apply elem_of_cons in Hb as [->|Hb]);
      try (by apply elem_of_nil in Hb); reflexivity.
  - intros n group Hn Hgroup. simpl in Hn.
    change (allGroups (PositionedGraph.groups nestedGraph))
      with [frame "I" 10 10 150 100 [];
            frame "O" 0 0 300 300 [frame "I" 10 10 150 100 []];
            frame "E" 1000 1000 50 50 []] in Hgroup.
    repeat (apply elem_of_cons in Hn as [->|Hn]);
      try (by apply elem_of_nil in Hn);
      repeat (apply elem_of_cons in Hgroup as [->|Hgroup]);
      try (by apply elem_of_nil in Hgroup); reflexivity.
Defined.

(** * Further properties of [escapeXml] *)

(** X12: escaping distributes over concatenation: a text assembled from
    pieces may be escaped piece by piece. *)
Theorem escapeXml_distributes_over_append (s1 s2 : string) :
  escapeXml (s1 +:+ s2) = escapeXml s1 +:+ escapeXml s2.
Proof. unfold escapeXml. by rewrite !replaceAll_app. Qed.

Lemma length_append (s1 s2 : string) :
  String.length (s1 +:+ s2) = (String.length s1 + String.length s2)%nat.
Proof.
  induction s1 as [|a s1 IH]; push_append; simpl; [done|]. by rewrite IH.
Qed.

Lemma entityOf_plain a : a ∉ special → entityOf a = String a EmptyString.
Proof.
  intros Ha. unfold entityOf.
  repeat case_decide; subst; try done; destruct Ha; unfold special;
    repeat ((by left) || right).
Qed.

Lemma entityOf_special a :
  a ∈ special →
  (2 <= String.length (entityOf a))%nat ∧ ampChar ∈ chars (entityOf a).
Proof.
  unfold special. intros Ha.
  repeat (apply elem_of_cons in Ha as [->|Ha]);
    [split; [simpl; lia|left]..|by apply elem_of_nil in Ha].
Qed.

Lemma length_escapeEach s :
  (String.length s <= String.length (escapeEach s))%nat.
Proof.
  induction s as [|a s IH]; simpl; [done|]. rewrite length_append.
  destruct (decide (a ∈ special)) as [Ha|Ha].
  - destruct (entityOf_special a Ha) as [? _]. lia.
  - rewrite entityOf_plain by done. simpl. lia.
Qed.

Lemma escapeEach_fixed s :
  escapeEach s = s ↔ ∀ c, c ∈ chars s → c ∉ special.
Proof.
  induction s as [|a s IH]; simpl.
  - split; [|done]. by intros _ c ?%elem_of_nil.
  - destruct (decide (a ∈ special)) as [Ha|Ha].
    + split.
      * intros Heq. apply (f_equal String.length) in Heq.
        rewrite length_append in Heq. simpl in Heq.
        destruct (entityOf_special a Ha) as [? _].
        pose proof (length_escapeEach s). lia.
      * intros Hplain. destruct (Hplain a); [left|done].
    + rewrite entityOf_plain by done. push_append. split.
      * intros [= Heq]. intros c [->|Hc]%elem_of_cons; [done|].
        by apply IH.
      * intros Hplain. f_equal. apply IH. intros c Hc. apply Hplain.
        by right.
Qed.

Lemma escapeEach_introduces_amp s c :
  c ∈ chars s → c ∈ special → ampChar ∈ chars (escapeEach s).
Proof.
  induction s as [|a s IH]; simpl; [by intros ?%elem_of_nil|].
  rewrite chars_app, elem_of_app.
  intros [->|Hc]%elem_of_cons Hs.
  - left. by apply entityOf_special.
  - right. by apply IH.
Qed.

(** X13: [escapeXml] leaves a text as it is exactly when the text holds
    none of the five characters it replaces, and escaping twice gives the
    same as escaping once only for such a text: an entity that is already in
    the text is escaped again. *)
Theorem escapeXml_is_idempotent_only_on_plain_text (s : string) :
  (escapeXml s = s ↔ ∀ c, c ∈ chars s → c ∉ special)
  ∧ (escapeXml (escapeXml s) = escapeXml s
     ↔ ∀ c, c ∈ chars s → c ∉ special).
Proof.
  rewrite !escapeXml_escapeEach. split; [apply escapeEach_fixed|].
  split.
  - intros Hidem c Hc Hs.
    pose proof (proj1 (escapeEach_fixed (escapeEach s)) Hidem) as Hplain.
    apply (Hplain ampChar); [by eapply escapeEach_introduces_amp|left].
  - intros Hplain. by rewrite !(proj2 (escapeEach_fixed s) Hplain).
Qed.

Lemma escapeEach_inj s1 s2 : escapeEach s1 = escapeEach s2 → s1 = s2.
Proof.
  revert s2. induction s1 as [|a s1 IH]; intros [|b s2]; simpl; [done|..].
  - unfold entityOf. repeat case_decide; push_append; discriminate.
  - unfold entityOf. repeat case_decide; push_append; discriminate.
  - intros Heq. unfold entityOf in Heq.
    repeat case_decide; subst; rewrite ?append_cons, ?append_empty in Heq;
      simplify_eq; try done; f_equal; by apply IH.
Qed.

(** X14: [escapeXml] is injective: two different texts never escape to the
    same string. *)
Theorem escapeXml_is_injective (s1 s2 : string) :
  escapeXml s1 = escapeXml s2 → s1 = s2.
Proof. rewrite !escapeXml_escapeEach. apply escapeEach_inj. Qed.

Lemma escapeXml_is_injective_witness :
  String ltChar (String ampChar EmptyString)
  = String ltChar (String ampChar EmptyString).
Proof.
  apply (escapeXml_is_injective
           (String ltChar (String ampChar EmptyString))
           (String ltChar (String ampChar EmptyString))).
  reflexivity.
Defined.

(** * Further properties of the easing translator *)

Lemma space_is_no_digit c : isSpace c = true → isDigitOrDot c = false.
Proof.
  destruct c as [[] [] [] [] [] [] [] []]; vm_compute; congruence.
Qed.

Lemma digit_is_no_space c : isDigitOrDot c = true → isSpace c = false.
Proof.
  destruct c as [[] [] [] [] [] [] [] []]; vm_compute; congruence.
Qed.

Lemma literal_append lit s : literal lit (lit +:+ s) = Some s.
Proof.
  induction lit as [|a lit IH]; push_append; simpl; [by destruct s|].
  by rewrite decide_True.
Qed.

Lemma skipSpaces_blank w s :
  allChars isSpace w = true → skipSpaces (w +:+ s) = skipSpaces s.
Proof.
  induction w as [|c w IH]; push_append; simpl; [done|].
  intros [Hc Hw]%andb_prop. rewrite Hc. by apply IH.
Qed.

Lemma skipSpaces_stop s : startsWithout isSpace s → skipSpaces s = s.
Proof. destruct s as [|c s]; simpl; [done|]. by intros ->. Qed.

Lemma spanNumber_token n s :
  allChars isDigitOrDot n = true → startsWithout isDigitOrDot s →
  spanNumber (n +:+ s) = (n, s).
Proof.
  intros Hn Hs. induction n as [|c n IH]; push_append; simpl.
  - destruct s as [|c s]; simpl in *; [done|]. by rewrite Hs.
  - simpl in Hn. apply andb_prop in Hn as [Hc Hn]. by rewrite Hc, IH.
Qed.

Lemma captureNumber_token n s :
  isNumberToken n = true → startsWithout isDigitOrDot s →
  captureNumber (n +:+ s) = Some (n, s).
Proof.
  intros Hn Hs. unfold captureNumber. destruct n as [|c n]; [done|].
  by rewrite spanNumber_token.
Qed.

Lemma token_starts_without_space n s :
  isNumberToken n = true → startsWithout isSpace (n +:+ s).
Proof.
  destruct n as [|c n]; [done|]. push_append. simpl.
  intros [Hc _]%andb_prop. by apply digit_is_no_space.
Qed.

Lemma blank_then_mark_starts_without_digit w c s :
  allChars isSpace w = true → isDigitOrDot c = false →
  startsWithout isDigitOrDot (w +:+ String c s).
Proof.
  destruct w as [|b w]; push_append; simpl; [done|].
  intros [Hb _]%andb_prop _. by apply space_is_no_digit.
Qed.

(** One number of the expression and the mark that follows it:
    [\s*([\d.]+)\s*] up to the comma or the bracket [c]. *)
Lemma capture_then_mark w n w' c s :
  allChars isSpace w = true → isNumberToken n = true →
  allChars isSpace w' = true →
  isDigitOrDot c = false → isSpace c = false →
  captureNumber (skipSpaces (w +:+ n +:+ w' +:+ String c EmptyString +:+ s))
  = Some (n, w' +:+ String c EmptyString +:+ s)
  ∧ literal (String c EmptyString)
      (skipSpaces (w' +:+ String c EmptyString +:+ s)) = Some s.
Proof.
  intros Hw Hn Hw' Hdigit Hspace. split.
  - rewrite skipSpaces_blank by done.
    rewrite skipSpaces_stop by by apply token_starts_without_space.
    apply captureNumber_token; [done|]. push_append.
    by apply blank_then_mark_starts_without_digit.
  - rewrite skipSpaces_blank by done.
    rewrite skipSpaces_stop by (push_append; exact Hspace).
    apply literal_append.
Qed.

Lemma matchCubicBezier_here s m :
  matchCubicBezierHere s = Some m → matchCubicBezier s = Some m.
Proof. intros Hm. destruct s; cbn [matchCubicBezier]; by rewrite Hm. Qed.

(** X10: a [cubic-bezier(...)] expression at the head of the easing, with
    any white space around its four numbers and anything after the closing
    bracket, translates to the four numbers separated by single spaces. *)
Theorem explicit_cubic_bezier_is_parsed
    (w1 w2 w3 w4 w5 w6 w7 w8 n1 n2 n3 n4 rest : string) :
  allChars isSpace w1 = true → allChars isSpace w2 = true →
  allChars isSpace w3 = true → allChars isSpace w4 = true →
  allChars isSpace w5 = true → allChars isSpace w6 = true →
  allChars isSpace w7 = true → allChars isSpace w8 = true →
  isNumberToken n1 = true → isNumberToken n2 = true →
  isNumberToken n3 = true → isNumberToken n4 = true →
  cssEasingToSmil
    ("cubic-bezier(" +:+ w1 +:+ n1 +:+ w2 +:+ "," +:+ w3 +:+ n2 +:+ w4
     +:+ "," +:+ w5 +:+ n3 +:+ w6 +:+ "," +:+ w7 +:+ n4 +:+ w8
     +:+ ")" +:+ rest)
  = KeySplines (n1 +:+ " " +:+ n2 +:+ " " +:+ n3 +:+ " " +:+ n4).
Proof.
  intros Hw1 Hw2 Hw3 Hw4 Hw5 Hw6 Hw7 Hw8 Hn1 Hn2 Hn3 Hn4.
  set (tail4 := w7 +:+ n4 +:+ w8 +:+ ")" +:+ rest).
  set (tail3 := w5 +:+ n3 +:+ w6 +:+ "," +:+ tail4).
  set (tail2 := w3 +:+ n2 +:+ w4 +:+ "," +:+ tail3).
  set (tail1 := w1 +:+ n1 +:+ w2 +:+ "," +:+ tail2).
  assert (matchCubicBezierHere ("cubic-bezier(" +:+ tail1)
          = Some (n1, n2, n3, n4)) as Hhere.
  { unfold matchCubicBezierHere. rewrite literal_append.
    cbn [mbind option_bind]. unfold tail1.
    destruct (capture_then_mark w1 n1 w2 ","%char tail2) as [Hcap Hlit];
      [done..|].
    rewrite Hcap. cbn [mbind option_bind]. rewrite Hlit.
    cbn [mbind option_bind]. unfold tail2. clear Hcap Hlit.
    destruct (capture_then_mark w3 n2 w4 ","%char tail3) as [Hcap Hlit];
      [done..|].
    rewrite Hcap. cbn [mbind option_bind]. rewrite Hlit.
    cbn [mbind option_bind]. unfold tail3. clear Hcap Hlit.
    destruct (capture_then_mark w5 n3 w6 ","%char tail4) as [Hcap Hlit];
      [done..|].
    rewrite Hcap. cbn [mbind option_bind]. rewrite Hlit.
    cbn [mbind option_bind]. unfold tail4. clear Hcap Hlit.
    destruct (capture_then_mark w7 n4 w8 ")"%char rest) as [Hcap Hlit];
      [done..|].
    rewrite Hcap. cbn [mbind option_bind]. by rewrite Hlit. }
  apply matchCubicBezier_here in Hhere.
  unfold cssEasingToSmil.
  assert (assoc ("cubic-bezier(" +:+ tail1) NAMED_EASINGS = None) as ->.
  { push_append. unfold NAMED_EASINGS. simpl.
    repeat (case_decide; [discriminate|]). done. }
  assert (bool_decide ("cubic-bezier(" +:+ tail1 ∈ objectPrototypeKeys) = false)
    as ->.
  { apply bool_decide_eq_false. push_append. unfold objectPrototypeKeys.
    intros Hin.
    repeat (apply elem_of_cons in Hin as [Hin|Hin]; [discriminate Hin|]).
    by apply elem_of_nil in Hin. }
  by rewrite Hhere.
Qed.

Lemma explicit_cubic_bezier_is_parsed_witness :
  cssEasingToSmil
    ("cubic-bezier(" +:+ " " +:+ "0.16" +:+ EmptyString +:+ "," +:+ " "
     +:+ "1" +:+ " " +:+ "," +:+ EmptyString +:+ "0.3" +:+ EmptyString
     +:+ "," +:+ "  " +:+ "1" +:+ " " +:+ ")" +:+ " forwards")
  = KeySplines ("0.16" +:+ " " +:+ "1" +:+ " " +:+ "0.3" +:+ " " +:+ "1").
Proof.
  apply (explicit_cubic_bezier_is_parsed
           " " EmptyString " " " " EmptyString EmptyString "  " " "
           "0.16" "1" "0.3" "1" " forwards"); reflexivity.
Defined.

Lemma allChars_app p s1 s2 :
  allChars p (s1 +:+ s2) = allChars p s1 && allChars p s2.
Proof.
  induction s1 as [|c s1 IH]; push_append; simpl; [done|].
  by rewrite IH, andb_assoc.
Qed.

Lemma digits_are_spline_chars s :
  allChars isDigitOrDot s = true → allChars isSplineChar s = true.
Proof.
  induction s as [|c s IH]; simpl; [done|].
  intros [Hc Hs]%andb_prop. unfold isSplineChar at 1. by rewrite Hc, IH.
Qed.

Lemma spanNumber_digits s : allChars isDigitOrDot (spanNumber s).1 = true.
Proof.
  induction s as [|c s IH]; simpl; [done|].
  destruct (isDigitOrDot c) eqn:Hc; [|done].
  destruct (spanNumber s) as [num rest]. simpl in *. by rewrite Hc, IH.
Qed.

Lemma captureNumber_digits s m rest :
  captureNumber s = Some (m, rest) → allChars isDigitOrDot m = true.
Proof.
  unfold captureNumber. pose proof (spanNumber_digits s) as Hd.
  destruct (spanNumber s) as [[|c num] rest']; [done|].
  by intros [= <- _].
Qed.

Lemma matchCubicBezierHere_digits s m1 m2 m3 m4 :
  matchCubicBezierHere s = Some (m1, m2, m3, m4) →
  allChars isDigitOrDot m1 = true ∧ allChars isDigitOrDot m2 = true
  ∧ allChars isDigitOrDot m3 = true ∧ allChars isDigitOrDot m4 = true.
Proof.
  unfold matchCubicBezierHere. intros Hm.
  destruct (literal "cubic-bezier(" s) as [s0|]; [|done].
  cbn [mbind option_bind] in Hm.
  destruct (captureNumber (skipSpaces s0)) as [[k1 s1]|] eqn:H1; [|done].
  cbn [mbind option_bind] in Hm.
  destruct (literal "," (skipSpaces s1)) as [s2|]; [|done].
  cbn [mbind option_bind] in Hm.
  destruct (captureNumber (skipSpaces s2)) as [[k2 s3]|] eqn:H2; [|done].
  cbn [mbind option_bind] in Hm.
  destruct (literal "," (skipSpaces s3)) as [s4|]; [|done].
  cbn [mbind option_bind] in Hm.
  destruct (captureNumber (skipSpaces s4)) as [[k3 s5]|] eqn:H3; [|done].
  cbn [mbind option_bind] in Hm.
  destruct (literal "," (skipSpaces s5)) as [s6|]; [|done].
  cbn [mbind option_bind] in Hm.
  destruct (captureNumber (skipSpaces s6)) as [[k4 s7]|] eqn:H4; [|done].
  cbn [mbind option_bind] in Hm.
  destruct (literal ")" (skipSpaces s7)) as [s8|]; [|done].
  cbn [mbind option_bind] in Hm. injection Hm as <- <- <- <-.
  split_and!; by eapply captureNumber_digits.
Qed.

Lemma matchCubicBezier_digits s m1 m2 m3 m4 :
  matchCubicBezier s = Some (m1, m2, m3, m4) →
  allChars isDigitOrDot m1 = true ∧ allChars isDigitOrDot m2 = true
  ∧ allChars isDigitOrDot m3 = true ∧ allChars isDigitOrDot m4 = true.
Proof.
  induction s as [|c s IH]; cbn [matchCubicBezier].
  - destruct (matchCubicBezierHere EmptyString) as [m|] eqn:Hm; [|done].
    intros [= ->]. by apply (matchCubicBezierHere_digits EmptyString).
  - destruct (matchCubicBezierHere (String c s)) as [m|] eqn:Hm; [|done].
    intros [= ->]. by apply (matchCubicBezierHere_digits (String c s)).
Qed.

Lemma assoc_values (P : string → Prop) key table value :
  Forall (λ entry : string * string, P entry.2) table →
  assoc key table = Some value → P value.
Proof.
  induction 1 as [|[k v] table Hv _ IH]; simpl; [done|].
  case_decide; [by intros [= <-]|done].
Qed.

(** X11: a [keySplines] value that [cssEasingToSmil] returns is made of
    digits, dots and spaces only, whatever easing string it was given: it
    can be written into an attribute as it is. *)
Theorem keySplines_hold_digits_dots_and_spaces (easing s : string) :
  cssEasingToSmil easing = KeySplines s → allChars isSplineChar s = true.
Proof.
  unfold cssEasingToSmil.
  destruct (assoc easing NAMED_EASINGS) as [named|] eqn:Hnamed.
  - intros [= <-].
    apply (assoc_values (λ v, allChars isSplineChar v = true)
             easing NAMED_EASINGS); [|done].
    unfold NAMED_EASINGS. repeat constructor.
  - case_bool_decide; [done|].
    destruct (matchCubicBezier easing) as [[[[m1 m2] m3] m4]|] eqn:Hm.
    + intros [= <-].
      destruct (matchCubicBezier_digits _ _ _ _ _ Hm) as (H1 & H2 & H3 & H4).
      rewrite !allChars_app.
      rewrite (digits_are_spline_chars m1), (digits_are_spline_chars m2),
        (digits_are_spline_chars m3), (digits_are_spline_chars m4) by done.
      reflexivity.
    + by intros [= <-].
Qed.

Lemma keySplines_hold_digits_dots_and_spaces_witness :
  allChars isSplineChar "0 0 0.58 1" = true.
Proof.
  apply (keySplines_hold_digits_dots_and_spaces
           "steps(4, end)" "0 0 0.58 1").
  reflexivity.
Defined.

(** * Further properties of the option resolution *)

(** X9: an options object that spells out every field is returned as it
    is: no default shows through, so resolving resolved options again
    changes nothing. *)
Theorem resolveAnimation_round_trip (r : ResolvedAnimation.t) :
  resolveAnimation (AnimateOptions (allOptions r)) = Some r
  ∧ (∀ a r', resolveAnimation a = Some r' →
       resolveAnimation (AnimateOptions (allOptions r')) = resolveAnimation a).
Proof.
  assert (∀ q, spread (allOptions q) = q) as Hspread by by intros [].
  split; [simpl; by rewrite Hspread|].
  intros a r' Ha. simpl. by rewrite Hspread.
Qed.

(** * [edgeMidpoint] *)

Section EdgeMidpointFacts.
Variable sqrt : Q → Q.

Lemma totalLengthLoop_lengthFrom prev rest total :
  totalLengthLoop sqrt prev rest total == total + lengthFrom sqrt prev rest.
Proof.
  revert prev total. induction rest as [|p rest IH]; intros prev total; simpl.
  - ring.
  - rewrite IH. ring.
Qed.

Lemma segmentsPositive_tail prev rest :
  segmentsPositive sqrt (prev :: rest) → segmentsPositive sqrt rest.
Proof. intros Hpos i a b Ha Hb. by apply (Hpos (S i)). Qed.

Lemma lengthFrom_nonneg prev rest :
  segmentsPositive sqrt (prev :: rest) → 0 <= lengthFrom sqrt prev rest.
Proof.
  revert prev. induction rest as [|p rest IH]; intros prev Hpos; simpl.
  - apply Qle_refl.
  - pose proof (Hpos 0%nat prev p eq_refl eq_refl).
    pose proof (IH p (segmentsPositive_tail _ _ Hpos)). lra.
Qed.

Lemma midpointLoop_spec prev rest remaining :
  rest ≠ [] → segmentsPositive sqrt (prev :: rest) →
  0 <= remaining → remaining <= lengthFrom sqrt prev rest →
  ∃ i a b t,
    (prev :: rest) !! i = Some a ∧ (prev :: rest) !! S i = Some b
    ∧ 0 <= t ∧ t <= 1
    ∧ midpointLoop sqrt prev rest remaining = Some (pointBetween a b t).
Proof.
  revert prev remaining.
  induction rest as [|p rest IH]; intros prev remaining Hne Hpos Hlo Hhi;
    [done|].
  pose proof (Hpos 0%nat prev p eq_refl eq_refl) as Hseg.
  simpl in Hhi |- *.
  destruct (Qle_bool remaining (dist sqrt prev p)) eqn:Hle.
  - apply Qle_bool_iff in Hle.
    exists 0%nat, prev, p, (remaining / dist sqrt prev p).
    split_and!; [done|done| | |done].
    + apply Qle_shift_div_l; [done|]. lra.
    + apply Qle_shift_div_r; [done|]. lra.
  - assert (dist sqrt prev p < remaining) as Hlt.
    { apply Qnot_le_lt. intros H%Qle_bool_iff. congruence. }
    assert (rest ≠ []) as Hrest.
    { intros ->. simpl in Hhi. lra. }
    destruct (IH p (remaining - dist sqrt prev p) Hrest
                (segmentsPositive_tail _ _ Hpos)) as
      (i & a & b & t & Ha & Hb & Ht0 & Ht1 & Hmid); [lra..|].
    by exists (S i), a, b, t.
Qed.

(** X15: for an edge of at least two points with no segment of length 0,
    the loop of [edgeMidpoint] returns from one of the segments, with a
    point [a + t * (b - a)] between the two ends [a] and [b] of that
    segment, [t] lying between 0 and 1: the return after the loop is never
    reached. *)
Theorem edgeMidpoint_lies_on_a_segment
    (p0 p1 : Point.t) (rest : list Point.t) :
  segmentsPositive sqrt (p0 :: p1 :: rest) →
  ∃ i a b t,
    (p0 :: p1 :: rest) !! i = Some a
    ∧ (p0 :: p1 :: rest) !! S i = Some b
    ∧ 0 <= t ∧ t <= 1
    ∧ midpointLoop sqrt p0 (p1 :: rest)
        (totalLengthLoop sqrt p0 (p1 :: rest) 0 / 2)
      = Some (pointBetween a b t)
    ∧ edgeMidpoint sqrt (p0 :: p1 :: rest) = pointBetween a b t.
Proof.
  intros Hpos. unfold edgeMidpoint.
  pose proof (totalLengthLoop_lengthFrom p0 (p1 :: rest) 0) as Htotal.
  pose proof (lengthFrom_nonneg p0 (p1 :: rest) Hpos) as Hnonneg.
  set (total := totalLengthLoop sqrt p0 (p1 :: rest) 0) in *.
  destruct (midpointLoop_spec p0 (p1 :: rest) (total / 2))
    as (i & a & b & t & Ha & Hb & Ht0 & Ht1 & Hmid);
    [done|done| | |].
  - apply Qle_shift_div_l; [done|]. lra.
  - apply Qle_shift_div_r; [done|]. lra.
  - exists i, a, b, t. split_and!; [done..|]. by rewrite Hmid.
Qed.
End EdgeMidpointFacts.

Lemma edgeMidpoint_lies_on_a_segment_witness :
  ∃ i a b t,
    [Point.mk 0 0; Point.mk 3 4; Point.mk 3 10] !! i = Some a
    ∧ [Point.mk 0 0; Point.mk 3 4; Point.mk 3 10] !! S i = Some b
    ∧ 0 <= t ∧ t <= 1
    ∧ midpointLoop sqrtFloor (Point.mk 0 0) [Point.mk 3 4; Point.mk 3 10]
        (totalLengthLoop sqrtFloor (Point.mk 0 0)
           [Point.mk 3 4; Point.mk 3 10] 0 / 2)
      = Some (pointBetween a b t)
    ∧ edgeMidpoint sqrtFloor [Point.mk 0 0; Point.mk 3 4; Point.mk 3 10]
      = pointBetween a b t.
Proof.
  apply (edgeMidpoint_lies_on_a_segment sqrtFloor
           (Point.mk 0 0) (Point.mk 3 4) [Point.mk 3 10]).
  intros [|[|i]] a b Ha Hb; simpl in Ha, Hb.
  - injection Ha as <-. injection Hb as <-. reflexivity.
  - injection Ha as <-. injection Hb as <-. reflexivity.
  - discriminate Hb.
Defined.

(** * [renderGroupLabels] *)

Lemma mjoin_cons {A} (l : list A) (ls : list (list A)) :
  mjoin (l :: ls) = l ++ mjoin ls.
Proof. done. Qed.

Lemma skeleton_join_newline parts :
  skeleton (join newline parts) = mjoin (skeleton <$> parts).
Proof.
  induction parts as [|part parts IH]; [done|].
  destruct parts as [|part' parts].
  - simpl. by rewrite (right_id_L [] (++)).
  - change (join newline (part :: part' :: parts))
      with (part +:+ newline +:+ join newline (part' :: parts)).
    rewrite !skeleton_app, IH. done.
Qed.

Section GroupLabelFacts.
Context (showNumber : Q → string) (TEXT_BASELINE_SHIFT : string).
Context (estimateTextWidth : string → Q → Q → Q).
Context (font groupFont groupTextTransform : string).
Context (groupFontSize groupFontWeight : Q).
Hypothesis showNumber_plain : ∀ q, skeleton (showNumber q) = [].
Hypothesis shift_plain : skeleton TEXT_BASELINE_SHIFT = [].
Hypothesis groupFont_plain : skeleton groupFont = [].
Hypothesis groupTextTransform_plain : skeleton groupTextTransform = [].

Lemma renderGroupLabelsInner_skeleton group :
  skeleton (renderGroupLabelsInner showNumber TEXT_BASELINE_SHIFT
              estimateTextWidth group font groupFontSize groupFontWeight
              groupFont groupTextTransform)
  = groupLabelSkeleton.
Proof.
  unfold renderGroupLabelsInner.
  rewrite !skeleton_app, !skeleton_escapeXml, !showNumber_plain,
    shift_plain, groupFont_plain.
  case_bool_decide.
  - reflexivity.
  - rewrite !skeleton_app, groupTextTransform_plain. reflexivity.
Qed.

Lemma renderGroupLabels_eq group :
  renderGroupLabels showNumber TEXT_BASELINE_SHIFT estimateTextWidth group
    font groupFontSize groupFontWeight groupFont groupTextTransform
  = join newline
      (renderGroupLabelsInner showNumber TEXT_BASELINE_SHIFT
         estimateTextWidth group font groupFontSize groupFontWeight
         groupFont groupTextTransform
       :: ((λ child,
              renderGroupLabels showNumber TEXT_BASELINE_SHIFT
                estimateTextWidth child font groupFontSize groupFontWeight
                groupFont groupTextTransform)
           <$> PositionedGroup.children group)).
Proof.
  destruct group as [id label x y width height children].
  cbn [renderGroupLabels PositionedGroup.children]. by do 2 f_equal.
Qed.

Lemma renderGroupLabels_skeleton group :
  skeleton (renderGroupLabels showNumber TEXT_BASELINE_SHIFT
              estimateTextWidth group font groupFontSize groupFontWeight
              groupFont groupTextTransform)
  = mjoin (replicate (length (groupAndBelow group)) groupLabelSkeleton).
Proof.
  induction group as [id label x y width height children IHc]
    using PositionedGroup_ind.
  rewrite renderGroupLabels_eq, skeleton_join_newline, groupAndBelow_eq.
  rewrite fmap_cons, renderGroupLabelsInner_skeleton, mjoin_cons.
  cbn [PositionedGroup.children].
  rewrite List.length_app, Nat.add_comm. cbn [length Nat.add].
  rewrite replicate_S, mjoin_cons. f_equal.
  induction IHc as [|c cs Hc _ IHcs]; [done|].
  rewrite !fmap_cons, mjoin_cons, Hc, IHcs, allGroups_cons.
  by rewrite List.length_app, replicate_add, join_app.
Qed.
End GroupLabelFacts.

(** X16: whatever the labels of a group and of the groups nested in it,
    the markup characters of what [renderGroupLabels] returns are those of
    one header per group: a label adds none, numbers, the font name and
    the text transform being printed without any. *)
Theorem group_labels_add_no_markup
    (showNumber : Q → string) (TEXT_BASELINE_SHIFT : string)
    (estimateTextWidth : string → Q → Q → Q)
    (font groupFont groupTextTransform : string)
    (groupFontSize groupFontWeight : Q) (group : PositionedGroup.t) :
  (∀ q, skeleton (showNumber q) = []) →
  skeleton TEXT_BASELINE_SHIFT = [] →
  skeleton groupFont = [] →
  skeleton groupTextTransform = [] →
  skeleton (renderGroupLabels showNumber TEXT_BASELINE_SHIFT
              estimateTextWidth group font groupFontSize groupFontWeight
              groupFont groupTextTransform)
  = mjoin (replicate (length (groupAndBelow group)) groupLabelSkeleton).
Proof. intros. by apply renderGroupLabels_skeleton. Qed.

Lemma group_labels_add_no_markup_witness :
  skeleton
    (renderGroupLabels (λ _, "0") "0.35em" (λ _ _ _, 0)
       (frame "<a href='x'>" 0 0 300 300 [frame "I & J" 10 10 150 100 []])
       "Geist" 12 500 "Geist Mono" "uppercase")
  = mjoin (replicate 2 groupLabelSkeleton).
Proof.
  apply (group_labels_add_no_markup (λ _, "0") "0.35em" (λ _ _ _, 0)
           "Geist" "Geist Mono" "uppercase" 12 500
           (frame "<a href='x'>" 0 0 300 300 [frame "I & J" 10 10 150 100 []]));
    reflexivity.
Defined.

(** * Label text and inline styles in the rendered elements *)

Section RenderedText.
Context (showNumber : Q → string) (TEXT_BASELINE_SHIFT : string).
Hypothesis showNumber_plain : ∀ q, skeleton (showNumber q) = [].
Hypothesis shift_plain : skeleton TEXT_BASELINE_SHIFT = [].

(** Whatever the label and the inline colour of a node, the markup
    characters of its label element are those of the template. *)
Lemma renderNodeLabel_skeleton node font fontSize fontWeight letterSpacing :
  isBareState node = false →
  skeleton (renderNodeLabel showNumber TEXT_BASELINE_SHIFT node font
              fontSize fontWeight letterSpacing)
  = textElementSkeleton (if Qeq_bool letterSpacing 0 then 7 else 8).
Proof.
  intros Hbare. unfold renderNodeLabel.
  assert ((match PositionedNode.shape node with
           | StateStart | StateEnd => true
           | _ => false
           end && bool_decide (PositionedNode.label node = EmptyString))
          = false) as ->.
  { unfold isBareState in Hbare. by destruct (PositionedNode.shape node). }
  cbv zeta.
  rewrite !skeleton_app, !skeleton_escapeXml, !showNumber_plain, shift_plain.
  destruct (Qeq_bool letterSpacing 0).
  - reflexivity.
  - rewrite !skeleton_app, showNumber_plain. reflexivity.
Qed.

Lemma renderNodeLabel_bare node font fontSize fontWeight letterSpacing :
  isBareState node = true →
  renderNodeLabel showNumber TEXT_BASELINE_SHIFT node font
    fontSize fontWeight letterSpacing = EmptyString.
Proof.
  intros Hbare. unfold renderNodeLabel, isBareState in *.
  destruct (PositionedNode.shape node); try done; by rewrite Hbare.
Qed.

Lemma renderEdgeLabel_skeleton (sqrt : Q → Q)
    (estimateMonoTextWidth : string → Q → Q) (FONT_WEIGHTS_edgeLabel : Q)
    edge font edgeFontSize lineWidth label :
  PositionedEdge.label edge = Some label →
  ∃ svg,
    renderEdgeLabel sqrt showNumber TEXT_BASELINE_SHIFT estimateMonoTextWidth
      FONT_WEIGHTS_edgeLabel edge font edgeFontSize lineWidth = Some svg
    ∧ skeleton svg = edgeLabelSkeleton.
Proof.
  intros Hlabel. unfold renderEdgeLabel. rewrite Hlabel.
  cbn [mbind option_bind]. cbv zeta. eexists. split; [reflexivity|].
  rewrite !skeleton_app, !skeleton_escapeXml, !showNumber_plain, shift_plain.
  reflexivity.
Qed.

Lemma renderEdgeLabel_unlabelled (sqrt : Q → Q)
    (estimateMonoTextWidth : string → Q → Q) (FONT_WEIGHTS_edgeLabel : Q)
    edge font edgeFontSize lineWidth :
  PositionedEdge.label edge = None →
  renderEdgeLabel sqrt showNumber TEXT_BASELINE_SHIFT estimateMonoTextWidth
    FONT_WEIGHTS_edgeLabel edge font edgeFontSize lineWidth = None.
Proof. intros Hlabel. unfold renderEdgeLabel. by rewrite Hlabel. Qed.

Lemma renderNodeShape_skeleton (STROKE_WIDTHS_innerBox : Q) node cr :
  skeleton (renderNodeShape showNumber STROKE_WIDTHS_innerBox node cr)
  = shapeSkeleton (PositionedNode.shape node).
Proof.
  unfold renderNodeShape. cbv zeta.
  destruct (PositionedNode.shape node);
    unfold renderRect, renderRoundedRect, renderDiamond, renderStadium,
      renderCircle, renderSubroutine, renderDoubleCircle, renderHexagon,
      renderCylinder, renderAsymmetric, renderTrapezoid, renderTrapezoidAlt,
      renderStateStart, renderStateEnd;
    cbv zeta;
    rewrite !skeleton_app, ?skeleton_escapeXml, !showNumber_plain;
    reflexivity.
Qed.
End RenderedText.

(** C10: whatever the input, the string [escapeXml] returns holds none of
    the characters [<], [>], the double quote and the apostrophe, and it is
    the input with each of these and each [&] replaced by its entity
    ([&lt;], [&gt;], [&quot;], [&#39;], [&amp;]), every other character
    kept.  Hence, numbers and [TEXT_BASELINE_SHIFT] being printed without
    markup characters, the texts that the renderer passes through
    [escapeXml] add no markup character to the elements built around them:
    the label and the inline colour of a node in [renderNodeLabel] (which
    returns the empty string for a pseudo-state without a label, and for no
    other node); the inline fill, stroke and stroke width in
    [renderNodeShape], for each of the fourteen shapes; the label of an edge
    in [renderEdgeLabel] (which throws on an edge without a label); the
    labels of a group and of the groups below it in [renderGroupLabels]. *)
Theorem escapeXml_neutralises_markup :
  (∀ text,
     (∀ c, c ∈ chars (escapeXml text) → c ∉ markup)
     ∧ escapeXml text = escapeEach text)
  ∧ (∀ (showNumber : Q → string) (TEXT_BASELINE_SHIFT : string),
       (∀ q, skeleton (showNumber q) = []) →
       skeleton TEXT_BASELINE_SHIFT = [] →
       (∀ node font fontSize fontWeight letterSpacing,
          (isBareState node = true →
           renderNodeLabel showNumber TEXT_BASELINE_SHIFT node font
             fontSize fontWeight letterSpacing = EmptyString)
          ∧ (isBareState node = false →
             skeleton (renderNodeLabel showNumber TEXT_BASELINE_SHIFT node
                         font fontSize fontWeight letterSpacing)
             = textElementSkeleton
                 (if Qeq_bool letterSpacing 0 then 7 else 8)))
       ∧ (∀ STROKE_WIDTHS_innerBox node cr,
            skeleton (renderNodeShape showNumber STROKE_WIDTHS_innerBox
                        node cr)
            = shapeSkeleton (PositionedNode.shape node))
       ∧ (∀ (sqrt : Q → Q) (estimateMonoTextWidth : string → Q → Q)
            FONT_WEIGHTS_edgeLabel edge font edgeFontSize lineWidth,
            match PositionedEdge.label edge with
            | Some _ =>
                ∃ svg,
                  renderEdgeLabel sqrt showNumber TEXT_BASELINE_SHIFT
                    estimateMonoTextWidth FONT_WEIGHTS_edgeLabel edge font
                    edgeFontSize lineWidth = Some svg
                  ∧ skeleton svg = edgeLabelSkeleton
            | None =>
                renderEdgeLabel sqrt showNumber TEXT_BASELINE_SHIFT
                  estimateMonoTextWidth FONT_WEIGHTS_edgeLabel edge font
                  edgeFontSize lineWidth = None
            end)
       ∧ (∀ (estimateTextWidth : string → Q → Q → Q)
            font groupFont groupTextTransform groupFontSize groupFontWeight
            group,
            skeleton groupFont = [] →
            skeleton groupTextTransform = [] →
            skeleton (renderGroupLabels showNumber TEXT_BASELINE_SHIFT
                        estimateTextWidth group font groupFontSize
                        groupFontWeight groupFont groupTextTransform)
            = mjoin (replicate (length (groupAndBelow group))
                       groupLabelSkeleton))).
Proof.
  split.
  - intros text. split; [|apply escapeXml_escapeEach].
    intros c. rewrite escapeXml_escapeEach. apply escapeEach_no_markup.
  - intros showNumber shift Hshow Hshift. split_and!.
    + intros node font fontSize fontWeight letterSpacing. split.
      * by apply renderNodeLabel_bare.
      * by apply renderNodeLabel_skeleton.
    + intros innerBox node cr. by apply renderNodeShape_skeleton.
    + intros sqrt width weight edge font edgeFontSize lineWidth.
      destruct (PositionedEdge.label edge) as [label|] eqn:Hlabel.
      * by apply (renderEdgeLabel_skeleton _ _ Hshow Hshift _ _ _ _ _ _ _ label).
      * by apply renderEdgeLabel_unlabelled.
    + intros width font groupFont transform size weight group Hfont Htransform.
      by apply renderGroupLabels_skeleton.
Qed.

Lemma escapeXml_neutralises_markup_witness :
  skeleton (renderNodeLabel (λ _, "0") "0.35em" hostileNode "Geist"
              13 500 (- 0.384))
  = textElementSkeleton 8
  ∧ skeleton (renderNodeShape (λ _, "0") 1 hostileNode 6)
    = shapeSkeleton Cylinder
  ∧ ∃ svg,
      renderEdgeLabel sqrtFloor (λ _, "0") "0.35em" (λ _ _, 0) 400
        hostileEdge "Geist" 11 1 = Some svg
      ∧ skeleton svg = edgeLabelSkeleton.
Proof.
  destruct (proj2 escapeXml_neutralises_markup (λ _, "0") "0.35em"
              ltac:(reflexivity) ltac:(reflexivity))
    as (Hlabel & Hshape & Hedge & _).
  split_and!.
  - by apply (Hlabel hostileNode "Geist" 13 500 (- 0.384)).
  - apply (Hshape 1 hostileNode 6).
  - apply (Hedge sqrtFloor (λ _ _, 0) 400 hostileEdge "Geist" 11 1).
Defined.
